(** * logo-search-poc: a shallow embedding of the gallery's data layer

    The development follows the repository:
    - [src/lib/dynamo.ts]                     slug normalisation, public URLs;
    - the two [logo-index] repositories       (three-table and single-table);
    - the three API routes                    (photos, logos, photos by logo);
    - the two ingestion scripts               (three-table and single-table).

    JavaScript values are modelled as they are at run time: strings are
    sequences of UTF-16 code units, Numbers carry NaN and the two infinities,
    objects are association lists from property names to values.  Calls to
    the services the code does not own (S3, Vision, DynamoDB, the clock, the
    console) go through an explicit history of events and an environment
    that answers each request from the history so far. *)

From stdpp Require Import gmap list strings sorting.
From Stdlib Require Import QArith Lqa Permutation Sorted DecimalString.
From Stdlib Require Import DecimalNat Ascii.

Set Warnings "-register-all".

Local Close Scope Q_scope.
Local Open Scope Z_scope.
Local Open Scope list_scope.

(* ================================================================== *)
(** * Part I: the model *)
(* ================================================================== *)

(** ** JavaScript strings *)

(** A string is its sequence of UTF-16 code units. *)
Abbreviation jsstring := (list N).

(** The code units of an ASCII literal. *)
Definition js (s : string) : jsstring :=
  List.map N_of_ascii (String.list_ascii_of_string s).

Module Str.

Definition dash : N := 45%N.
Definition dot : N := 46%N.
Definition slash : N := 47%N.
Definition hash : N := 35%N.
Definition underscore : N := 95%N.

Definition in_range (lo hi u : N) : bool := ((lo <=? u) && (u <=? hi))%N.

Definition is_digit (u : N) : bool := in_range 48 57 u.
Definition is_lower (u : N) : bool := in_range 97 122 u.
Definition is_upper (u : N) : bool := in_range 65 90 u.

(** The character class [[a-z0-9]]. *)
Definition is_lower_alnum (u : N) : bool := is_lower u || is_digit u.

(** The character class [[a-zA-Z0-9_-]]. *)
Definition is_id_char (u : N) : bool :=
  is_lower u || is_upper u || is_digit u
  || (u =? underscore)%N || (u =? dash)%N.

(** WhiteSpace and LineTerminator code points, the ones [trim] strips. *)
Definition is_space (u : N) : bool :=
  in_range 9 13 u || (u =? 32)%N || (u =? 160)%N || (u =? 5760)%N
  || in_range 8192 8202 u || (u =? 8232)%N || (u =? 8233)%N
  || (u =? 8239)%N || (u =? 8287)%N || (u =? 12288)%N || (u =? 65279)%N.

Fixpoint drop_while (p : N -> bool) (s : jsstring) : jsstring :=
  match s with
  | [] => []
  | u :: s' => if p u then drop_while p s' else s
  end.

(** Dropping the longest suffix whose units all satisfy [p]. *)
Fixpoint drop_end_while (p : N -> bool) (s : jsstring) : jsstring :=
  match s with
  | [] => []
  | u :: s' =>
      match drop_end_while p s' with
      | [] => if p u then [] else [u]
      | r => u :: r
      end
  end.

(** [String.prototype.trim]. *)
Definition trim (s : jsstring) : jsstring :=
  drop_end_while is_space (drop_while is_space s).

(** [s.replace(/[^a-z0-9]+/g, "-")]: every maximal run of units outside
    [[a-z0-9]] becomes one dash.  [in_run] tells that the previous unit
    belonged to a run already replaced. *)
Fixpoint replace_runs (in_run : bool) (s : jsstring) : jsstring :=
  match s with
  | [] => []
  | u :: s' =>
      if is_lower_alnum u then u :: replace_runs false s'
      else if in_run then replace_runs true s'
      else dash :: replace_runs true s'
  end.

(** [s.replace(/^-+|-+$/g, "")]: the leading run of dashes goes first (the
    leftmost match), then whatever run of dashes ends the rest. *)
Definition strip_dashes (s : jsstring) : jsstring :=
  drop_end_while (N.eqb dash) (drop_while (N.eqb dash) s).

(** [s.startsWith(p)] and the rest of [s] after [p]. *)
Fixpoint strip_prefix (p s : jsstring) : option jsstring :=
  match p, s with
  | [], _ => Some s
  | a :: p', b :: s' => if (a =? b)%N then strip_prefix p' s' else None
  | _ :: _, [] => None
  end.

(** [s.endsWith("/")]. *)
Definition ends_with_slash (s : jsstring) : bool :=
  match List.rev s with
  | u :: _ => (u =? slash)%N
  | [] => false
  end.

(** [s.replace(/\/$/, "")]. *)
Definition strip_trailing_slash (s : jsstring) : jsstring :=
  if ends_with_slash s then List.removelast s else s.

(** Does [s] match [[^/.]+$] from its start: one unit or more, none of
    them a slash or a dot. *)
Definition is_ext_body (s : jsstring) : bool :=
  match s with
  | [] => false
  | _ => List.forallb (fun u => negb ((u =? slash)%N || (u =? dot)%N)) s
  end.

(** [s.replace(/\.[^/.]+$/, "")]: the leftmost position where a dot is
    followed, up to the end, by units that are neither slash nor dot; the
    string is cut there. *)
Fixpoint strip_extension (s : jsstring) : jsstring :=
  match s with
  | [] => []
  | u :: s' =>
      if (u =? dot)%N && is_ext_body s' then []
      else u :: strip_extension s'
  end.

(** [s.replace(/[^a-zA-Z0-9_-]/g, "-")]. *)
Definition sanitize (s : jsstring) : jsstring :=
  List.map (fun u => if is_id_char u then u else dash) s.

(** [s.split("#")[0]]: the part before the first hash. *)
Fixpoint before_hash (s : jsstring) : jsstring :=
  match s with
  | [] => []
  | u :: s' => if (u =? hash)%N then [] else u :: before_hash s'
  end.

(** A non-empty string is truthy. *)
Definition truthy (s : jsstring) : bool :=
  match s with [] => false | _ => true end.

(** Decimal rendering of a natural number, as [toString] gives it. *)
Definition of_nat (n : nat) : jsstring :=
  js (NilEmpty.string_of_uint (Nat.to_uint n)).

(** [s.padStart(4, "0")]. *)
Definition padStart4 (s : jsstring) : jsstring :=
  List.repeat 48%N (4 - length s) ++ s.

End Str.

(** ** JavaScript Numbers *)

(** A Number is NaN, an infinity or a finite double.  A finite double is a
    dyadic rational and is carried by its exact value: the code under study
    only tests Numbers for finiteness, compares them and takes the sign of a
    difference, and on all three the rational value decides. *)
Inductive number : Type :=
| NaN
| Infinity (negative : bool)
| Finite (q : Q).

Module Num.

Definition zero : number := Finite 0%Q.
Definition of_nat (n : nat) : number := Finite (inject_Z (Z.of_nat n)).

(** [Number.isFinite]. *)
Definition isFinite (x : number) : bool :=
  match x with Finite _ => true | _ => false end.

(** [x > y]. *)
Definition gt (x y : number) : bool :=
  match x, y with
  | NaN, _ | _, NaN => false
  | Infinity false, Infinity false => false
  | Infinity false, _ => true
  | _, Infinity false => false
  | Infinity true, _ => false
  | Finite _, Infinity true => true
  | Finite a, Finite b =>
      match Qcompare a b with Gt => true | _ => false end
  end.

(** [x - y], up to the rounding of the difference of two finite doubles,
    which changes neither its sign nor whether it is zero. *)
Definition sub (x y : number) : number :=
  match x, y with
  | NaN, _ | _, NaN => NaN
  | Infinity a, Infinity b => if Bool.eqb a b then NaN else Infinity a
  | Infinity a, Finite _ => Infinity a
  | Finite _, Infinity b => Infinity (negb b)
  | Finite a, Finite b => Finite (a - b)%Q
  end.

(** The sign of a comparator result as [Array.prototype.sort] reads it:
    NaN counts as zero. *)
Definition sort_sign (x : number) : Z :=
  match x with
  | NaN => 0
  | Infinity true => -1
  | Infinity false => 1
  | Finite q =>
      match Qcompare q 0%Q with Lt => -1 | Eq => 0 | Gt => 1 end
  end.

(** Truthiness: zero and NaN are falsy. *)
Definition truthy (x : number) : bool :=
  match x with
  | NaN => false
  | Infinity _ => true
  | Finite q => negb (Qeq_bool q 0%Q)
  end.

End Num.

(** ** JavaScript values *)

Inductive JsValue : Type :=
| VUndefined
| VNull
| VBool (b : bool)
| VNumber (n : number)
| VBigInt (z : Z)
| VString (s : jsstring)
| VArray (elems : list JsValue)
| VObject (fields : list (string * JsValue)).

(** [Record<string, unknown>]: the properties of an object. *)
Abbreviation RawItem := (list (string * JsValue)).

(** Thrown values. *)
Inductive JsError : Type :=
| Error (message : jsstring)
| TypeError (message : jsstring)
| ServiceError (service : string) (message : jsstring).

(** A computation that returns or throws before it touches the outside. *)
Inductive Result (A : Type) : Type :=
| Returns (a : A)
| Throws (e : JsError).
Arguments Returns {A} a.
Arguments Throws {A} e.

Definition rbind {A B} (r : Result A) (f : A -> Result B) : Result B :=
  match r with
  | Returns a => f a
  | Throws e => Throws e
  end.

Fixpoint rmap {A B} (f : A -> Result B) (l : list A) : Result (list B) :=
  match l with
  | [] => Returns []
  | a :: l' =>
      rbind (f a) (fun b => rbind (rmap f l') (fun bs => Returns (b :: bs)))
  end.

Module Val.

Fixpoint lookup_field (k : string) (fs : RawItem) : JsValue :=
  match fs with
  | [] => VUndefined
  | (k', v) :: fs' => if String.eqb k k' then v else lookup_field k fs'
  end.

(** [item.k] on an object known to be one. *)
Definition field (item : RawItem) (k : string) : JsValue :=
  lookup_field k item.

(** [v.k] for a property name that no prototype defines (the names read
    by the code are [x], [y], [name], [displayName], [confidence],
    [score], [detectionIndex], [boundingPoly]): reading it from
    [undefined] or [null] throws a TypeError, from an object it looks the
    name up, from anything else it gives [undefined]. *)
Definition get (v : JsValue) (k : string) : Result JsValue :=
  match v with
  | VUndefined | VNull =>
      Throws (TypeError (js "Cannot read properties of undefined or null"))
  | VObject fs => Returns (lookup_field k fs)
  | _ => Returns VUndefined
  end.

(** [v[i]] for an index: the element of an array, the unit of a string,
    the property named by the index of an object. *)
Definition get_index (v : JsValue) (i : nat) : Result JsValue :=
  match v with
  | VUndefined | VNull =>
      Throws (TypeError (js "Cannot read properties of undefined or null"))
  | VArray l => Returns (List.nth i l VUndefined)
  | VString s =>
      Returns (match List.nth_error s i with
               | Some u => VString [u]
               | None => VUndefined
               end)
  | VObject fs =>
      Returns (lookup_field (NilEmpty.string_of_uint (Nat.to_uint i)) fs)
  | _ => Returns VUndefined
  end.

(** [a ?? b]. *)
Definition nullish (v : JsValue) : bool :=
  match v with VUndefined | VNull => true | _ => false end.

Definition coalesce (a b : JsValue) : JsValue :=
  if nullish a then b else a.

End Val.

(** ** The engine's built-ins

    Functions of the JavaScript engine that the code calls and whose tables
    (Unicode case mapping, Number formatting, date parsing, collation) are
    not part of the repository. *)
Class Runtime : Type := {
  (** [String.prototype.toLowerCase] *)
  String_toLowerCase : jsstring -> jsstring;
  (** [Number.prototype.toString] *)
  Number_toString : number -> jsstring;
  (** [BigInt.prototype.toString] *)
  BigInt_toString : Z -> jsstring;
  (** [Number(v)] *)
  ToNumber : JsValue -> number;
  (** [new Date(s).getTime()] *)
  Date_getTime : jsstring -> number;
  (** [a.localeCompare(b)] *)
  String_localeCompare : jsstring -> jsstring -> number;
  (** [Array.prototype.sort] with a comparator *)
  Array_sort : forall A : Type, (A -> A -> number) -> list A -> list A
}.
Arguments Array_sort {_ A} cmp l.

(** A comparator is consistent on a list when, on the elements of the
    list, it never answers NaN, it is antisymmetric in sign, and its "not
    after" relation is transitive: the condition under which ECMAScript
    fixes what [sort] does (otherwise the order is left to the engine). *)
Definition consistent_comparator {A} (cmp : A -> A -> number) (l : list A)
  : Prop :=
  (forall a b, In a l -> In b l -> cmp a b <> NaN) /\
  (forall a b, In a l -> In b l ->
     Num.sort_sign (cmp a b) = - Num.sort_sign (cmp b a)) /\
  (forall a b c, In a l -> In b l -> In c l ->
     Num.sort_sign (cmp a b) <= 0 -> Num.sort_sign (cmp b c) <= 0 ->
     Num.sort_sign (cmp a c) <= 0).

(** What the language guarantees about the built-ins and the proofs use. *)
Record RuntimeLaws (rt : Runtime) : Prop := {
  (** lower-casing leaves [a-z], [0-9] and the dash alone *)
  toLowerCase_slug :
    forall s,
      Forall (fun u => Str.is_lower_alnum u = true \/ u = Str.dash) s ->
      String_toLowerCase s = s;
  (** [sort] permutes its argument *)
  sort_permutation :
    forall A (cmp : A -> A -> number) l, Permutation (Array_sort cmp l) l;
  (** under a consistent comparator no element is placed after one it
      should precede *)
  sort_sorted :
    forall A (cmp : A -> A -> number) l,
      consistent_comparator cmp l ->
      StronglySorted (fun a b => Num.sort_sign (cmp a b) <= 0)
        (Array_sort cmp l)
}.

(** ** The services outside the program *)

(** Commands of the DynamoDB document client.  The client offers all of
    them; which ones the program sends is what the code decides. *)
Inductive WriteRequest : Type :=
| PutRequest (item : RawItem)
| DeleteRequest (key : RawItem).

Inductive Command : Type :=
| ScanCommand (table : jsstring)
| QueryCommand (table : jsstring) (keyName : string) (keyValue : jsstring)
| BatchGetCommand (table : jsstring) (keys : list RawItem)
| PutCommand (table : jsstring) (item : RawItem)
| UpdateCommand (table : jsstring) (key : RawItem)
    (updateExpression : string) (values : RawItem)
    (names : list (string * string))
| BatchWriteCommand (table : jsstring) (requests : list WriteRequest)
| DeleteCommand (table : jsstring) (key : RawItem).

(** The fields of a DynamoDB response that the code reads. *)
Record DynamoOutput : Type := {
  Items : option (list RawItem);
  Responses : option (list (jsstring * list RawItem));
  UnprocessedItems : option (list (jsstring * list WriteRequest))
}.

(** [record?.[table]] *)
Fixpoint table_entry {V} (table : jsstring) (r : list (jsstring * V))
  : option V :=
  match r with
  | [] => None
  | (t, v) :: r' => if decide (t = table) then Some v else table_entry table r'
  end.

Definition bytes : Type := list N.

(** The shapes of an S3 object body that [asBuffer] tells apart. *)
Inductive S3Body : Type :=
| BodyBuffer (content : bytes)
| BodyUint8Array (content : bytes)
| BodyTransformable (transformed : Result bytes)
| BodyReadable (read : Result bytes).

Record S3Object : Type := { Key : option jsstring }.

Record ListObjectsV2Output : Type := {
  Contents : option (list S3Object);
  NextContinuationToken : option jsstring
}.

Record GetObjectOutput : Type := { Body : option S3Body }.

Record Vertex : Type := { vertex_x : option number; vertex_y : option number }.

(** A logo annotation of the Vision API; [None] stands for a field that is
    [null] or [undefined]. *)
Record Annotation : Type := {
  description : option jsstring;
  score : option number;
  vertices : option (list (option Vertex))
}.

Record AnnotateImageResponse : Type := {
  logoAnnotations : option (list Annotation)
}.

Inductive LogLevel : Type := LogInfo | LogLog | LogWarn | LogError | LogTable.

(** What the program did to the outside, oldest first. *)
Inductive Event : Type :=
| Sent (cmd : Command)
| Listed (token : option jsstring)
| Fetched (key : jsstring)
| Annotated (image : bytes)
| ClockRead
| Logged (level : LogLevel) (message : jsstring) (error : option JsError).

Abbreviation History := (list Event).

(** The outside answers each request from the history so far, so two equal
    requests may get different answers. *)
Record World : Type := {
  dynamo_send : History -> Command -> Result DynamoOutput;
  s3_list : History -> option jsstring -> Result ListObjectsV2Output;
  s3_get : History -> jsstring -> Result GetObjectOutput;
  vision_logoDetection : History -> bytes -> Result AnnotateImageResponse;
  (** [new Date().toISOString()] *)
  clock_now : History -> jsstring
}.

(** ** Asynchronous computations *)

(** An [async] function run to its end: it returns, throws, or is still
    running when the bound on loop iterations is used up. *)
Inductive Outcome (A : Type) : Type :=
| Done (a : A)
| Raised (e : JsError)
| Unfinished.
Arguments Done {A} a.
Arguments Raised {A} e.
Arguments Unfinished {A}.

Definition Task (A : Type) : Type := History -> Outcome A * History.

Module Task.

Definition ret {A} (a : A) : Task A := fun h => (Done a, h).

Definition bind {A B} (m : Task A) (f : A -> Task B) : Task B :=
  fun h =>
    match m h with
    | (Done a, h') => f a h'
    | (Raised e, h') => (Raised e, h')
    | (Unfinished, h') => (Unfinished, h')
    end.

Definition throw {A} (e : JsError) : Task A := fun h => (Raised e, h).

Definition unfinished {A} : Task A := fun h => (Unfinished, h).

(** [try { m } catch (error) { handler error }] *)
Definition try_catch {A} (m : Task A) (handler : JsError -> Task A)
  : Task A :=
  fun h =>
    match m h with
    | (Raised e, h') => handler e h'
    | r => r
    end.

Definition lift {A} (r : Result A) : Task A :=
  match r with
  | Returns a => ret a
  | Throws e => throw e
  end.

(** A request: the event is recorded, the answer is the one the world
    gives for the history before the request. *)
Definition request {A} (ev : Event) (answer : History -> Result A)
  : Task A :=
  fun h =>
    match answer h with
    | Returns a => (Done a, h ++ [ev])
    | Throws e => (Raised e, h ++ [ev])
    end.

Definition emit (ev : Event) : Task unit := fun h => (Done tt, h ++ [ev]).

(** [for (const x of l) { body x }] *)
Fixpoint for_each {A} (l : list A) (body : A -> Task unit) : Task unit :=
  match l with
  | [] => ret tt
  | x :: l' => bind (body x) (fun _ => for_each l' body)
  end.

End Task.

Notation "x <- m ;; k" := (Task.bind m (fun x => k))
  (at level 100, m at next level, right associativity).
Notation "m ;;; k" := (Task.bind m (fun _ => k))
  (at level 100, right associativity).

Section Services.
Context (w : World).

Definition send (cmd : Command) : Task DynamoOutput :=
  Task.request (Sent cmd) (fun h => dynamo_send w h cmd).

Definition listObjects (token : option jsstring) : Task ListObjectsV2Output :=
  Task.request (Listed token) (fun h => s3_list w h token).

Definition getObject (key : jsstring) : Task GetObjectOutput :=
  Task.request (Fetched key) (fun h => s3_get w h key).

Definition logoDetection (image : bytes) : Task AnnotateImageResponse :=
  Task.request (Annotated image) (fun h => vision_logoDetection w h image).

Definition now : Task jsstring :=
  fun h => (Done (clock_now w h), h ++ [ClockRead]).

End Services.

Definition console (level : LogLevel) (message : jsstring)
  (error : option JsError) : Task unit :=
  Task.emit (Logged level message error).

(** ** Environment variables *)

Record Env : Type := {
  (** three-table repository and ingestion *)
  DYNAMO_PHOTOS_TABLE : option jsstring;
  DYNAMO_PHOTO_LOGOS_TABLE : option jsstring;
  DYNAMO_LOGO_SUMMARIES_TABLE : option jsstring;
  (** single-table repository, through [getTableName] *)
  DYNAMO_TABLE_PHOTOS : option jsstring;
  DYNAMO_TABLE_LOGOS : option jsstring;
  DYNAMO_TABLE_PHOTO_LOGOS : option jsstring;
  (** single-table ingestion *)
  DYNAMO_TABLE : option jsstring;
  S3_PUBLIC_BASE_URL : option jsstring
}.

(** [v] when the variable is set to a non-empty string. *)
Definition configured (v : option jsstring) : option jsstring :=
  match v with
  | Some s => if Str.truthy s then Some s else None
  | None => None
  end.

(** ** [src/lib/dynamo.ts] *)

Module Dynamo.

Definition normalizeLogoName {rt : Runtime} (name : jsstring) : jsstring :=
  Str.strip_dashes
    (Str.replace_runs false (String_toLowerCase (Str.trim name))).

Inductive TableType : Type := photos | logos | photo_logos.

Definition envKey (t : TableType) : string :=
  match t with
  | photos => "DYNAMO_TABLE_PHOTOS"
  | logos => "DYNAMO_TABLE_LOGOS"
  | photo_logos => "DYNAMO_TABLE_PHOTO_LOGOS"
  end.

Definition getTableName (env : Env) (t : TableType) : Result jsstring :=
  let table :=
    match t with
    | photos => DYNAMO_TABLE_PHOTOS env
    | logos => DYNAMO_TABLE_LOGOS env
    | photo_logos => DYNAMO_TABLE_PHOTO_LOGOS env
    end in
  match configured table with
  | Some name => Returns name
  | None => Throws (Error (js (envKey t) ++ js " env var is required."))
  end.

Definition resolvePublicUrl (env : Env) (publicUrl s3Key : option jsstring)
  : option jsstring :=
  match configured publicUrl with
  | Some url => Some url
  | None =>
      match configured s3Key with
      | None => None
      | Some key =>
          match configured (S3_PUBLIC_BASE_URL env) with
          | None => None
          | Some base =>
              Some (Str.strip_trailing_slash base ++ js "/" ++ key)
          end
      end
  end.

End Dynamo.

(** ** The repositories: what both share *)

Module LogoDetection.
Record t : Type := {
  name : jsstring;
  slug : jsstring;
  confidence : number;
  boundingPoly : option (list (number * number));
  detectionIndex : option number
}.
End LogoDetection.

Module PhotoRecord.
Record t : Type := {
  id : jsstring;
  imageUrl : option jsstring;
  s3Key : option jsstring;
  logos : list LogoDetection.t;
  createdAt : option jsstring;
  matchConfidence : option number
}.

Definition with_logos (p : t) (l : list LogoDetection.t) : t :=
  {| id := id p; imageUrl := imageUrl p; s3Key := s3Key p; logos := l;
     createdAt := createdAt p; matchConfidence := matchConfidence p |}.

Definition with_matchConfidence (p : t) (c : number) : t :=
  {| id := id p; imageUrl := imageUrl p; s3Key := s3Key p;
     logos := logos p; createdAt := createdAt p;
     matchConfidence := Some c |}.
End PhotoRecord.

(** [new Map(entries)]: a later entry replaces an earlier one with its key. *)
Definition Map_of_entries {V} (entries : list (jsstring * V))
  : gmap jsstring V :=
  List.fold_left (fun m e => <[e.1 := e.2]> m) entries ∅.

(** [array.includes(x)] on strings. *)
Definition includes (x : jsstring) (l : list jsstring) : bool :=
  bool_decide (x ∈ l).

Module Repo.
Section WithRuntime.
Context {rt : Runtime}.

Definition asString (value : JsValue) : option jsstring :=
  match value with
  | VString s => Some s
  | VNumber n => Some (Number_toString n)
  | VBigInt z => Some (BigInt_toString z)
  | _ => None
  end.

Definition asNumber (value : JsValue) : option number :=
  let num := match value with VNumber n => n | _ => ToNumber value end in
  if Num.isFinite num then Some num else None.

(** [asNumber(v) ?? 0] *)
Definition asNumber_or_zero (value : JsValue) : number :=
  default Num.zero (asNumber value).

(** The comparator both [fetchAllPhotos] pass to [sort]. *)
Definition comparePhotos (a b : PhotoRecord.t) : number :=
  match PhotoRecord.createdAt a, PhotoRecord.createdAt b with
  | Some ca, Some cb =>
      if Str.truthy ca && Str.truthy cb
      then Num.sub (Date_getTime cb) (Date_getTime ca)
      else String_localeCompare (PhotoRecord.id a) (PhotoRecord.id b)
  | _, _ => String_localeCompare (PhotoRecord.id a) (PhotoRecord.id b)
  end.

(** One turn of the loop over the mapping items in [fetchPhotosByLogo],
    once the photo id of the item is known: the id joins
    [uniquePhotoIds] unless it is there, and the confidence replaces the
    recorded one when it is finite and greater. *)
Definition track (photoId : jsstring) (confidence : option number)
  (st : list jsstring * gmap jsstring number)
  : list jsstring * gmap jsstring number :=
  let '(uniquePhotoIds, photoIdConfidences) := st in
  let uniquePhotoIds' :=
    if includes photoId uniquePhotoIds then uniquePhotoIds
    else uniquePhotoIds ++ [photoId] in
  let photoIdConfidences' :=
    match confidence with
    | None => photoIdConfidences
    | Some c =>
        match photoIdConfidences !! photoId with
        | None => <[photoId := c]> photoIdConfidences
        | Some existing =>
            if Num.gt c existing then <[photoId := c]> photoIdConfidences
            else photoIdConfidences
        end
    end in
  (uniquePhotoIds', photoIdConfidences').

(** The last two statements of [fetchPhotosByLogo]: the photos found for
    the ids, in the order of the ids, each with its match confidence. *)
Definition assemble (uniquePhotoIds : list jsstring)
  (photoMap : gmap jsstring PhotoRecord.t)
  (logosOf : jsstring -> PhotoRecord.t -> list LogoDetection.t)
  (photoIdConfidences : gmap jsstring number) : list PhotoRecord.t :=
  omap (fun photoId =>
          match photoMap !! photoId with
          | None => None
          | Some photo =>
              let cloned :=
                PhotoRecord.with_logos photo (logosOf photoId photo) in
              Some match photoIdConfidences !! photoId with
                   | Some c => PhotoRecord.with_matchConfidence cloned c
                   | None => cloned
                   end
          end)
       uniquePhotoIds.

End WithRuntime.
End Repo.

(** ** The three-table repository *)

Module Decoupled.

Module LogoSummary.
Record t : Type := {
  slug : jsstring;
  name : jsstring;
  totalPhotos : number;
  topConfidence : option number
}.
End LogoSummary.

Section WithRuntime.
Context {rt : Runtime} (env : Env) (w : World).

Definition mapPhotoItem (item : RawItem) : PhotoRecord.t :=
  let photoId := default [] (Repo.asString (Val.field item "photoId")) in
  let s3Key := Repo.asString (Val.field item "s3Key") in
  let publicUrl := Repo.asString (Val.field item "publicUrl") in
  {| PhotoRecord.id := photoId;
     PhotoRecord.imageUrl := Dynamo.resolvePublicUrl env publicUrl s3Key;
     PhotoRecord.s3Key := s3Key;
     PhotoRecord.logos := [];
     PhotoRecord.createdAt := Repo.asString (Val.field item "createdAt");
     PhotoRecord.matchConfidence := None |}.

(** [{ x: asNumber(point.x) ?? 0, y: asNumber(point.y) ?? 0 }] *)
Definition mapPoint (point : JsValue) : Result (number * number) :=
  rbind (Val.get point "x") (fun px =>
  rbind (Val.get point "y") (fun py =>
  Returns (Repo.asNumber_or_zero px, Repo.asNumber_or_zero py))).

Definition mapLogoMapping (item : RawItem) : Result LogoDetection.t :=
  let name := default [] (Repo.asString (Val.field item "logoName")) in
  let slug :=
    default (Dynamo.normalizeLogoName name)
      (Repo.asString (Val.field item "logoSlug")) in
  let confidence := Repo.asNumber_or_zero (Val.field item "confidence") in
  let detectionIndex := Repo.asNumber (Val.field item "detectionIndex") in
  rbind
    match Val.field item "boundingPoly" with
    | VArray points => rbind (rmap mapPoint points) (fun l => Returns (Some l))
    | _ => Returns None
    end
    (fun boundingPoly =>
       Returns {| LogoDetection.name := name;
                  LogoDetection.slug := slug;
                  LogoDetection.confidence := confidence;
                  LogoDetection.boundingPoly := boundingPoly;
                  LogoDetection.detectionIndex := detectionIndex |}).

Definition mapLogoSummary (item : RawItem) : LogoSummary.t :=
  let slug := default [] (Repo.asString (Val.field item "logoSlug")) in
  let name := default slug (Repo.asString (Val.field item "displayName")) in
  let total := Val.coalesce (Val.field item "totalPhotos")
                 (VNumber Num.zero) in
  {| LogoSummary.slug := slug;
     LogoSummary.name := name;
     LogoSummary.totalPhotos :=
       match total with VNumber n => n | v => ToNumber v end;
     LogoSummary.topConfidence :=
       Repo.asNumber (Val.field item "topConfidence") |}.

(** [photoMap.get(photoId)], then [photo.logos.push(detection)].  The map
    holds, for each id, the last photo of the array with that id, and the
    array holds the same object: the push shows in the array. *)
Fixpoint last_with_id (photoId : jsstring) (photos : list PhotoRecord.t)
  : option nat :=
  match photos with
  | [] => None
  | p :: rest =>
      match last_with_id photoId rest with
      | Some i => Some (S i)
      | None =>
          if decide (PhotoRecord.id p = photoId) then Some 0%nat else None
      end
  end.

Definition push_logo (i : nat) (detection : LogoDetection.t)
  (photos : list PhotoRecord.t) : list PhotoRecord.t :=
  alter (fun p => PhotoRecord.with_logos p (PhotoRecord.logos p ++ [detection]))
    i photos.

(** The loop "Group logos by photoId". *)
Fixpoint group_logos (mappingItems : list RawItem)
  (photos : list PhotoRecord.t) : Result (list PhotoRecord.t) :=
  match mappingItems with
  | [] => Returns photos
  | item :: rest =>
      match configured (Repo.asString (Val.field item "photoId")) with
      | None => group_logos rest photos
      | Some photoId =>
          match last_with_id photoId photos with
          | None => group_logos rest photos
          | Some i =>
              rbind (mapLogoMapping item) (fun detection =>
              group_logos rest (push_logo i detection photos))
          end
      end
  end.

Definition require (v : option jsstring) (message : string)
  : Task jsstring :=
  match configured v with
  | Some table => Task.ret table
  | None => Task.throw (Error (js message))
  end.

Definition fetchAllPhotos : Task (list PhotoRecord.t) :=
  PHOTOS_TABLE <-
    require (DYNAMO_PHOTOS_TABLE env) "DYNAMO_PHOTOS_TABLE not configured" ;;
  PHOTO_LOGOS_TABLE <-
    require (DYNAMO_PHOTO_LOGOS_TABLE env)
      "DYNAMO_PHOTO_LOGOS_TABLE not configured" ;;
  scanned <- send w (ScanCommand PHOTOS_TABLE) ;;
  match Items scanned with
  | None | Some [] => Task.ret []
  | Some photoItems =>
      let photos := List.map mapPhotoItem photoItems in
      scanned' <- send w (ScanCommand PHOTO_LOGOS_TABLE) ;;
      photos' <-
        Task.lift (group_logos (default [] (Items scanned')) photos) ;;
      Task.ret (Array_sort Repo.comparePhotos photos')
  end.

Definition compareLogos (a b : LogoSummary.t) : number :=
  let d := Num.sub (LogoSummary.totalPhotos b) (LogoSummary.totalPhotos a) in
  if Num.truthy d then d
  else String_localeCompare (LogoSummary.name a) (LogoSummary.name b).

Definition fetchAllLogos : Task (list LogoSummary.t) :=
  LOGO_SUMMARIES_TABLE <-
    require (DYNAMO_LOGO_SUMMARIES_TABLE env)
      "DYNAMO_LOGO_SUMMARIES_TABLE not configured" ;;
  scanned <- send w (ScanCommand LOGO_SUMMARIES_TABLE) ;;
  let logos := List.map mapLogoSummary (default [] (Items scanned)) in
  Task.ret (Array_sort compareLogos logos).

(** The loop "Extract unique photoIds and track confidence". *)
Definition collect_step (st : list jsstring * gmap jsstring number)
  (item : RawItem) : list jsstring * gmap jsstring number :=
  match configured (Repo.asString (Val.field item "photoId")) with
  | None => st
  | Some photoId =>
      Repo.track photoId (Repo.asNumber (Val.field item "confidence")) st
  end.

Definition collect (mappingItems : list RawItem)
  : list jsstring * gmap jsstring number :=
  List.fold_left collect_step mappingItems ([], ∅).

(** The entries of [photoMap]: the items of the batch response that carry
    a photo id. *)
Definition photo_entries (photoItems : list RawItem)
  : list (jsstring * PhotoRecord.t) :=
  omap (fun item =>
          match configured (Repo.asString (Val.field item "photoId")) with
          | None => None
          | Some photoId => Some (photoId, mapPhotoItem item)
          end)
       photoItems.

(** [mappingItems.filter(...).map(mapLogoMapping)] for one photo id. *)
Definition logosForPhoto (mappingItems : list RawItem) (photoId : jsstring)
  : Result (list LogoDetection.t) :=
  rmap mapLogoMapping
    (List.filter
       (fun item =>
          bool_decide
            (Repo.asString (Val.field item "photoId") = Some photoId))
       mappingItems).

(** The loop that fills [photoLogosMap]. *)
Fixpoint photoLogos (mappingItems : list RawItem)
  (uniquePhotoIds : list jsstring)
  (photoLogosMap : gmap jsstring (list LogoDetection.t))
  : Result (gmap jsstring (list LogoDetection.t)) :=
  match uniquePhotoIds with
  | [] => Returns photoLogosMap
  | photoId :: rest =>
      rbind (logosForPhoto mappingItems photoId) (fun l =>
      photoLogos mappingItems rest (<[photoId := l]> photoLogosMap))
  end.

Definition fetchPhotosByLogo (logoNameOrSlug : jsstring)
  : Task (list PhotoRecord.t) :=
  PHOTOS_TABLE <-
    require (DYNAMO_PHOTOS_TABLE env) "DYNAMO_PHOTOS_TABLE not configured" ;;
  PHOTO_LOGOS_TABLE <-
    require (DYNAMO_PHOTO_LOGOS_TABLE env)
      "DYNAMO_PHOTO_LOGOS_TABLE not configured" ;;
  let slug := Dynamo.normalizeLogoName logoNameOrSlug in
  queried <- send w (QueryCommand PHOTO_LOGOS_TABLE "logoSlug" slug) ;;
  match Items queried with
  | None | Some [] => Task.ret []
  | Some mappingItems =>
      let '(uniquePhotoIds, photoIdConfidences) := collect mappingItems in
      match uniquePhotoIds with
      | [] => Task.ret []
      | _ =>
          batchResponse <-
            send w (BatchGetCommand PHOTOS_TABLE
                      (List.map (fun photoId => [("photoId", VString photoId)])
                         uniquePhotoIds)) ;;
          let photoItems :=
            default []
              (Responses batchResponse ≫= table_entry PHOTOS_TABLE) in
          let photoMap := Map_of_entries (photo_entries photoItems) in
          photoLogosMap <-
            Task.lift (photoLogos mappingItems uniquePhotoIds ∅) ;;
          Task.ret
            (Repo.assemble uniquePhotoIds photoMap
               (fun photoId _ => default [] (photoLogosMap !! photoId))
               photoIdConfidences)
      end
  end.

End WithRuntime.
End Decoupled.

(** ** The single-table repository *)

Module SingleTable.

Module LogoSummary.
Record t : Type := {
  slug : jsstring;
  name : jsstring;
  totalPhotos : number;
  topConfidence : option number;
  firstPhotoId : option jsstring;
  firstPhotoUrl : option jsstring;
  firstDetectionBounds : option (list (number * number))
}.
End LogoSummary.

Definition PHOTO_PARTITION_KEY : jsstring := js "PHOTO".
Definition LOGO_PARTITION_KEY : jsstring := js "LOGO".

Section WithRuntime.
Context {rt : Runtime} (env : Env) (w : World).

(** [v.k ?? v[i]] *)
Definition get_or_index (v : JsValue) (k : string) (i : nat)
  : Result JsValue :=
  rbind (Val.get v k) (fun a =>
  if Val.nullish a then Val.get_index v i else Returns a).

(** [{ x: asNumber(point.x ?? point[0]) ?? 0,
       y: asNumber(point.y ?? point[1]) ?? 0 }] *)
Definition mapDetectionPoint (point : JsValue) : Result (number * number) :=
  rbind (get_or_index point "x" 0) (fun px =>
  rbind (get_or_index point "y" 1) (fun py =>
  Returns (Repo.asNumber_or_zero px, Repo.asNumber_or_zero py))).

(** The callback mapped over [item.detections]; [None] is its [null]. *)
Definition mapDetection (logo : JsValue) : Result (option LogoDetection.t) :=
  rbind (Val.get logo "name") (fun vname =>
  rbind (Val.get logo "displayName") (fun vdisplay =>
  let name :=
    default (default [] (Repo.asString vdisplay)) (Repo.asString vname) in
  if negb (Str.truthy name) then Returns None
  else
    rbind (Val.get logo "confidence") (fun vconf =>
    rbind (Val.get logo "score") (fun vscore =>
    rbind (Val.get logo "detectionIndex") (fun vindex =>
    rbind (Val.get logo "boundingPoly") (fun vpoly =>
    rbind
      match vpoly with
      | VArray points =>
          rbind (rmap mapDetectionPoint points) (fun l => Returns (Some l))
      | _ => Returns None
      end
      (fun boundingPoly =>
         Returns
           (Some {| LogoDetection.name := name;
                    LogoDetection.slug := Dynamo.normalizeLogoName name;
                    LogoDetection.confidence :=
                      Repo.asNumber_or_zero (Val.coalesce vconf vscore);
                    LogoDetection.boundingPoly := boundingPoly;
                    LogoDetection.detectionIndex :=
                      Repo.asNumber vindex |})))))))).

Definition mapPhotoItem (item : RawItem) : Result PhotoRecord.t :=
  rbind
    match Val.field item "detections" with
    | VArray detections =>
        rbind (rmap mapDetection detections) (fun l =>
        Returns (omap (fun d => d) l))
    | _ => Returns []
    end
    (fun detectedLogos =>
       let s3Key := Repo.asString (Val.field item "s3Key") in
       let publicUrl := Repo.asString (Val.field item "publicUrl") in
       Returns
         {| PhotoRecord.id :=
              default (default [] (Repo.asString (Val.field item "photoId")))
                (Repo.asString (Val.field item "SK"));
            PhotoRecord.imageUrl :=
              Dynamo.resolvePublicUrl env publicUrl s3Key;
            PhotoRecord.s3Key := s3Key;
            PhotoRecord.logos := detectedLogos;
            PhotoRecord.createdAt :=
              Repo.asString (Val.field item "createdAt");
            PhotoRecord.matchConfidence := None |}).

Definition mapBoundsPoint (point : JsValue) : Result (number * number) :=
  rbind (Val.get point "x") (fun px =>
  rbind (Val.get point "y") (fun py =>
  Returns (Repo.asNumber_or_zero px, Repo.asNumber_or_zero py))).

Definition mapLogoSummary (item : RawItem) : Result LogoSummary.t :=
  let fallbackName := default [] (Repo.asString (Val.field item "SK")) in
  let name :=
    default fallbackName (Repo.asString (Val.field item "displayName")) in
  let slug :=
    Dynamo.normalizeLogoName
      (default name (Repo.asString (Val.field item "SK"))) in
  let total :=
    Val.coalesce (Val.field item "totalPhotos")
      (Val.coalesce (Val.field item "count") (VNumber Num.zero)) in
  rbind
    match Val.field item "firstDetectionBounds" with
    | VArray points =>
        rbind (rmap mapBoundsPoint points) (fun l => Returns (Some l))
    | _ => Returns None
    end
    (fun firstDetectionBounds =>
       Returns
         {| LogoSummary.slug := slug;
            LogoSummary.name := name;
            LogoSummary.totalPhotos :=
              match total with VNumber n => n | v => ToNumber v end;
            LogoSummary.topConfidence :=
              Repo.asNumber (Val.field item "topConfidence");
            LogoSummary.firstPhotoId :=
              Repo.asString (Val.field item "firstPhotoId");
            LogoSummary.firstPhotoUrl :=
              Repo.asString (Val.field item "firstPhotoUrl");
            LogoSummary.firstDetectionBounds := firstDetectionBounds |}).

Definition fetchAllPhotos : Task (list PhotoRecord.t) :=
  tableName <- Task.lift (Dynamo.getTableName env Dynamo.photos) ;;
  scanned <- send w (ScanCommand tableName) ;;
  photos <- Task.lift (rmap mapPhotoItem (default [] (Items scanned))) ;;
  Task.ret (Array_sort Repo.comparePhotos photos).

Definition compareLogos (a b : LogoSummary.t) : number :=
  let d := Num.sub (LogoSummary.totalPhotos b) (LogoSummary.totalPhotos a) in
  if Num.truthy d then d
  else String_localeCompare (LogoSummary.name a) (LogoSummary.name b).

Definition fetchAllLogos : Task (list LogoSummary.t) :=
  tableName <- Task.lift (Dynamo.getTableName env Dynamo.logos) ;;
  scanned <- send w (ScanCommand tableName) ;;
  logos <- Task.lift (rmap mapLogoSummary (default [] (Items scanned))) ;;
  Task.ret (Array_sort compareLogos logos).

(** The photo id of a mapping item:
    [asString(item.photoId) ?? (sortKey ? sortKey.split("#")[0] : undefined)],
    kept when it is a non-empty string. *)
Definition mapping_photoId (item : RawItem) : option jsstring :=
  let sortKey := Repo.asString (Val.field item "SK") in
  configured
    match Repo.asString (Val.field item "photoId") with
    | Some photoId => Some photoId
    | None =>
        match configured sortKey with
        | Some sk => Some (Str.before_hash sk)
        | None => None
        end
    end.

Definition collect_step (st : list jsstring * gmap jsstring number)
  (item : RawItem) : list jsstring * gmap jsstring number :=
  match mapping_photoId item with
  | None => st
  | Some photoId =>
      Repo.track photoId (Repo.asNumber (Val.field item "confidence")) st
  end.

Definition collect (mappings : list RawItem)
  : list jsstring * gmap jsstring number :=
  List.fold_left collect_step mappings ([], ∅).

(** The entries of [photoMap]: the items of the batch response that carry
    a sort key, mapped by [mapPhotoItem]. *)
Definition photo_entry (item : RawItem)
  : Result (option (jsstring * PhotoRecord.t)) :=
  match configured (Repo.asString (Val.field item "SK")) with
  | None => Returns None
  | Some sortKey =>
      rbind (mapPhotoItem item) (fun photo => Returns (Some (sortKey, photo)))
  end.

Definition photo_entries (photoItems : list RawItem)
  : Result (list (jsstring * PhotoRecord.t)) :=
  rbind (rmap photo_entry photoItems) (fun l => Returns (omap (fun e => e) l)).

Definition fetchPhotosByLogo (logoNameOrSlug : jsstring)
  : Task (list PhotoRecord.t) :=
  mappingTableName <- Task.lift (Dynamo.getTableName env Dynamo.photo_logos) ;;
  let slug := Dynamo.normalizeLogoName logoNameOrSlug in
  let partitionKey := js "LOGO#" ++ slug in
  queried <- send w (QueryCommand mappingTableName "PK" partitionKey) ;;
  let mappings := default [] (Items queried) in
  match mappings with
  | [] => Task.ret []
  | _ =>
      let '(uniquePhotoIds, photoIdConfidences) := collect mappings in
      match uniquePhotoIds with
      | [] => Task.ret []
      | _ =>
          photoTableName <- Task.lift (Dynamo.getTableName env Dynamo.photos) ;;
          batchResponse <-
            send w (BatchGetCommand photoTableName
                      (List.map
                         (fun photoId =>
                            [("PK", VString PHOTO_PARTITION_KEY);
                             ("SK", VString photoId)])
                         uniquePhotoIds)) ;;
          let photoItems :=
            default []
              (Responses batchResponse ≫= table_entry photoTableName) in
          entries <- Task.lift (photo_entries photoItems) ;;
          let photoMap := Map_of_entries entries in
          Task.ret
            (Repo.assemble uniquePhotoIds photoMap
               (fun _ photo => PhotoRecord.logos photo)
               photoIdConfidences)
      end
  end.

End WithRuntime.
End SingleTable.

(** ** The API routes *)

Module Routes.

(** The JSON bodies the three routes answer with; [L] is the repository's
    type of logo summaries. *)
Inductive Body (L : Type) : Type :=
| PhotosBody (photos : list PhotoRecord.t)
| LogosBody (logos : list L)
| LogoPhotosBody (logo : jsstring) (photos : list PhotoRecord.t)
| ErrorBody (error : jsstring).
Arguments PhotosBody {L} photos.
Arguments LogosBody {L} logos.
Arguments LogoPhotosBody {L} logo photos.
Arguments ErrorBody {L} error.

Record NextResponse (L : Type) : Type := {
  status : nat;
  body : Body L
}.
Arguments status {L} _.
Arguments body {L} _.

(** [NextResponse.json(data)] and [NextResponse.json(data, { status })]. *)
Definition json {L} (data : Body L) (init : option nat) : NextResponse L :=
  {| status := default 200%nat init; body := data |}.

Section WithRepository.
Context {rt : Runtime} {L : Type}.
(** The functions the routes import from the repository. *)
Context (fetchAllPhotos : Task (list PhotoRecord.t))
        (fetchAllLogos : Task (list L))
        (fetchPhotosByLogo : jsstring -> Task (list PhotoRecord.t)).

(** [src/app/api/photos/route.ts] *)
Definition GET_photos : Task (NextResponse L) :=
  Task.try_catch
    (photos <- fetchAllPhotos ;;
     Task.ret (json (PhotosBody photos) None))
    (fun error =>
       console LogError (js "Failed to load photos") (Some error) ;;;
       Task.ret (json (ErrorBody (js "Unable to load photos")) (Some 500%nat))).

(** [src/app/api/logos/route.ts] *)
Definition GET_logos : Task (NextResponse L) :=
  Task.try_catch
    (logos <- fetchAllLogos ;;
     Task.ret (json (LogosBody logos) None))
    (fun error =>
       console LogError (js "Failed to load logos") (Some error) ;;;
       Task.ret (json (ErrorBody (js "Unable to load logos")) (Some 500%nat))).

(** The photos-by-logo route; [params] is [context.params], a promise of
    the [logoName] path parameter. *)
Definition GET_photos_by_logo (params : Task jsstring)
  : Task (NextResponse L) :=
  Task.try_catch
    (logoParam <- params ;;
     if negb (Str.truthy logoParam)
     then Task.ret (json (ErrorBody (js "Logo name is required"))
                      (Some 400%nat))
     else
       let normalized := Dynamo.normalizeLogoName logoParam in
       photos <- fetchPhotosByLogo normalized ;;
       Task.ret (json (LogoPhotosBody normalized photos) None))
    (fun error =>
       console LogError (js "Failed to load photos by logo") (Some error) ;;;
       Task.ret (json (ErrorBody (js "Unable to load photos for logo"))
                   (Some 500%nat))).

End WithRepository.
End Routes.

(** ** The ingestion scripts: what both share *)

Module Ingest.

Module LogoDetection.
Record t : Type := {
  name : jsstring;
  slug : jsstring;
  confidence : number;
  boundingPoly : option (list (number * number));
  detectionIndex : nat
}.
End LogoDetection.

(** The constants the scripts compute from the environment when they are
    loaded.  [INGEST_LIMIT] is taken to hold a natural number. *)
Record Config : Type := {
  S3_PREFIX : jsstring;
  MAX_ITEMS : nat;
  S3_PUBLIC_BASE_URL : option jsstring
}.

Definition default_prefix : jsstring := js "photos/".

(** [chunk(items, size)], for a positive [size]. *)
Fixpoint chunk_from {T} (fuel : nat) (items : list T) (size : nat)
  : list (list T) :=
  match fuel, items with
  | S fuel', _ :: _ =>
      List.firstn size items :: chunk_from fuel' (List.skipn size items) size
  | _, _ => []
  end.

Definition chunk {T} (items : list T) (size : nat) : list (list T) :=
  chunk_from (length items) items size.

(** An insertion-ordered [Map] keyed by strings. *)
Fixpoint Map_get {V} (k : jsstring) (m : list (jsstring * V)) : option V :=
  match m with
  | [] => None
  | (k', v) :: m' => if decide (k' = k) then Some v else Map_get k m'
  end.

Fixpoint Map_set {V} (k : jsstring) (v : V) (m : list (jsstring * V))
  : list (jsstring * V) :=
  match m with
  | [] => [(k, v)]
  | (k', v') :: m' =>
      if decide (k' = k) then (k', v) :: m' else (k', v') :: Map_set k v m'
  end.

Section WithRuntime.
Context {rt : Runtime} (cfg : Config) (w : World).

Definition publicBaseUrl : option jsstring :=
  option_map Str.strip_trailing_slash (S3_PUBLIC_BASE_URL cfg).

Definition keyToPhotoId (key : jsstring) : jsstring :=
  let trimmed := default key (Str.strip_prefix (S3_PREFIX cfg) key) in
  let withoutExt := Str.strip_extension trimmed in
  Str.sanitize withoutExt.

Definition buildPublicUrl (key : jsstring) : option jsstring :=
  match configured publicBaseUrl with
  | None => None
  | Some base => Some (base ++ js "/" ++ key)
  end.

(** The filter of [listPhotos]: the object has a key and the key does not
    end with a slash. *)
Definition accepted (key : jsstring) : bool :=
  Str.truthy key && negb (Str.ends_with_slash key).

Definition batch_keys (contents : list S3Object) : list jsstring :=
  omap (fun object =>
          match Key object with
          | Some key => if accepted key then Some key else None
          | None => None
          end)
       contents.

(** The [do ... while] of [listPhotos]; [fuel] bounds its iterations. *)
Fixpoint listPhotos_loop (fuel : nat) (keys : list jsstring)
  (continuationToken : option jsstring) : Task (list jsstring) :=
  match fuel with
  | O => Task.unfinished
  | S fuel' =>
      response <- listObjects w continuationToken ;;
      let batchKeys := batch_keys (default [] (Contents response)) in
      let keys' := keys ++ batchKeys in
      let continuationToken' := NextContinuationToken response in
      if (MAX_ITEMS cfg <=? length keys')%nat then Task.ret keys'
      else
        match configured continuationToken' with
        | Some _ => listPhotos_loop fuel' keys' continuationToken'
        | None => Task.ret keys'
        end
  end.

Definition listPhotos (fuel : nat) : Task (list jsstring) :=
  keys <- listPhotos_loop fuel [] None ;;
  Task.ret (List.firstn (MAX_ITEMS cfg) keys).

Definition asBuffer (stream : S3Body) : Result bytes :=
  match stream with
  | BodyBuffer b => Returns b
  | BodyUint8Array b => Returns b
  | BodyTransformable r => r
  | BodyReadable r => r
  end.

(** [vertices?.map((vertex) => ({ x: vertex?.x ?? 0, y: vertex?.y ?? 0 }))] *)
Definition mapVertex (vertex : option Vertex) : number * number :=
  (default Num.zero (vertex ≫= vertex_x),
   default Num.zero (vertex ≫= vertex_y)).

(** The callback of [annotations.filter(...).map(...)], with its log. *)
Definition detection_of (i : nat) (annotation : Annotation)
  : Task LogoDetection.t :=
  let name := default [] (description annotation) in
  console LogLog (Str.of_nat i ++ js " detected logo: " ++ name) None ;;;
  Task.ret
    {| LogoDetection.name := name;
       LogoDetection.slug := Dynamo.normalizeLogoName name;
       LogoDetection.confidence := default Num.zero (score annotation);
       LogoDetection.boundingPoly :=
         option_map (List.map mapVertex) (vertices annotation);
       LogoDetection.detectionIndex := i |}.

Fixpoint detections_from (i : nat) (annotations : list Annotation)
  : Task (list LogoDetection.t) :=
  match annotations with
  | [] => Task.ret []
  | annotation :: rest =>
      d <- detection_of i annotation ;;
      ds <- detections_from (S i) rest ;;
      Task.ret (d :: ds)
  end.

Definition has_description (annotation : Annotation) : bool :=
  match description annotation with
  | Some s => Str.truthy s
  | None => false
  end.

Definition detectLogosForKey (key : jsstring) : Task (list LogoDetection.t) :=
  getObjectResponse <- getObject w key ;;
  match Body getObjectResponse with
  | None =>
      Task.throw (Error (js "S3 object body missing for " ++ key))
  | Some body =>
      image <- Task.lift (asBuffer body) ;;
      result <- logoDetection w image ;;
      console LogTable [] None ;;;
      let annotations := default [] (logoAnnotations result) in
      console LogLog
        (js "Detected " ++ Str.of_nat (length annotations)
           ++ js " logos for " ++ key) None ;;;
      detections_from 0 (List.filter has_description annotations)
  end.

(** The [do ... while] of [writeMappingBatch]; [fuel] bounds its
    iterations. *)
Fixpoint writeMappingBatch_loop (fuel : nat) (tableName : jsstring)
  (requestItems : list WriteRequest) : Task unit :=
  match fuel with
  | O => Task.unfinished
  | S fuel' =>
      response <- send w (BatchWriteCommand tableName requestItems) ;;
      let unprocessed :=
        default [] (UnprocessedItems response ≫= table_entry tableName) in
      match unprocessed with
      | [] => Task.ret tt
      | _ =>
          console LogWarn
            (js "Retrying " ++ Str.of_nat (length unprocessed)
               ++ js " unprocessed mapping writes...") None ;;;
          writeMappingBatch_loop fuel' tableName unprocessed
      end
  end.

Definition writeMappingBatch (fuel : nat) (batch : list WriteRequest)
  (tableName : jsstring) : Task unit :=
  match batch with
  | [] => Task.ret tt
  | _ => writeMappingBatch_loop fuel tableName batch
  end.

(** The loop that fills [slugSummaries]. *)
Definition summarize (logos : list LogoDetection.t)
  : list (jsstring * (number * jsstring)) :=
  List.fold_left
    (fun slugSummaries logo =>
       let entry :=
         (LogoDetection.confidence logo, LogoDetection.name logo) in
       match Map_get (LogoDetection.slug logo) slugSummaries with
       | None => Map_set (LogoDetection.slug logo) entry slugSummaries
       | Some current =>
           if Num.gt (LogoDetection.confidence logo) current.1
           then Map_set (LogoDetection.slug logo) entry slugSummaries
           else slugSummaries
       end)
    logos [].

Definition point_value (p : number * number) : JsValue :=
  VObject [("x", VNumber p.1); ("y", VNumber p.2)].

Definition optional_string (s : option jsstring) : JsValue :=
  match s with Some v => VString v | None => VUndefined end.

(** [`${photoId}#${detectionIndex.toString().padStart(4, "0")}`] *)
Definition mapping_sortKey (photoId : jsstring) (detectionIndex : nat)
  : jsstring :=
  photoId ++ [Str.hash] ++ Str.padStart4 (Str.of_nat detectionIndex).

(** One iteration of the loop of [main]. *)
Definition process
  (save : nat -> jsstring -> list LogoDetection.t -> Task unit)
  (fuel : nat) (key : jsstring) : Task unit :=
  console LogInfo (js "Processing " ++ key ++ js "...") None ;;;
  Task.try_catch
    (logos <- detectLogosForKey key ;;
     save fuel key logos ;;;
     console LogInfo
       (js "Stored " ++ Str.of_nat (length logos) ++ js " logos for " ++ key)
       None)
    (fun error =>
       console LogError (js "Failed to process " ++ key) (Some error)).

Definition main
  (save : nat -> jsstring -> list LogoDetection.t -> Task unit)
  (fuel : nat) : Task unit :=
  console LogInfo (js "Listing photos from S3...") None ;;;
  keys <- listPhotos fuel ;;
  console LogInfo
    (js "Found " ++ Str.of_nat (length keys) ++ js " objects to process.")
    None ;;;
  Task.for_each keys (process save fuel) ;;;
  console LogInfo (js "Ingestion complete.") None.

End WithRuntime.
End Ingest.

(** ** Three-table ingestion *)

Module IngestDecoupled.
Section WithRuntime.
Context {rt : Runtime} (cfg : Ingest.Config) (w : World).
(** The three table names, checked when the script is loaded. *)
Context (PHOTOS_TABLE PHOTO_LOGOS_TABLE LOGO_SUMMARIES_TABLE : jsstring).

Definition mapping_item (photoId now : jsstring)
  (logo : Ingest.LogoDetection.t) : RawItem :=
  [ ("logoSlug", VString (Ingest.LogoDetection.slug logo));
    ("sortKey",
     VString (Ingest.mapping_sortKey photoId
                (Ingest.LogoDetection.detectionIndex logo)));
    ("photoId", VString photoId);
    ("logoName", VString (Ingest.LogoDetection.name logo));
    ("confidence", VNumber (Ingest.LogoDetection.confidence logo));
    ("detectionIndex",
     VNumber (Num.of_nat (Ingest.LogoDetection.detectionIndex logo)));
    ("createdAt", VString now) ]
  ++ match Ingest.LogoDetection.boundingPoly logo with
     | Some poly =>
         [("boundingPoly", VArray (List.map Ingest.point_value poly))]
     | None => []
     end.

Definition summary_update (now : jsstring)
  (entry : jsstring * (number * jsstring)) : Command :=
  UpdateCommand LOGO_SUMMARIES_TABLE
    [("logoSlug", VString entry.1)]
    "SET displayName = if_not_exists(displayName, :name), topConfidence = if_not_exists(topConfidence, :confidence), firstDetectedAt = if_not_exists(firstDetectedAt, :now), lastDetectedAt = :now ADD totalPhotos :inc"
    [ (":name", VString entry.2.2);
      (":confidence", VNumber entry.2.1);
      (":now", VString now);
      (":inc", VNumber (Num.of_nat 1)) ]
    [].

Definition savePhotoDecoupled (fuel : nat) (key : jsstring)
  (logos : list Ingest.LogoDetection.t) : Task unit :=
  let photoId := Ingest.keyToPhotoId cfg key in
  let publicUrl := Ingest.buildPublicUrl cfg key in
  now <- now w ;;
  send w (PutCommand PHOTOS_TABLE
            [ ("photoId", VString photoId);
              ("s3Key", VString key);
              ("publicUrl", Ingest.optional_string publicUrl);
              ("createdAt", VString now);
              ("updatedAt", VString now) ]) ;;;
  match logos with
  | [] => Task.ret tt
  | _ =>
      let mappingWrites :=
        List.map (fun logo => PutRequest (mapping_item photoId now logo))
          logos in
      Task.for_each (Ingest.chunk mappingWrites 25)
        (fun batch => Ingest.writeMappingBatch w fuel batch PHOTO_LOGOS_TABLE) ;;;
      Task.for_each (Ingest.summarize logos)
        (fun entry => send w (summary_update now entry) ;;; Task.ret tt)
  end.

Definition main (fuel : nat) : Task unit :=
  Ingest.main cfg w savePhotoDecoupled fuel.

End WithRuntime.
End IngestDecoupled.

(** ** Single-table ingestion *)

Module IngestSingle.
Section WithRuntime.
Context {rt : Runtime} (cfg : Ingest.Config) (w : World).
(** The table name, checked when the script is loaded. *)
Context (tableName : jsstring).

Definition logo_value (logo : Ingest.LogoDetection.t) : JsValue :=
  VObject
    [ ("name", VString (Ingest.LogoDetection.name logo));
      ("slug", VString (Ingest.LogoDetection.slug logo));
      ("confidence", VNumber (Ingest.LogoDetection.confidence logo));
      ("boundingPoly",
       match Ingest.LogoDetection.boundingPoly logo with
       | Some poly => VArray (List.map Ingest.point_value poly)
       | None => VUndefined
       end);
      ("detectionIndex",
       VNumber (Num.of_nat (Ingest.LogoDetection.detectionIndex logo))) ].

Definition mapping_item (photoId : jsstring) (publicUrl : option jsstring)
  (logo : Ingest.LogoDetection.t) : RawItem :=
  [ ("PK", VString (js "LOGO#" ++ Ingest.LogoDetection.slug logo));
    ("SK",
     VString (Ingest.mapping_sortKey photoId
                (Ingest.LogoDetection.detectionIndex logo)));
    ("_type", VString (js "logo#photo"));
    ("photoId", VString photoId);
    ("confidence", VNumber (Ingest.LogoDetection.confidence logo));
    ("detectionIndex",
     VNumber (Num.of_nat (Ingest.LogoDetection.detectionIndex logo))) ]
  ++ match configured publicUrl with
     | Some url => [("publicUrl", VString url)]
     | None => []
     end.

Definition summary_update (entry : jsstring * (number * jsstring))
  : Command :=
  UpdateCommand tableName
    [("PK", VString (js "LOGO")); ("SK", VString entry.1)]
    "SET displayName = if_not_exists(displayName, :name), topConfidence = if_not_exists(topConfidence, :confidence) ADD #total :inc"
    [ (":name", VString entry.2.2);
      (":confidence", VNumber entry.2.1);
      (":inc", VNumber (Num.of_nat 1)) ]
    [("#total", "totalPhotos")].

Definition savePhoto (fuel : nat) (key : jsstring)
  (logos : list Ingest.LogoDetection.t) : Task unit :=
  let photoId := Ingest.keyToPhotoId cfg key in
  let publicUrl := Ingest.buildPublicUrl cfg key in
  now <- now w ;;
  send w (PutCommand tableName
            [ ("PK", VString (js "PHOTO"));
              ("SK", VString photoId);
              ("_type", VString (js "photo"));
              ("s3Key", VString key);
              ("publicUrl", Ingest.optional_string publicUrl);
              ("detectedLogos", VArray (List.map logo_value logos));
              ("createdAt", VString now) ]) ;;;
  match logos with
  | [] => Task.ret tt
  | _ =>
      let mappingWrites :=
        List.map (fun logo => PutRequest (mapping_item photoId publicUrl logo))
          logos in
      Task.for_each (Ingest.chunk mappingWrites 25)
        (fun batch => Ingest.writeMappingBatch w fuel batch tableName) ;;;
      Task.for_each (Ingest.summarize logos)
        (fun entry => send w (summary_update entry) ;;; Task.ret tt)
  end.

Definition main (fuel : nat) : Task unit :=
  Ingest.main cfg w savePhoto fuel.

End WithRuntime.
End IngestSingle.

(** ** What DynamoDB answers to a read *)

(** The items each table holds. *)
Definition Store : Type := jsstring -> list RawItem.

(** [key] names [item]: every attribute of the key has its value in the
    item. *)
Definition key_of (key item : RawItem) : Prop :=
  forall k v, In (k, v) key -> Val.field item k = v.

(** The contract of the read commands over a store: a scan returns items of
    the table, a query items of the table whose key attribute has the value
    asked for, a batch get items of the table named by one of the keys.
    (A response may hold fewer items than the table: reads are paged.) *)
Definition answers (store : Store) (cmd : Command) (out : DynamoOutput)
  : Prop :=
  match cmd with
  | ScanCommand table =>
      forall items item,
        Items out = Some items -> In item items -> In item (store table)
  | QueryCommand table keyName keyValue =>
      forall items item,
        Items out = Some items -> In item items ->
        In item (store table) /\ Val.field item keyName = VString keyValue
  | BatchGetCommand table keys =>
      forall items item,
        Responses out ≫= table_entry table = Some items -> In item items ->
        In item (store table) /\ exists key, In key keys /\ key_of key item
  | _ => True
  end.

Definition serves (w : World) (store : Store) : Prop :=
  forall h cmd out, dynamo_send w h cmd = Returns out -> answers store cmd out.

(** The contract of a batch write: what it reports as unprocessed is part of
    what was submitted. *)
Definition batch_write_contract (w : World) : Prop :=
  forall h table requests out rest r,
    dynamo_send w h (BatchWriteCommand table requests) = Returns out ->
    UnprocessedItems out ≫= table_entry table = Some rest ->
    In r rest -> In r requests.

(** ** Vocabulary of the properties *)

(** The elements of [l] that are not in [seen], each at its first
    occurrence. *)
Fixpoint first_occurrences_from (seen l : list jsstring) : list jsstring :=
  match l with
  | [] => []
  | x :: l' =>
      if includes x seen then first_occurrences_from seen l'
      else x :: first_occurrences_from (seen ++ [x]) l'
  end.

Definition first_occurrences (l : list jsstring) : list jsstring :=
  first_occurrences_from [] l.

(** [c] is a greatest element of [cs]: it is one of them and none of them
    is greater. *)
Definition max_among (cs : list number) (c : number) : Prop :=
  In c cs /\ forall c', In c' cs -> Num.gt c' c = false.

Section MappingItems.
Context {rt : Runtime}.

(** The photo id of a mapping item of the three-table design. *)
Definition decoupled_photoId (item : RawItem) : option jsstring :=
  configured (Repo.asString (Val.field item "photoId")).

(** The finite confidences that the mapping items record for a photo. *)
Definition confidences_for (photoId_of : RawItem -> option jsstring)
  (photoId : jsstring) (mappingItems : list RawItem) : list number :=
  omap (fun item =>
          if decide (photoId_of item = Some photoId)
          then Repo.asNumber (Val.field item "confidence")
          else None)
       mappingItems.

(** What [fetchPhotosByLogo] promises about the records it builds from
    the mapping items of the queried logo: one record per photo id, in
    the order in which the ids first occur, each record for an id that a
    mapping item carries, and a match confidence that is a greatest
    finite confidence of the id. *)
Record deduplicated (photoId_of : RawItem -> option jsstring)
  (mappingItems : list RawItem) (photos : list PhotoRecord.t) : Prop := {
  ids_distinct : NoDup (List.map PhotoRecord.id photos);
  ids_in_order :
    sublist (List.map PhotoRecord.id photos)
      (first_occurrences (omap photoId_of mappingItems));
  ids_mapped :
    forall p, In p photos ->
      exists item, In item mappingItems /\
                   photoId_of item = Some (PhotoRecord.id p);
  confidence_is_max :
    forall p c, In p photos -> PhotoRecord.matchConfidence p = Some c ->
      max_among (confidences_for photoId_of (PhotoRecord.id p) mappingItems) c;
  confidence_present :
    forall p, In p photos ->
      PhotoRecord.matchConfidence p = None ->
      confidences_for photoId_of (PhotoRecord.id p) mappingItems = []
}.

End MappingItems.

(** The loop over the mapping items, seen as a loop over the photo id and
    the finite confidence of each item that has a photo id. *)
Definition track_all {rt : Runtime} (kcs : list (jsstring * option number))
  (st : list jsstring * gmap jsstring number)
  : list jsstring * gmap jsstring number :=
  List.fold_left (fun st kc => Repo.track kc.1 kc.2 st) kcs st.

Definition confidences_of (photoId : jsstring)
  (kcs : list (jsstring * option number)) : list number :=
  omap (fun kc => if decide (kc.1 = photoId) then kc.2 else None) kcs.

Definition finite_option (oc : option number) : Prop :=
  forall c, oc = Some c -> Num.isFinite c = true.

(** The photo id and the finite confidence of each mapping item that has a
    photo id. *)
Definition tracked {rt : Runtime} (photoId_of : RawItem -> option jsstring)
  (mappingItems : list RawItem) : list (jsstring * option number) :=
  omap (fun item =>
          match photoId_of item with
          | Some photoId =>
              Some (photoId, Repo.asNumber (Val.field item "confidence"))
          | None => None
          end)
       mappingItems.

(** ** Vocabulary of the order of photos *)

Section PhotoOrder.
Context {rt : Runtime}.

(** The creation time of a record: the time value of its [createdAt],
    when it has one that is a date. *)
Definition creation_time (p : PhotoRecord.t) : option Q :=
  match PhotoRecord.createdAt p with
  | Some s =>
      if Str.truthy s
      then match Date_getTime s with Finite t => Some t | _ => None end
      else None
  | None => None
  end.

(** [p] has a creation time, [q] has one, and that of [p] is not the
    older of the two. *)
Definition not_older (p q : PhotoRecord.t) : Prop :=
  exists tp tq,
    creation_time p = Some tp /\ creation_time q = Some tq /\ (tq <= tp)%Q.

(** Sorted by creation time, newest first: in every pair of neighbours
    the first is not older than the second. *)
Definition newest_first (photos : list PhotoRecord.t) : Prop :=
  forall (i : nat) p q,
    photos !! i = Some p -> photos !! S i = Some q -> not_older p q.

(** An item whose [createdAt] is a non-empty string that is a date. *)
Definition dated (item : RawItem) : Prop :=
  exists s t,
    Repo.asString (Val.field item "createdAt") = Some s /\
    s <> [] /\ Date_getTime s = Finite t.

(** What the mappers of both repositories copy from an item, whatever
    they do to the logos. *)
Definition copied (id_of : RawItem -> jsstring) (item : RawItem)
  (p : PhotoRecord.t) : Prop :=
  PhotoRecord.id p = id_of item /\
  PhotoRecord.createdAt p = Repo.asString (Val.field item "createdAt").

Definition decoupled_id (item : RawItem) : jsstring :=
  default [] (Repo.asString (Val.field item "photoId")).

Definition single_id (item : RawItem) : jsstring :=
  default (default [] (Repo.asString (Val.field item "photoId")))
    (Repo.asString (Val.field item "SK")).

End PhotoOrder.

(** ** Vocabulary of the ingestion properties *)

Definition is_put (r : WriteRequest) : Prop :=
  match r with PutRequest _ => True | DeleteRequest _ => False end.

(** A command that deletes nothing: a scan, a query, a batch get, a put, an
    update, or a batch write of puts. *)
Definition deletes_nothing (cmd : Command) : Prop :=
  match cmd with
  | DeleteCommand _ _ => False
  | BatchWriteCommand _ requests => Forall is_put requests
  | _ => True
  end.

Definition harmless (ev : Event) : Prop :=
  match ev with
  | Sent cmd => deletes_nothing cmd
  | _ => True
  end.

(** Whatever a computation does to the history, it appends events that
    satisfy [P]. *)
Definition emits {A} (P : Event -> Prop) (m : Task A) : Prop :=
  forall h out h', m h = (out, h') -> exists new, h' = h ++ new /\ Forall P new.

(** The computation comes to an end within the bound on its loops. *)
Definition finishes {A} (m : Task A) : Prop :=
  forall h out h', m h = (out, h') -> out <> Unfinished.

Definition retry_message (unprocessed : list WriteRequest) : jsstring :=
  js "Retrying " ++ Str.of_nat (length unprocessed)
    ++ js " unprocessed mapping writes...".

(** [(response.UnprocessedItems?.[tableName] ?? [])] *)
Definition unprocessed_of (table : jsstring) (out : DynamoOutput)
  : list WriteRequest :=
  default [] (UnprocessedItems out ≫= table_entry table).

(** The events of a run of batch writes that comes to an end: each
    submission after the first is what the response to the one before
    reported as unprocessed, a warning is logged in between, and the
    response to the last one reports nothing unprocessed. *)
Inductive retry_chain (w : World) (table : jsstring)
  : History -> list WriteRequest -> list Event -> Prop :=
| chain_end h requests out :
    dynamo_send w h (BatchWriteCommand table requests) = Returns out ->
    unprocessed_of table out = [] ->
    retry_chain w table h requests [Sent (BatchWriteCommand table requests)]
| chain_retry h requests out tail :
    dynamo_send w h (BatchWriteCommand table requests) = Returns out ->
    unprocessed_of table out <> [] ->
    retry_chain w table
      (h ++ [Sent (BatchWriteCommand table requests);
             Logged LogWarn (retry_message (unprocessed_of table out)) None])
      (unprocessed_of table out) tail ->
    retry_chain w table h requests
      (Sent (BatchWriteCommand table requests)
       :: Logged LogWarn (retry_message (unprocessed_of table out)) None
       :: tail).

(** Every batch write processes at least one of the requests it is given. *)
Definition makes_progress (w : World) : Prop :=
  forall h table requests out,
    dynamo_send w h (BatchWriteCommand table requests) = Returns out ->
    (length (unprocessed_of table out) < length requests)%nat.

(** What the loop of [main] leaves in the history for a key: the object was
    asked for, and either the count of stored logos or the failure was
    logged. *)
Definition processed (key : jsstring) (new : list Event) : Prop :=
  In (Logged LogInfo (js "Processing " ++ key ++ js "...") None) new /\
  In (Fetched key) new /\
  ((exists n,
      In (Logged LogInfo
            (js "Stored " ++ Str.of_nat n ++ js " logos for " ++ key) None)
         new) \/
   (exists e,
      In (Logged LogError (js "Failed to process " ++ key) (Some e)) new)).

(** An event that is not a batch write and not a delete. *)
Definition plain (ev : Event) : Prop :=
  match ev with
  | Sent (BatchWriteCommand _ _) | Sent (DeleteCommand _ _) => False
  | _ => True
  end.

(** ** Vocabulary of the remaining properties *)

(** A unit of a slug: [a-z], [0-9] or the dash. *)
Definition slug_unit (u : N) : Prop :=
  Str.is_lower_alnum u = true \/ u = Str.dash.

(** No two dashes in a row. *)
Fixpoint no_double_dash (s : jsstring) : Prop :=
  match s with
  | a :: (b :: _) as t => (a = Str.dash -> b <> Str.dash) /\ no_double_dash t
  | _ => True
  end.

Definition head_is_not (u : N) (s : jsstring) : Prop :=
  match s with
  | a :: _ => a <> u
  | [] => True
  end.

Definition finite_detection (d : LogoDetection.t) : Prop :=
  Num.isFinite (LogoDetection.confidence d) = true.

(** The logos of a record and its match confidence are finite. *)
Definition finite_record (p : PhotoRecord.t) : Prop :=
  Forall finite_detection (PhotoRecord.logos p) /\
  forall c, PhotoRecord.matchConfidence p = Some c -> Num.isFinite c = true.

(** The order of a sorted prefix read last element first. *)
Definition after {A} (cmp : A -> A -> number) (a b : A) : Prop :=
  Num.sort_sign (cmp b a) <= 0.


(** The computation only appends to the history. *)
Definition extends {A} (m : Task A) : Prop := emits (fun _ => True) m.

(** The [try] block of the loop of [main]. *)
Definition attempt {rt : Runtime} (w : World)
  (save : nat -> jsstring -> list Ingest.LogoDetection.t -> Task unit)
  (fuel : nat) (key : jsstring) : Task unit :=
  logos <- Ingest.detectLogosForKey w key ;;
  save fuel key logos ;;;
  console LogInfo
    (js "Stored " ++ Str.of_nat (length logos) ++ js " logos for " ++ key)
    None.

Section RouteVocabulary.
Context {rt : Runtime} {L : Type}.

Definition failure (message : string) : Routes.NextResponse L :=
  Routes.json (Routes.ErrorBody (js message)) (Some 500%nat).

(** What a route does with the outcome of what it awaits in its [try]
    block: the error of a failure is logged and answered with the generic
    500 response, a success is answered by [respond]; [logged] is the
    message of the route. *)
Definition guards {A} (awaited : Task A) (route : Task (Routes.NextResponse L))
  (logged generic : string) (respond : A -> Routes.NextResponse L)
  (h : History) : Prop :=
  (forall e h1,
     awaited h = (Raised e, h1) ->
     route h = (Done (failure generic),
                h1 ++ [Logged LogError (js logged) (Some e)])) /\
  (forall a h1,
     awaited h = (Done a, h1) -> route h = (Done (respond a), h1)) /\
  (forall out h', route h = (out, h') -> forall e, out <> Raised e).

(** The computation the photos-by-logo route awaits: the path parameter,
    then, when it is not empty, the photos of its normalised form. *)
Definition by_logo_awaited
  (fetchPhotosByLogo : jsstring -> Task (list PhotoRecord.t))
  (params : Task jsstring)
  : Task (option (jsstring * list PhotoRecord.t)) :=
  logoParam <- params ;;
  if negb (Str.truthy logoParam) then Task.ret None
  else
    photos <- fetchPhotosByLogo (Dynamo.normalizeLogoName logoParam) ;;
    Task.ret (Some (Dynamo.normalizeLogoName logoParam, photos)).

Definition by_logo_respond (r : option (jsstring * list PhotoRecord.t))
  : Routes.NextResponse L :=
  match r with
  | None =>
      Routes.json (Routes.ErrorBody (js "Logo name is required"))
        (Some 400%nat)
  | Some (logo, photos) =>
      Routes.json (Routes.LogoPhotosBody logo photos) None
  end.

End RouteVocabulary.

(** ** A small engine and a small outside, to run the model *)

Module Sample.

Definition lower_unit (u : N) : N :=
  if Str.is_upper u then (u + 32)%N else u.

Definition digit (d : Z) : N := Z.to_N (48 + d).

(** The decimal digits of a non-negative integer. *)
Definition digits_of (z : Z) : jsstring :=
  js (NilEmpty.string_of_uint (N.to_uint (Z.to_N z))).

(** Up to [n] decimals of [r / d], for [0 <= r < d]. *)
Fixpoint decimals (n : nat) (r d : Z) : jsstring :=
  match n with
  | O => []
  | S n' =>
      if (r =? 0)%Z then []
      else digit (r * 10 / d) :: decimals n' (r * 10 mod d) d
  end.

Definition render (x : number) : jsstring :=
  match x with
  | NaN => js "NaN"
  | Infinity false => js "Infinity"
  | Infinity true => js "-Infinity"
  | Finite q =>
      let n := Z.abs (Qnum q) in
      let d := Z.pos (Qden q) in
      (if (Qnum q <? 0)%Z then js "-" else [])
      ++ digits_of (n / d)
      ++ match decimals 17 (n mod d) d with
         | [] => []
         | ds => Str.dot :: ds
         end
  end.

Definition digit_value (u : N) : option Z :=
  if Str.is_digit u then Some (Z.of_N u - 48) else None.

(** The value of a non-empty run of decimal digits. *)
Fixpoint natural (acc : Z) (s : jsstring) : option Z :=
  match s with
  | [] => Some acc
  | u :: s' =>
      match digit_value u with
      | Some d => natural (acc * 10 + d) s'
      | None => None
      end
  end.

Definition parse_natural (s : jsstring) : option Z :=
  match s with [] => None | _ => natural 0 s end.

(** Decimal literals of the form [digits] and [digits.digits]; the empty
    string is zero; anything else is not a number. *)
Definition parse_number (s : jsstring) : number :=
  match Str.trim s with
  | [] => Num.zero
  | t =>
      let whole := Str.drop_end_while (fun u => negb (u =? Str.dot)%N) t in
      match whole with
      | [] => match parse_natural t with
              | Some z => Finite (inject_Z z)
              | None => NaN
              end
      | _ =>
          let int_part := List.removelast whole in
          let frac_part := List.skipn (length whole) t in
          match parse_natural int_part, parse_natural frac_part with
          | Some i, Some f =>
              Finite (inject_Z i
                      + Qmake f (Pos.pow 10 (Pos.of_nat (length frac_part))))%Q
          | _, _ => NaN
          end
      end
  end.

Definition to_number (v : JsValue) : number :=
  match v with
  | VUndefined => NaN
  | VNull => Num.zero
  | VBool b => if b then Finite 1%Q else Num.zero
  | VNumber n => n
  | VBigInt z => Finite (inject_Z z)
  | VString s => parse_number s
  | VArray [] => Num.zero
  | _ => NaN
  end.

Definition two_digits (s : jsstring) (i : nat) : option Z :=
  parse_natural (List.firstn 2 (List.skipn i s)).

(** Days from 1970-01-01 to the civil date [y]-[m]-[d]. *)
Definition days_from_civil (y m d : Z) : Z :=
  let y' := if (m <=? 2)%Z then y - 1 else y in
  let era := y' / 400 in
  let yoe := y' - era * 400 in
  let mp := if (m >? 2)%Z then m - 3 else m + 9 in
  let doy := (153 * mp + 2) / 5 + d - 1 in
  let doe := yoe * 365 + yoe / 4 - yoe / 100 + doy in
  era * 146097 + doe - 719468.

(** Time values of strings of the form [YYYY-MM-DDTHH:mm:ss.sssZ], the
    form [toISOString] writes; any other string is an invalid date. *)
Definition getTime (s : jsstring) : number :=
  if negb (length s =? 24)%nat then NaN
  else
    match parse_natural (List.firstn 4 s), two_digits s 5, two_digits s 8,
          two_digits s 11, two_digits s 14, two_digits s 17,
          parse_natural (List.firstn 3 (List.skipn 20 s)) with
    | Some y, Some mo, Some d, Some hh, Some mi, Some ss, Some ms =>
        if (1 <=? mo)%Z && (mo <=? 12)%Z && (1 <=? d)%Z && (d <=? 31)%Z
           && (hh <=? 23)%Z && (mi <=? 59)%Z && (ss <=? 59)%Z
        then Finite (inject_Z
               ((((days_from_civil y mo d * 24 + hh) * 60 + mi) * 60 + ss)
                * 1000 + ms))
        else NaN
    | _, _, _, _, _, _, _ => NaN
    end.

(** Comparison by code units. *)
Fixpoint compare_units (a b : jsstring) : Z :=
  match a, b with
  | [], [] => 0
  | [], _ :: _ => -1
  | _ :: _, [] => 1
  | x :: a', y :: b' =>
      match N.compare x y with
      | Lt => -1
      | Gt => 1
      | Eq => compare_units a' b'
      end
  end.

(** Insertion sort as it is run in place: the new element moves towards
    the front past the elements it must precede.  [sorted_rev] is the
    sorted prefix, last element first. *)
Fixpoint insert {A} (cmp : A -> A -> number) (x : A) (sorted_rev : list A)
  : list A :=
  match sorted_rev with
  | [] => [x]
  | y :: rest =>
      if (Num.sort_sign (cmp x y) <? 0)%Z then y :: insert cmp x rest
      else x :: sorted_rev
  end.

Definition insertion_sort {A} (cmp : A -> A -> number) (l : list A)
  : list A :=
  List.rev (List.fold_left (fun sorted_rev x => insert cmp x sorted_rev) l []).

(** An engine that lower-cases ASCII letters, renders and reads decimal
    Numbers, reads ISO timestamps, collates by code units and sorts by
    stable insertion.  It stands for the real engine on the inputs of the
    examples below. *)
Definition runtime : Runtime := {|
  String_toLowerCase := List.map lower_unit;
  Number_toString := render;
  BigInt_toString :=
    fun z => (if (z <? 0)%Z then js "-" else []) ++ digits_of (Z.abs z);
  ToNumber := to_number;
  Date_getTime := getTime;
  String_localeCompare :=
    fun a b => Finite (inject_Z (compare_units a b));
  Array_sort := @insertion_sort
|}.

Definition no_output : DynamoOutput :=
  {| Items := None; Responses := None; UnprocessedItems := None |}.

Definition has_key (key item : RawItem) : bool :=
  List.forallb
    (fun kv =>
       match kv.2, Val.field item kv.1 with
       | VString a, VString b => bool_decide (a = b)
       | _, _ => false
       end)
    key.

(** A database that holds [store], answers every read in full and
    processes every write at once. *)
Definition database (store : Store) (h : History) (cmd : Command)
  : Result DynamoOutput :=
  match cmd with
  | ScanCommand table =>
      Returns {| Items := Some (store table); Responses := None;
                 UnprocessedItems := None |}
  | QueryCommand table keyName keyValue =>
      Returns
        {| Items :=
             Some (List.filter
                     (fun item =>
                        match Val.field item keyName with
                        | VString s => bool_decide (s = keyValue)
                        | _ => false
                        end)
                     (store table));
           Responses := None; UnprocessedItems := None |}
  | BatchGetCommand table keys =>
      Returns
        {| Items := None;
           Responses :=
             Some [(table,
                    List.filter
                      (fun item => List.existsb (fun key => has_key key item) keys)
                      (store table))];
           UnprocessedItems := None |}
  | _ => Returns no_output
  end.

Definition env : Env := {|
  DYNAMO_PHOTOS_TABLE := Some (js "photos");
  DYNAMO_PHOTO_LOGOS_TABLE := Some (js "photo-logos");
  DYNAMO_LOGO_SUMMARIES_TABLE := Some (js "logo-summaries");
  DYNAMO_TABLE_PHOTOS := Some (js "index");
  DYNAMO_TABLE_LOGOS := Some (js "index");
  DYNAMO_TABLE_PHOTO_LOGOS := Some (js "index");
  DYNAMO_TABLE := Some (js "index");
  S3_PUBLIC_BASE_URL := Some (js "https://cdn.example/")
|}.

End Sample.

(** ** Sample data *)

Module SampleData.

(** What the sample bucket holds under a key: a body, and what the Vision
    API finds in it; or a body whose stream breaks. *)
Inductive Stored : Type :=
| Image (content : bytes) (annotations : list Annotation)
| Broken (e : JsError).

Definition bucket : Type := list (jsstring * Stored).

Fixpoint stored (b : bucket) (key : jsstring) : option Stored :=
  match b with
  | [] => None
  | (k, s) :: b' => if decide (k = key) then Some s else stored b' key
  end.

Fixpoint annotations_of (b : bucket) (image : bytes) : list Annotation :=
  match b with
  | [] => []
  | (_, Image content annotations) :: b' =>
      if decide (content = image) then annotations
      else annotations_of b' image
  | _ :: b' => annotations_of b' image
  end.

(** A world with a database that holds [store], a bucket listed in one
    page, and a clock that stands still. *)
Definition world (store : Store) (b : bucket) : World := {|
  dynamo_send := Sample.database store;
  s3_list :=
    fun _ _ =>
      Returns {| Contents :=
                   Some (List.map (fun e => {| Key := Some e.1 |}) b);
                 NextContinuationToken := None |};
  s3_get :=
    fun _ key =>
      match stored b key with
      | Some (Image content _) =>
          Returns {| Body := Some (BodyUint8Array content) |}
      | Some (Broken e) =>
          Returns {| Body := Some (BodyReadable (Throws e)) |}
      | None => Throws (ServiceError "S3" (js "NoSuchKey"))
      end;
  vision_logoDetection :=
    fun _ image =>
      Returns {| logoAnnotations := Some (annotations_of b image) |};
  clock_now := fun _ => js "2024-05-01T10:00:00.000Z"
|}.

(** Three-table contents: two photos; Nike twice in the first and once in
    the second, Adidas once in the first. *)
Definition photo (photoId createdAt : string) : RawItem :=
  [ ("photoId", VString (js photoId));
    ("s3Key", VString (js "photos/" ++ js photoId ++ js ".jpg"));
    ("createdAt", VString (js createdAt)) ].

Definition mapping (logoSlug logoName photoId : string) (index : nat)
  (confidence : Q) : RawItem :=
  [ ("logoSlug", VString (js logoSlug));
    ("sortKey",
     VString (Ingest.mapping_sortKey (js photoId) index));
    ("photoId", VString (js photoId));
    ("logoName", VString (js logoName));
    ("confidence", VNumber (Finite confidence));
    ("detectionIndex", VNumber (Num.of_nat index)) ].

(** Single-table contents for the same photos. *)
Definition single_photo (photoId createdAt : string) : RawItem :=
  [ ("PK", VString (js "PHOTO"));
    ("SK", VString (js photoId));
    ("s3Key", VString (js "photos/" ++ js photoId ++ js ".jpg"));
    ("createdAt", VString (js createdAt)) ].

Definition single_mapping (logoSlug photoId : string) (index : nat)
  (confidence : Q) : RawItem :=
  [ ("PK", VString (js "LOGO#" ++ js logoSlug));
    ("SK", VString (Ingest.mapping_sortKey (js photoId) index));
    ("photoId", VString (js photoId));
    ("confidence", VNumber (Finite confidence)) ].

Definition store : Store :=
  fun table =>
    if decide (table = js "photos") then
      [ photo "beach" "2024-03-01T08:00:00.000Z";
        photo "street" "2024-04-01T08:00:00.000Z" ]
    else if decide (table = js "photo-logos") then
      [ mapping "nike" "Nike" "beach" 0 (1 # 2);
        mapping "adidas" "Adidas" "beach" 1 (3 # 4);
        mapping "nike" "Nike" "beach" 2 (7 # 8);
        mapping "nike" "Nike" "street" 0 (1 # 4) ]
    else if decide (table = js "index") then
      [ single_photo "beach" "2024-03-01T08:00:00.000Z";
        single_photo "street" "2024-04-01T08:00:00.000Z";
        single_mapping "nike" "beach" 0 (1 # 2);
        single_mapping "adidas" "beach" 1 (3 # 4);
        single_mapping "nike" "beach" 2 (7 # 8);
        single_mapping "nike" "street" 0 (1 # 4) ]
    else [].

Definition quiet : World := world store [].

End SampleData.

(** ** Inputs on which claims fail *)

Module Counterexamples.

(** A photos table in which the second of three photos has no
    [createdAt]. *)
Definition undated_store : Store :=
  fun table =>
    if decide (table = js "photos") then
      [ SampleData.photo "a" "2020-01-01T00:00:00.000Z";
        [ ("photoId", VString (js "b"));
          ("s3Key", VString (js "photos/b.jpg")) ];
        SampleData.photo "c" "2021-01-01T00:00:00.000Z" ]
    else [].

Definition config : Ingest.Config := {|
  Ingest.S3_PREFIX := Ingest.default_prefix;
  Ingest.MAX_ITEMS := 100;
  Ingest.S3_PUBLIC_BASE_URL := None
|}.


End Counterexamples.

(** ** Inputs on which the theorems are shown at work *)

Module Examples.

(** A database that, the first time it is given a batch write, processes
    the first request only, and processes everything from then on. *)
Definition flaky (h : History) (cmd : Command) : Result DynamoOutput :=
  match cmd with
  | BatchWriteCommand table requests =>
      if List.existsb
           (fun ev =>
              match ev with Sent (BatchWriteCommand _ _) => true | _ => false end)
           h
      then Returns Sample.no_output
      else Returns {| Items := None; Responses := None;
                      UnprocessedItems := Some [(table, List.skipn 1 requests)] |}
  | _ => Sample.database SampleData.store h cmd
  end.

(** A bucket whose first object cannot be read and whose second shows one
    logo. *)
Definition bucket : SampleData.bucket :=
  [ (js "photos/torn.jpg",
     SampleData.Broken (ServiceError "S3" (js "stream closed")));
    (js "photos/shoe.jpg",
     SampleData.Image [7%N; 7%N]
       [ {| description := Some (js "Nike");
            score := Some (Finite (9 # 10));
            vertices := None |} ]) ].

Definition flaky_world : World := {|
  dynamo_send := flaky;
  s3_list := s3_list (SampleData.world SampleData.store bucket);
  s3_get := s3_get (SampleData.world SampleData.store bucket);
  vision_logoDetection :=
    vision_logoDetection (SampleData.world SampleData.store bucket);
  clock_now := clock_now (SampleData.world SampleData.store bucket)
|}.

Definition world : World := SampleData.world SampleData.store bucket.

Definition two_puts : list WriteRequest :=
  [ PutRequest (SampleData.mapping "nike" "Nike" "shoe" 0 (9 # 10));
    PutRequest (SampleData.mapping "puma" "Puma" "shoe" 1 (1 # 2)) ].

End Examples.

(** ** Vocabulary of the properties of identifiers *)

(** The number that a run of decimal digits writes; zeros in front count
    for nothing. *)
Definition digits_value (s : jsstring) : nat :=
  List.fold_left (fun acc u => (acc * 10 + (N.to_nat u - 48))%nat) s 0%nat.

(** Every unit is in [[a-zA-Z0-9_-]]. *)
Definition id_string (s : jsstring) : Prop :=
  Forall (fun u => Str.is_id_char u = true) s.

(** ** Vocabulary of the properties of the ingestion *)

(** The key is one that S3 listed: an answer to a list request holds an
    object with this key. *)
Definition listed (w : World) (key : jsstring) : Prop :=
  exists h token response,
    s3_list w h token = Returns response /\
    In {| Key := Some key |} (default [] (Contents response)).

(** The detection is well formed: it has a name, and its slug is the slug
    of the name. *)
Definition well_formed {rt : Runtime} (d : Ingest.LogoDetection.t) : Prop :=
  Ingest.LogoDetection.name d <> [] /\
  Ingest.LogoDetection.slug d
  = Dynamo.normalizeLogoName (Ingest.LogoDetection.name d).

(** The detections of [slug] among [logos]. *)
Definition detections_of (slug : jsstring) (logos : list Ingest.LogoDetection.t)
  : list Ingest.LogoDetection.t :=
  List.filter
    (fun logo => bool_decide (Ingest.LogoDetection.slug logo = slug)) logos.

(** DynamoDB answers every command and reports nothing unprocessed. *)
Definition obliging (w : World) : Prop :=
  forall h cmd,
    exists out,
      dynamo_send w h cmd = Returns out /\
      forall table, unprocessed_of table out = [].

(** What a batch write reports as unprocessed is no longer than what was
    submitted. *)
Definition never_grows (w : World) : Prop :=
  forall h table requests out,
    dynamo_send w h (BatchWriteCommand table requests) = Returns out ->
    (length (unprocessed_of table out) <= length requests)%nat.

(** A batch write carries at least one request and at most [n]. *)
Definition batch_within (n : nat) (ev : Event) : Prop :=
  match ev with
  | Sent (BatchWriteCommand _ requests) =>
      (1 <= length requests <= n)%nat
  | _ => True
  end.

(** The item [savePhotoDecoupled] puts into the photos table. *)
Definition decoupled_photo_item (cfg : Ingest.Config) (key now : jsstring)
  : RawItem :=
  [ ("photoId", VString (Ingest.keyToPhotoId cfg key));
    ("s3Key", VString key);
    ("publicUrl", Ingest.optional_string (Ingest.buildPublicUrl cfg key));
    ("createdAt", VString now);
    ("updatedAt", VString now) ].

(** The item [savePhoto] puts into the single table. *)
Definition single_photo_item (cfg : Ingest.Config) (key now : jsstring)
  (logos : list Ingest.LogoDetection.t) : RawItem :=
  [ ("PK", VString (js "PHOTO"));
    ("SK", VString (Ingest.keyToPhotoId cfg key));
    ("_type", VString (js "photo"));
    ("s3Key", VString key);
    ("publicUrl", Ingest.optional_string (Ingest.buildPublicUrl cfg key));
    ("detectedLogos", VArray (List.map IngestSingle.logo_value logos));
    ("createdAt", VString now) ].

(** ** Vocabulary of the loop of [main] *)

(** Steps taken one after the other: each starts from the history that the
    steps before it left, and the events are theirs, in that order. *)
Inductive in_turn {A} (one : A -> History -> list Event -> Prop)
  : History -> list A -> list Event -> Prop :=
| in_turn_nil h : in_turn one h [] []
| in_turn_cons h x xs new rest :
    one x h new ->
    in_turn one (h ++ new) xs rest ->
    in_turn one h (x :: xs) (new ++ rest).

(** [cmd] is sent to DynamoDB, which answers it. *)
Definition answered (w : World) (cmd : Command) (h : History)
  (new : list Event) : Prop :=
  new = [Sent cmd] /\ exists out, dynamo_send w h cmd = Returns out.

(** What a save that returns leaves behind: the clock was read; the item
    of the photo was put and DynamoDB answered; the mapping items of the
    logos, cut into batches of 25, were each submitted and re-submitted
    until a response reported nothing unprocessed; and the summary of
    every slug was updated and DynamoDB answered.  Nothing else happens. *)
Definition stored {rt : Runtime} (w : World) (put : jsstring -> Command)
  (table : jsstring)
  (mapping : jsstring -> Ingest.LogoDetection.t -> RawItem)
  (update : jsstring -> jsstring * (number * jsstring) -> Command)
  (logos : list Ingest.LogoDetection.t) (h : History) (saved : list Event)
  : Prop :=
  let now := clock_now w h in
  exists writes updates,
    saved = ClockRead :: Sent (put now) :: writes ++ updates /\
    answered w (put now) (h ++ [ClockRead]) [Sent (put now)] /\
    in_turn (fun batch hb new => retry_chain w table hb batch new)
      (h ++ [ClockRead; Sent (put now)])
      (Ingest.chunk
         (List.map (fun logo => PutRequest (mapping now logo)) logos) 25)
      writes /\
    in_turn (fun entry => answered w (update now entry))
      (h ++ ClockRead :: Sent (put now) :: writes)
      (Ingest.summarize logos) updates.

(** [stored] for the items and tables of the three-table script. *)
Definition stored_decoupled {rt : Runtime} (cfg : Ingest.Config) (w : World)
  (t1 t2 t3 key : jsstring) (logos : list Ingest.LogoDetection.t)
  : History -> list Event -> Prop :=
  stored w (fun now => PutCommand t1 (decoupled_photo_item cfg key now)) t2
    (IngestDecoupled.mapping_item (Ingest.keyToPhotoId cfg key))
    (IngestDecoupled.summary_update t3) logos.

(** [stored] for the items and the table of the single-table script. *)
Definition stored_single {rt : Runtime} (cfg : Ingest.Config) (w : World)
  (table key : jsstring) (logos : list Ingest.LogoDetection.t)
  : History -> list Event -> Prop :=
  stored w (fun now => PutCommand table (single_photo_item cfg key now logos))
    table
    (fun _ =>
       IngestSingle.mapping_item (Ingest.keyToPhotoId cfg key)
         (Ingest.buildPublicUrl cfg key))
    (fun _ => IngestSingle.summary_update table) logos.

(** One turn of the loop of [main] on [key], from the history [h].  After
    the line that announces the key there are three ways for it to go: the
    logos are detected and the photo is stored, and the count is logged;
    the detection throws, and what it threw is logged as the failure of
    this key; or the save throws, and what it threw is logged as the
    failure of this key. *)
Inductive turn {rt : Runtime} (w : World)
  (save : jsstring -> list Ingest.LogoDetection.t -> Task unit)
  (kept : jsstring -> list Ingest.LogoDetection.t ->
          History -> list Event -> Prop)
  (key : jsstring) (h : History) : list Event -> Prop :=
| turn_stored logos detected saved :
    let start := Logged LogInfo (js "Processing " ++ key ++ js "...") None in
    Ingest.detectLogosForKey w key (h ++ [start])
    = (Done logos, (h ++ [start]) ++ detected) ->
    kept key logos ((h ++ [start]) ++ detected) saved ->
    turn w save kept key h
      (start :: detected ++ saved
         ++ [Logged LogInfo
               (js "Stored " ++ Str.of_nat (length logos) ++ js " logos for "
                  ++ key) None])
| turn_detection_failed e detected :
    let start := Logged LogInfo (js "Processing " ++ key ++ js "...") None in
    Ingest.detectLogosForKey w key (h ++ [start])
    = (Raised e, (h ++ [start]) ++ detected) ->
    turn w save kept key h
      (start :: detected
         ++ [Logged LogError (js "Failed to process " ++ key) (Some e)])
| turn_save_failed logos e detected saved :
    let start := Logged LogInfo (js "Processing " ++ key ++ js "...") None in
    Ingest.detectLogosForKey w key (h ++ [start])
    = (Done logos, (h ++ [start]) ++ detected) ->
    save key logos ((h ++ [start]) ++ detected)
    = (Raised e, ((h ++ [start]) ++ detected) ++ saved) ->
    turn w save kept key h
      (start :: detected ++ saved
         ++ [Logged LogError (js "Failed to process " ++ key) (Some e)]).

(** ** Vocabulary of what is written and read back *)

(** A detection of the ingestion as the repositories hold it. *)
Definition as_read (d : Ingest.LogoDetection.t) : LogoDetection.t :=
  {| LogoDetection.name := Ingest.LogoDetection.name d;
     LogoDetection.slug := Ingest.LogoDetection.slug d;
     LogoDetection.confidence := Ingest.LogoDetection.confidence d;
     LogoDetection.boundingPoly := Ingest.LogoDetection.boundingPoly d;
     LogoDetection.detectionIndex :=
       Some (Num.of_nat (Ingest.LogoDetection.detectionIndex d)) |}.

Definition finite_point (p : number * number) : Prop :=
  Num.isFinite p.1 = true /\ Num.isFinite p.2 = true.

(** The confidence and the coordinates of the detection are finite. *)
Definition finite_detected (d : Ingest.LogoDetection.t) : Prop :=
  Num.isFinite (Ingest.LogoDetection.confidence d) = true /\
  forall poly,
    Ingest.LogoDetection.boundingPoly d = Some poly -> Forall finite_point poly.

(** The record of a photo that was saved under [key] at [now], before any
    logo is attached to it. *)
Definition saved_record (env : Env) (cfg : Ingest.Config) (key now : jsstring)
  : PhotoRecord.t :=
  {| PhotoRecord.id := Ingest.keyToPhotoId cfg key;
     PhotoRecord.imageUrl :=
       Dynamo.resolvePublicUrl env (Ingest.buildPublicUrl cfg key) (Some key);
     PhotoRecord.s3Key := Some key;
     PhotoRecord.logos := [];
     PhotoRecord.createdAt := Some now;
     PhotoRecord.matchConfidence := None |}.

(** Every query asks for the items whose attribute [keyName] has the value
    [keyValue]. *)
Definition queries_for (keyName : string) (keyValue : JsValue) (ev : Event)
  : Prop :=
  match ev with
  | Sent (QueryCommand _ k v) => k = keyName /\ VString v = keyValue
  | _ => True
  end.

(** The mapping items of the three-table design that carry the id of a
    photo. *)
Definition mappings_of {rt : Runtime} (photoId : jsstring)
  (mappingItems : list RawItem) : list RawItem :=
  List.filter
    (fun item => bool_decide (decoupled_photoId item = Some photoId))
    mappingItems.

(** The records agree on everything but the logos and the match
    confidence. *)
Definition same_photo (p r : PhotoRecord.t) : Prop :=
  PhotoRecord.id p = PhotoRecord.id r /\
  PhotoRecord.imageUrl p = PhotoRecord.imageUrl r /\
  PhotoRecord.s3Key p = PhotoRecord.s3Key r /\
  PhotoRecord.createdAt p = PhotoRecord.createdAt r.

(** The id and the time of creation of a record, and those an item gives
    to its record. *)
Definition stamp (p : PhotoRecord.t) : jsstring * option jsstring :=
  (PhotoRecord.id p, PhotoRecord.createdAt p).

Definition item_stamp {rt : Runtime} (id_of : RawItem -> jsstring)
  (item : RawItem) : jsstring * option jsstring :=
  (id_of item, Repo.asString (Val.field item "createdAt")).

(** ** Vocabulary of the order of logos *)

(** The collation of the engine is a consistent comparator. *)
Definition collation_consistent (rt : Runtime) : Prop :=
  forall l : list jsstring, consistent_comparator String_localeCompare l.

(** [a] has no fewer photos than [b]; when both have as many, the name of
    [a] does not collate after the name of [b]. *)
Definition ranks_before {rt : Runtime} {S : Type} (total : S -> number)
  (name : S -> jsstring) (a b : S) : Prop :=
  exists ta tb,
    total a = Finite ta /\ total b = Finite tb /\ (tb <= ta)%Q /\
    ((ta == tb)%Q ->
     Num.sort_sign (String_localeCompare (name a) (name b)) <= 0).

(** The comparator both [fetchAllLogos] pass to [sort], over the two
    fields it reads. *)
Definition by_photos_then_name {rt : Runtime} {S : Type} (total : S -> number)
  (name : S -> jsstring) (a b : S) : number :=
  let d := Num.sub (total b) (total a) in
  if Num.truthy d then d else String_localeCompare (name a) (name b).

(** The keys of the objects that were fetched, in the order in which they
    were fetched. *)
Definition fetches (new : list Event) : list jsstring :=
  omap (fun ev => match ev with Fetched key => Some key | _ => None end) new.

Definition no_fetch (ev : Event) : Prop :=
  match ev with Fetched _ => False | _ => True end.

(** What a route leaves when what it awaits fails with [error] before
    anything is sent: the generic answer, and the error in the log. *)
Definition refused {rt : Runtime} {L : Type} (h : History)
  (generic logged error : string)
  : Outcome (Routes.NextResponse L) * History :=
  (Done (failure generic),
   h ++ [Logged LogError (js logged) (Some (Error (js error)))]).

(** ** [src/components/gallery/gallery.tsx]: what the gallery computes *)

Module Gallery.

Definition FALLBACK_IMAGE : jsstring := js "/globe.svg".

Section WithSummaries.
(** The logo summaries of the repository, of which the gallery reads the
    slug and the name. *)
Context {L : Type} (slug : L -> jsstring) (name : L -> jsstring).
(** The props, and the state: [selectedLogo] is a string or [null]. *)
Context (initialPhotos : list PhotoRecord.t) (logos : list L)
        (selectedLogo : option jsstring).

Definition filteredPhotos : list PhotoRecord.t :=
  match configured selectedLogo with
  | None => initialPhotos
  | Some selected =>
      List.filter
        (fun photo =>
           List.existsb
             (fun logo => bool_decide (LogoDetection.slug logo = selected))
             (PhotoRecord.logos photo))
        initialPhotos
  end.

Definition activeLogoSummary : option L :=
  match configured selectedLogo with
  | None => None
  | Some selected =>
      List.find (fun logo => bool_decide (slug logo = selected)) logos
  end.

(** [`${n} photo${n === 1 ? "" : "s"}`] *)
Definition count_label (n : nat) : jsstring :=
  Str.of_nat n ++ js " photo" ++ (if (n =? 1)%nat then [] else js "s").

Definition totalPhotosLabel : jsstring :=
  match configured selectedLogo with
  | Some selected =>
      count_label (length filteredPhotos) ++ js " with "
        ++ default selected (option_map name activeLogoSummary)
  | None => count_label (length initialPhotos)
  end.

End WithSummaries.

(** [photo.imageUrl ?? FALLBACK_IMAGE], the link and the source of the
    image of a card. *)
Definition imageSrc (photo : PhotoRecord.t) : jsstring :=
  default FALLBACK_IMAGE (PhotoRecord.imageUrl photo).

End Gallery.

(** ** Vocabulary of what the repositories send *)

(** A command that reads: a scan, a query or a batch get whose keys
    differ from one another. *)
Definition reads (ev : Event) : Prop :=
  match ev with
  | Sent (ScanCommand _) | Sent (QueryCommand _ _ _) => True
  | Sent (BatchGetCommand _ keys) => keys <> [] /\ NoDup keys
  | Sent _ => False
  | _ => True
  end.

(** Whatever the computation does, it appends at most [n] events, and they
    satisfy [P]. *)
Definition emits_at_most {A} (n : nat) (P : Event -> Prop) (m : Task A)
  : Prop :=
  forall h out h',
    m h = (out, h') ->
    exists new, h' = h ++ new /\ Forall P new /\ (length new <= n)%nat.

(** The detection has a name, and its slug is the slug of the name. *)
Definition named {rt : Runtime} (d : LogoDetection.t) : Prop :=
  LogoDetection.name d <> [] /\
  LogoDetection.slug d = Dynamo.normalizeLogoName (LogoDetection.name d).

(** ** More inputs on which the theorems are shown at work *)

Module Cases.

(** An ingestion with a public base URL, the one of [Sample.env]. *)
Definition config : Ingest.Config := {|
  Ingest.S3_PREFIX := Ingest.default_prefix;
  Ingest.MAX_ITEMS := 100;
  Ingest.S3_PUBLIC_BASE_URL := Some (js "https://cdn.example/")
|}.

(** An environment in which no table is named. *)
Definition bare_env : Env := {|
  DYNAMO_PHOTOS_TABLE := None;
  DYNAMO_PHOTO_LOGOS_TABLE := None;
  DYNAMO_LOGO_SUMMARIES_TABLE := None;
  DYNAMO_TABLE_PHOTOS := None;
  DYNAMO_TABLE_LOGOS := None;
  DYNAMO_TABLE_PHOTO_LOGOS := None;
  DYNAMO_TABLE := None;
  S3_PUBLIC_BASE_URL := None
|}.

Definition annotation (name : option string) (confidence : Q) : Annotation :=
  {| description := option_map js name;
     score := Some (Finite confidence);
     vertices := None |}.

(** A bucket with one image in which the Vision API finds Nike twice and
    Adidas once, and reports one logo without a description. *)
Definition bucket : SampleData.bucket :=
  [ (js "photos/court.jpg",
     SampleData.Image [4%N; 2%N]
       [ annotation (Some "Nike") (9 # 10);
         annotation None (8 # 10);
         annotation (Some "Adidas") (1 # 2);
         annotation (Some "Nike") (19 # 20) ]) ].

Definition world : World := SampleData.world SampleData.store bucket.

(** The detections of the image, as [detectLogosForKey] returns them. *)
Definition detection (name slug : string) (confidence : Q) (index : nat)
  : Ingest.LogoDetection.t :=
  {| Ingest.LogoDetection.name := js name;
     Ingest.LogoDetection.slug := js slug;
     Ingest.LogoDetection.confidence := Finite confidence;
     Ingest.LogoDetection.boundingPoly := None;
     Ingest.LogoDetection.detectionIndex := index |}.

Definition detections : list Ingest.LogoDetection.t :=
  [ detection "Nike" "nike" (9 # 10) 0;
    detection "Adidas" "adidas" (1 # 2) 1;
    detection "Nike" "nike" (19 # 20) 2 ].

(** A detection with a bounding polygon. *)
Definition framed : Ingest.LogoDetection.t :=
  {| Ingest.LogoDetection.name := js "Nike";
     Ingest.LogoDetection.slug := js "nike";
     Ingest.LogoDetection.confidence := Finite (9 # 10);
     Ingest.LogoDetection.boundingPoly :=
       Some [ (Finite 10, Finite 20); (Finite 110, Finite 20);
              (Finite 110, Finite 80); (Finite 10, Finite 80) ];
     Ingest.LogoDetection.detectionIndex := 0 |}.

Definition summary (logoSlug displayName : string) (totalPhotos : Z)
  : RawItem :=
  [ ("logoSlug", VString (js logoSlug));
    ("displayName", VString (js displayName));
    ("totalPhotos", VNumber (Finite (inject_Z totalPhotos))) ].

(** The sample tables, and a table of logo summaries. *)
Definition store : Store :=
  fun table =>
    if decide (table = js "logo-summaries") then
      [ summary "puma" "Puma" 1;
        summary "nike" "Nike" 2;
        summary "adidas" "Adidas" 1 ]
    else SampleData.store table.

Definition library : World := SampleData.world store [].

(** A photo item of the single-table design with three detections, the
    second without a name. *)
Definition court_item : RawItem :=
  [ ("SK", VString (js "court"));
    ("detections",
     VArray
       [ VObject [("name", VString (js "Nike"))];
         VObject [("score", VNumber (Finite (1 # 2)))];
         VObject [("displayName", VString (js "Adidas AG"))] ]) ].

End Cases.

(** One turn of the loop that fills [slugSummaries] in [savePhoto] and
    [savePhotoDecoupled]. *)
Definition summarize_step
  (slugSummaries : list (jsstring * (number * jsstring)))
  (logo : Ingest.LogoDetection.t) : list (jsstring * (number * jsstring)) :=
  let entry :=
    (Ingest.LogoDetection.confidence logo, Ingest.LogoDetection.name logo) in
  match Ingest.Map_get (Ingest.LogoDetection.slug logo) slugSummaries with
  | None => Ingest.Map_set (Ingest.LogoDetection.slug logo) entry slugSummaries
  | Some current =>
      if Num.gt (Ingest.LogoDetection.confidence logo) current.1
      then Ingest.Map_set (Ingest.LogoDetection.slug logo) entry slugSummaries
      else slugSummaries
  end.

(** What the loop over the detections keeps: every slug seen so far has
    an entry; the entry of a slug holds the confidence and the name of one
    of the detections of the slug seen so far, and none of those has a
    greater confidence. *)
Definition summaries_kept (m : list (jsstring * (number * jsstring)))
  (seen : list Ingest.LogoDetection.t) : Prop :=
  (forall logo,
     In logo seen ->
     Ingest.Map_get (Ingest.LogoDetection.slug logo) m <> None) /\
  forall slug c name,
    Ingest.Map_get slug m = Some (c, name) ->
    (exists logo,
       In logo seen /\ Ingest.LogoDetection.slug logo = slug /\
       Ingest.LogoDetection.confidence logo = c /\
       Ingest.LogoDetection.name logo = name) /\
    forall logo,
      In logo seen -> Ingest.LogoDetection.slug logo = slug ->
      Num.gt (Ingest.LogoDetection.confidence logo) c = false.

(* ================================================================== *)
(** * Part II: properties *)
(* ================================================================== *)

(** ** Strings *)

Lemma dash_not_alnum : Str.is_lower_alnum Str.dash = false.
Proof. reflexivity. Qed.

Lemma in_range_spec lo hi u :
  Str.in_range lo hi u = true <-> (lo <= u /\ u <= hi)%N.
Proof.
  unfold Str.in_range. rewrite andb_true_iff, !N.leb_le. reflexivity.
Qed.

Lemma in_range_out lo hi u :
  (u < lo \/ hi < u)%N -> Str.in_range lo hi u = false.
Proof.
  intros H. destruct (Str.in_range lo hi u) eqn:E; [| reflexivity].
  apply in_range_spec in E. lia.
Qed.

Lemma lower_alnum_spec u :
  Str.is_lower_alnum u = true <->
  ((97 <= u /\ u <= 122) \/ (48 <= u /\ u <= 57))%N.
Proof.
  unfold Str.is_lower_alnum, Str.is_lower, Str.is_digit.
  rewrite orb_true_iff, !in_range_spec. reflexivity.
Qed.

Lemma slug_unit_not_space u : slug_unit u -> Str.is_space u = false.
Proof.
  intros [H | ->]; [| reflexivity].
  apply lower_alnum_spec in H. unfold Str.is_space.
  repeat (apply orb_false_intro);
    first [ apply in_range_out; lia | apply N.eqb_neq; lia ].
Qed.

Lemma drop_while_none p s :
  Forall (fun u => p u = false) s -> Str.drop_while p s = s.
Proof. destruct 1 as [| u s Hu _]; simpl; [reflexivity | now rewrite Hu]. Qed.

Lemma drop_end_while_none p s :
  Forall (fun u => p u = false) s -> Str.drop_end_while p s = s.
Proof.
  induction 1 as [| u s Hu _ IH]; simpl; [reflexivity |].
  rewrite IH, Hu. now destruct s.
Qed.

Lemma drop_while_suffix p s : exists pre, s = pre ++ Str.drop_while p s.
Proof.
  induction s as [| u s [pre IH]]; simpl.
  - now exists [].
  - destruct (p u); [exists (u :: pre); simpl; congruence | now exists []].
Qed.

Lemma drop_end_while_prefix p s : exists suf, s = Str.drop_end_while p s ++ suf.
Proof.
  induction s as [| u s [suf IH]]; simpl.
  - now exists [].
  - destruct (Str.drop_end_while p s) as [| v r] eqn:E.
    + destruct (p u); [exists (u :: s) | exists s]; simpl; [reflexivity |].
      simpl in IH. congruence.
    + exists suf. simpl. f_equal. exact IH.
Qed.

Lemma drop_while_head p s :
  match Str.drop_while p s with u :: _ => p u = false | [] => True end.
Proof.
  induction s as [| u s IH]; simpl; [exact I |].
  destruct (p u) eqn:E; [exact IH | exact E].
Qed.

Lemma drop_end_while_idem p s :
  Str.drop_end_while p (Str.drop_end_while p s) = Str.drop_end_while p s.
Proof.
  induction s as [| u s IH]; simpl; [reflexivity |].
  destruct (Str.drop_end_while p s) as [| v r] eqn:E.
  - destruct (p u) eqn:Eu; simpl; [reflexivity | now rewrite Eu].
  - change (Str.drop_end_while p (u :: v :: r)) with
      (match Str.drop_end_while p (v :: r) with
       | [] => if p u then [] else [u]
       | x => u :: x
       end).
    now rewrite IH.
Qed.

Lemma drop_end_while_keeps_head p u s :
  p u = false ->
  exists r, Str.drop_end_while p (u :: s) = u :: r.
Proof.
  intros Hu. simpl. destruct (Str.drop_end_while p s); rewrite ?Hu; eauto.
Qed.

(** The result of stripping both ends is a fixed point of both strips. *)
Lemma strip_fixed p s :
  let r := Str.drop_end_while p (Str.drop_while p s) in
  Str.drop_while p r = r /\ Str.drop_end_while p r = r.
Proof.
  intros r. split; [| apply drop_end_while_idem].
  subst r. pose proof (drop_while_head p s) as Hh.
  destruct (Str.drop_while p s) as [| u t]; [reflexivity |].
  destruct (drop_end_while_keeps_head p u t Hh) as [r ->].
  simpl. now rewrite Hh.
Qed.

Lemma replace_runs_units b s : Forall slug_unit (Str.replace_runs b s).
Proof.
  revert b. induction s as [| u s IH]; intros b; simpl; [constructor |].
  destruct (Str.is_lower_alnum u) eqn:E; [constructor; [now left | apply IH] |].
  destruct b; [apply IH | constructor; [now right | apply IH]].
Qed.

Lemma replace_runs_shape s :
  no_double_dash (Str.replace_runs false s) /\
  no_double_dash (Str.replace_runs true s) /\
  head_is_not Str.dash (Str.replace_runs true s).
Proof.
  induction s as [| u s (IH1 & IH2 & IH3)]; simpl; [tauto |].
  destruct (Str.is_lower_alnum u) eqn:E.
  - assert (Hu : u <> Str.dash) by (intros ->; discriminate).
    assert (Hc : no_double_dash (u :: Str.replace_runs false s)).
    { simpl. destruct (Str.replace_runs false s); [exact I |].
      split; [intros; contradiction | exact IH1]. }
    repeat split; try exact Hc. exact Hu.
  - repeat split; try assumption.
    simpl. destruct (Str.replace_runs true s) as [| v r]; [exact I |].
    split; [intros _; exact IH3 | exact IH2].
Qed.

Lemma no_double_dash_app_l s t : no_double_dash (s ++ t) -> no_double_dash s.
Proof.
  induction s as [| a s IH]; simpl; [trivial |].
  destruct s as [| b s]; simpl in *; [trivial |].
  intros [H1 H2]. split; [exact H1 | apply IH, H2].
Qed.

Lemma no_double_dash_app_r s t : no_double_dash (s ++ t) -> no_double_dash t.
Proof.
  induction s as [| a s IH]; simpl; [trivial |].
  destruct (s ++ t) eqn:E; intros H.
  - destruct s; [simpl in E; subst; exact I | discriminate].
  - apply IH. apply H.
Qed.

(** On a string of slug units without doubled dashes the run replacement
    changes nothing. *)
Lemma replace_runs_fixed s :
  Forall slug_unit s -> no_double_dash s ->
  Str.replace_runs false s = s /\
  (head_is_not Str.dash s -> Str.replace_runs true s = s).
Proof.
  induction 1 as [| u s Hu Hs IH]; intros Hdd; [now split |].
  assert (Hdd' : no_double_dash s) by (destruct s; [exact I | apply Hdd]).
  destruct (IH Hdd') as [IHf IHt]. simpl.
  destruct Hu as [Hu | ->].
  - rewrite Hu, IHf. split; reflexivity.
  - rewrite dash_not_alnum. split.
    + f_equal. apply IHt. destruct s; [exact I |]. now apply Hdd.
    + intros Hh. now contradiction Hh.
Qed.

Lemma strip_dashes_shape t :
  Forall slug_unit t -> no_double_dash t ->
  Forall slug_unit (Str.strip_dashes t) /\
  no_double_dash (Str.strip_dashes t) /\
  Str.strip_dashes (Str.strip_dashes t) = Str.strip_dashes t.
Proof.
  intros Ht Hd.
  destruct (strip_fixed (N.eqb Str.dash) t) as [H1 H2]. cbv zeta in H1, H2.
  destruct (drop_while_suffix (N.eqb Str.dash) t) as [pre Hpre].
  destruct (drop_end_while_prefix (N.eqb Str.dash)
              (Str.drop_while (N.eqb Str.dash) t)) as [suf Hsuf].
  rewrite Hpre in Ht, Hd.
  apply Forall_app in Ht as [_ Ht]. apply no_double_dash_app_r in Hd.
  rewrite Hsuf in Ht, Hd.
  apply Forall_app in Ht as [Ht _]. apply no_double_dash_app_l in Hd.
  split; [exact Ht |]. split; [exact Hd |].
  unfold Str.strip_dashes at 1. fold (Str.strip_dashes t) in H1, H2.
  now rewrite H1.
Qed.

Section Normalize.
Context {rt : Runtime}.

Lemma normalizeLogoName_shape name :
  let r := Dynamo.normalizeLogoName name in
  Forall slug_unit r /\ no_double_dash r /\
  Str.strip_dashes r = r.
Proof.
  apply strip_dashes_shape.
  - apply replace_runs_units.
  - apply replace_runs_shape.
Qed.

(** C10: normalising a normalised name changes nothing, so the slug the
    photos-by-logo route computes and the slug [fetchPhotosByLogo]
    recomputes from it are the same. *)
Theorem normalizeLogoName_idempotent (laws : RuntimeLaws rt) name :
  Dynamo.normalizeLogoName (Dynamo.normalizeLogoName name)
  = Dynamo.normalizeLogoName name.
Proof.
  destruct (normalizeLogoName_shape name) as (Hu & Hd & Hs).
  set (r := Dynamo.normalizeLogoName name) in *.
  unfold Dynamo.normalizeLogoName at 1.
  assert (Htrim : Str.trim r = r).
  { unfold Str.trim.
    assert (Hsp : Forall (fun u => Str.is_space u = false) r).
    { eapply Forall_impl; [exact Hu | apply slug_unit_not_space]. }
    rewrite drop_while_none by exact Hsp.
    now apply drop_end_while_none. }
  rewrite Htrim, (toLowerCase_slug rt laws r Hu).
  destruct (replace_runs_fixed r Hu Hd) as [-> _]. exact Hs.
Qed.

End Normalize.

(** ** Computations *)

Lemma rbind_returns {A B} (r : Result A) (f : A -> Result B) b :
  rbind r f = Returns b -> exists a, r = Returns a /\ f a = Returns b.
Proof. destruct r as [a | e]; simpl; [eauto | discriminate]. Qed.

Lemma rmap_returns {A B} (f : A -> Result B) l bs :
  rmap f l = Returns bs -> Forall2 (fun a b => f a = Returns b) l bs.
Proof.
  revert bs. induction l as [| a l IH]; simpl; intros bs H.
  - injection H as <-. constructor.
  - apply rbind_returns in H as (b & Hb & H).
    apply rbind_returns in H as (bs' & Hbs & H).
    injection H as <-. constructor; [exact Hb | apply IH, Hbs].
Qed.

Lemma bind_done {A B} (m : Task A) (f : A -> Task B) h b h' :
  Task.bind m f h = (Done b, h') ->
  exists a h1, m h = (Done a, h1) /\ f a h1 = (Done b, h').
Proof.
  unfold Task.bind. destruct (m h) as [[a | e |] h1]; try discriminate.
  eauto.
Qed.

Lemma ret_done {A} (a b : A) h h' :
  Task.ret a h = (Done b, h') -> a = b /\ h' = h.
Proof. unfold Task.ret. intros [= -> ->]. auto. Qed.

Lemma lift_done {A} (r : Result A) a h h' :
  Task.lift r h = (Done a, h') -> r = Returns a /\ h' = h.
Proof.
  destruct r as [x | e]; simpl; [| discriminate].
  intros [= -> ->]. auto.
Qed.

Lemma request_done {A} ev (answer : History -> Result A) a h h' :
  Task.request ev answer h = (Done a, h') ->
  answer h = Returns a /\ h' = h ++ [ev].
Proof.
  unfold Task.request. destruct (answer h); [| discriminate].
  intros [= -> ->]. auto.
Qed.

Lemma send_done w cmd out h h' :
  send w cmd h = (Done out, h') ->
  dynamo_send w h cmd = Returns out /\ h' = h ++ [Sent cmd].
Proof. intros H. unfold send in H. now apply request_done in H. Qed.

Lemma require_done v message table h h' :
  Decoupled.require v message h = (Done table, h') ->
  configured v = Some table /\ h' = h.
Proof.
  unfold Decoupled.require. destruct (configured v); [| discriminate].
  intros [= -> ->]. auto.
Qed.

(** Taking a finished computation apart, one statement at a time. *)
Ltac task_step :=
  match goal with
  | H : Task.bind _ _ _ = (Done _, _) |- _ =>
      apply bind_done in H as (? & ? & ? & H)
  | H : Task.ret _ _ = (Done _, _) |- _ =>
      apply ret_done in H as [? ?]
  | H : Task.lift _ _ = (Done _, _) |- _ =>
      apply lift_done in H as [? ?]
  | H : send _ _ _ = (Done _, _) |- _ =>
      apply send_done in H as [? ?]
  | H : Decoupled.require _ _ _ = (Done _, _) |- _ =>
      apply require_done in H as [? ?]
  end.

(** ** Finite confidences *)

Section Confidence.
Context {rt : Runtime}.

Lemma asNumber_finite v n : Repo.asNumber v = Some n -> Num.isFinite n = true.
Proof.
  unfold Repo.asNumber.
  destruct (Num.isFinite _) eqn:E; [| discriminate].
  now intros [= <-].
Qed.

Lemma asNumber_or_zero_finite v :
  Num.isFinite (Repo.asNumber_or_zero v) = true.
Proof.
  unfold Repo.asNumber_or_zero.
  destruct (Repo.asNumber v) eqn:E; simpl; [| reflexivity].
  eapply asNumber_finite, E.
Qed.

Lemma mapLogoMapping_finite item d :
  Decoupled.mapLogoMapping item = Returns d -> finite_detection d.
Proof.
  unfold Decoupled.mapLogoMapping. intros H.
  apply rbind_returns in H as (poly & _ & H). injection H as <-.
  apply asNumber_or_zero_finite.
Qed.

Lemma mapDetection_finite logo d :
  SingleTable.mapDetection logo = Returns (Some d) -> finite_detection d.
Proof.
  unfold SingleTable.mapDetection. intros H.
  apply rbind_returns in H as (vname & _ & H).
  apply rbind_returns in H as (vdisplay & _ & H).
  destruct (negb _); [discriminate |].
  repeat (apply rbind_returns in H as (? & _ & H)).
  injection H as <-. apply asNumber_or_zero_finite.
Qed.

Lemma single_mapPhotoItem_finite env item p :
  SingleTable.mapPhotoItem env item = Returns p -> finite_record p.
Proof.
  unfold SingleTable.mapPhotoItem. intros H.
  apply rbind_returns in H as (ds & Hds & H). injection H as <-.
  split; [| discriminate]. simpl.
  destruct (Val.field item "detections"); try (injection Hds as <-; constructor).
  apply rbind_returns in Hds as (l & Hl & Hds). injection Hds as <-.
  apply rmap_returns in Hl. clear - Hl.
  induction Hl as [| logo o elems l Ho _ IH]; simpl; [constructor |].
  destruct o as [d |]; simpl; [| exact IH].
  constructor; [eapply mapDetection_finite, Ho | exact IH].
Qed.

End Confidence.

(** ** Comparing finite Numbers *)

Lemma gt_Finite a b : Num.gt (Finite a) (Finite b) = true <-> (b < a)%Q.
Proof.
  simpl. rewrite (Qgt_alt a b).
  destruct (a ?= b)%Q; split; intros H; congruence.
Qed.

Lemma gt_irrefl c : Num.gt c c = false.
Proof.
  destruct c as [| [] | q]; try reflexivity.
  destruct (Num.gt (Finite q) (Finite q)) eqn:E; [| reflexivity].
  apply gt_Finite in E. now apply Qlt_irrefl in E.
Qed.

Lemma gt_finite_trans a b c :
  Num.isFinite a = true -> Num.isFinite b = true -> Num.isFinite c = true ->
  Num.gt a b = true -> Num.gt b c = true -> Num.gt a c = true.
Proof.
  destruct a as [| |a], b as [| |b], c as [| |c]; try discriminate.
  intros _ _ _. rewrite !gt_Finite. intros H1 H2.
  eapply Qlt_trans; eassumption.
Qed.

Lemma gt_finite_total a b c :
  Num.isFinite a = true -> Num.isFinite b = true -> Num.isFinite c = true ->
  Num.gt a b = false -> Num.gt b c = false -> Num.gt a c = false.
Proof.
  destruct a as [| |a], b as [| |b], c as [| |c]; try discriminate.
  intros _ _ _ H1 H2.
  destruct (Num.gt (Finite a) (Finite c)) eqn:E; [| reflexivity].
  apply gt_Finite in E.
  assert (Hab : ~ (b < a)%Q) by (rewrite <- gt_Finite, H1; discriminate).
  assert (Hbc : ~ (c < b)%Q) by (rewrite <- gt_Finite, H2; discriminate).
  apply Qnot_lt_le in Hab, Hbc.
  exfalso. eapply Qlt_irrefl, Qlt_le_trans; [exact E |].
  eapply Qle_trans; eassumption.
Qed.

(** ** The loop that collects photo ids and confidences *)

Lemma includes_spec x l : includes x l = true <-> In x l.
Proof.
  unfold includes. rewrite bool_decide_eq_true. apply list_elem_of_In.
Qed.

Lemma first_occurrences_from_In seen l x :
  In x (first_occurrences_from seen l) -> In x l /\ ~ In x seen.
Proof.
  revert seen. induction l as [| y l IH]; simpl; intros seen H; [easy |].
  destruct (includes y seen) eqn:E.
  - apply IH in H as [H1 H2]. auto.
  - destruct H as [<- | H].
    + split; [now left |]. rewrite <- includes_spec, E. discriminate.
    + apply IH in H as [H1 H2]. split; [now right |].
      intros Hs. apply H2, in_or_app. now left.
Qed.

Lemma first_occurrences_from_complete seen l x :
  In x l -> In x seen \/ In x (first_occurrences_from seen l).
Proof.
  revert seen. induction l as [| y l IH]; simpl; intros seen H; [easy |].
  destruct (includes y seen) eqn:E.
  - destruct H as [<- | H]; [left; now apply includes_spec | now apply IH].
  - destruct H as [<- | H]; [right; now left |].
    destruct (IH (seen ++ [y]) H) as [Hs | Hf]; [| right; now right].
    apply in_app_or in Hs as [Hs | [<- | []]]; [now left | right; now left].
Qed.

Lemma first_occurrences_from_NoDup seen l :
  NoDup (first_occurrences_from seen l).
Proof.
  revert seen. induction l as [| y l IH]; simpl; intros seen; [constructor |].
  destruct (includes y seen); [apply IH |].
  constructor; [| apply IH].
  rewrite list_elem_of_In. intros H.
  apply first_occurrences_from_In in H as [_ H].
  apply H, in_or_app. right. now left.
Qed.

Section Tracking.
Context {rt : Runtime}.

Lemma track_all_ids kcs ids m :
  (track_all kcs (ids, m)).1
  = ids ++ first_occurrences_from ids (List.map fst kcs).
Proof.
  revert ids m. induction kcs as [| [k oc] kcs IH]; intros ids m; simpl.
  - now rewrite app_nil_r.
  - unfold track_all in *. simpl.
    destruct (includes k ids); rewrite IH; [reflexivity |].
    now rewrite <- app_assoc.
Qed.

Lemma track_all_confidence photoId kcs ids m :
  (forall k, finite_option (m !! k)) ->
  Forall (fun kc => finite_option kc.2) kcs ->
  match (track_all kcs (ids, m)).2 !! photoId with
  | Some c =>
      Num.isFinite c = true /\
      (m !! photoId = Some c \/ In c (confidences_of photoId kcs)) /\
      (forall e, m !! photoId = Some e -> Num.gt e c = false) /\
      (forall c', In c' (confidences_of photoId kcs) -> Num.gt c' c = false)
  | None => m !! photoId = None /\ confidences_of photoId kcs = []
  end.
Proof.
  revert ids m. induction kcs as [| [k oc] kcs IH]; intros ids m Hm Hk.
  - simpl. destruct (m !! photoId) as [c |] eqn:E; [| auto].
    split; [eapply Hm, E |]. split; [now left |].
    split; [| intros ? []].
    intros e [= <-]. apply gt_irrefl.
  - apply Forall_cons in Hk as [Hoc Hk]. simpl in Hoc.
    unfold track_all. simpl. fold (track_all kcs).
    set (ids' := if includes k ids then ids else ids ++ [k]).
    set (m1 := match oc with
               | Some c =>
                   match m !! k with
                   | Some existing =>
                       if Num.gt c existing then <[k:=c]> m else m
                   | None => <[k:=c]> m
                   end
               | None => m
               end).
    assert (Hm1 : forall k', finite_option (m1 !! k')).
    { intros k' c Hc. subst m1. destruct oc as [c0 |]; [| eapply Hm, Hc].
      assert (Hins : (<[k:=c0]> m) !! k' = Some c -> Num.isFinite c = true).
      { rewrite lookup_insert. case_decide.
        - intros [= <-]. now apply Hoc.
        - apply Hm. }
      destruct (m !! k); [destruct (Num.gt c0 n) |]; auto. eapply Hm, Hc. }
    specialize (IH ids' m1 Hm1 Hk).
    unfold confidences_of. simpl. fold (confidences_of photoId kcs).
    destruct (decide (k = photoId)) as [-> | Hne].
    + (* an item of this photo *)
      subst m1. destruct oc as [c0 |]; [| exact IH].
      pose proof (Hoc _ eq_refl) as Hc0.
      destruct (m !! photoId) as [e |] eqn:Ee.
      * pose proof (Hm _ _ Ee) as He.
        destruct (Num.gt c0 e) eqn:Egt.
        -- rewrite lookup_insert_eq in IH.
           destruct (_.2 !! photoId) as [c |]; [| destruct IH as [IH _]; discriminate].
           destruct IH as (Hc & Hin & Hle & Hrest).
           split; [exact Hc |]. split.
           { right. destruct Hin as [[= <-] | Hin]; [now left | now right]. }
           split.
           { intros e' [= <-].
             destruct (Num.gt e c) eqn:E2; [| reflexivity].
             pose proof (Hle _ eq_refl) as H0.
             rewrite (gt_finite_trans c0 e c) in H0 by auto.
             discriminate. }
           intros c' [<- | Hc']; [now apply Hle | now apply Hrest].
        -- destruct (_.2 !! photoId) as [c |].
           ++ destruct IH as (Hc & Hin & Hle & Hrest).
              rewrite Ee in Hin, Hle.
              split; [exact Hc |]. split.
              { destruct Hin as [Hin | Hin]; [now left | right; now right]. }
              split; [exact Hle |].
              intros c' [<- | Hc']; [| now apply Hrest].
              eapply gt_finite_total; [| exact He | | exact Egt |]; auto.
           ++ destruct IH as [IH _]. congruence.
      * rewrite lookup_insert_eq in IH.
        destruct (_.2 !! photoId) as [c |]; [| destruct IH as [IH _]; discriminate].
        destruct IH as (Hc & Hin & Hle & Hrest).
        split; [exact Hc |]. split.
        { right. destruct Hin as [[= <-] | Hin]; [now left | now right]. }
        split; [discriminate |].
        intros c' [<- | Hc']; [now apply Hle | now apply Hrest].
    + (* an item of another photo *)
      assert (E : m1 !! photoId = m !! photoId).
      { subst m1. destruct oc as [c0 |]; [| reflexivity].
        destruct (m !! k); [destruct (Num.gt c0 n) |];
          rewrite ?lookup_insert_ne by exact Hne; reflexivity. }
      rewrite E in IH. exact IH.
Qed.

End Tracking.

(** ** Building the records of [fetchPhotosByLogo] *)

Lemma Map_of_entries_lookup {V} (entries : list (jsstring * V)) k v :
  Map_of_entries entries !! k = Some v -> In (k, v) entries.
Proof.
  unfold Map_of_entries.
  assert (G : forall m : gmap jsstring V,
             List.fold_left (fun m e => <[e.1:=e.2]> m) entries m !! k = Some v ->
             In (k, v) entries \/ m !! k = Some v).
  { induction entries as [| [k' v'] es IH]; intros m H; simpl in *; [now right |].
    destruct (IH _ H) as [Hin | Hm]; [left; now right |].
    rewrite lookup_insert in Hm. case_decide as E.
    - injection Hm as ->. subst. left. now left.
    - now right. }
  intros H. destruct (G ∅ H) as [Hin | Hm]; [exact Hin |].
  rewrite lookup_empty in Hm. discriminate.
Qed.

Section Assemble.
Context {rt : Runtime}.

Lemma assemble_In ids photoMap logosOf confs p :
  In p (Repo.assemble ids photoMap logosOf confs) ->
  exists photoId photo,
    In photoId ids /\ photoMap !! photoId = Some photo /\
    PhotoRecord.id p = PhotoRecord.id photo /\
    PhotoRecord.logos p = logosOf photoId photo /\
    PhotoRecord.matchConfidence p
    = match confs !! photoId with
      | Some c => Some c
      | None => PhotoRecord.matchConfidence photo
      end.
Proof.
  unfold Repo.assemble.
  induction ids as [| k ids IH]; simpl; [easy |].
  destruct (photoMap !! k) as [photo |] eqn:E.
  - intros [<- | H].
    + exists k, photo. split; [now left |]. split; [exact E |].
      destruct (confs !! k); simpl; auto.
    + destruct (IH H) as (k' & photo' & Hin & Hrest).
      exists k', photo'. split; [now right | exact Hrest].
  - intros H. destruct (IH H) as (k' & photo' & Hin & Hrest).
    exists k', photo'. split; [now right | exact Hrest].
Qed.

Lemma assemble_ids ids photoMap logosOf confs :
  (forall k photo, photoMap !! k = Some photo -> PhotoRecord.id photo = k) ->
  sublist (List.map PhotoRecord.id
             (Repo.assemble ids photoMap logosOf confs)) ids.
Proof.
  intros Hkey. unfold Repo.assemble.
  induction ids as [| k ids IH]; simpl; [constructor |].
  destruct (photoMap !! k) as [photo |] eqn:E; simpl.
  - replace (PhotoRecord.id _) with k.
    + now constructor.
    + destruct (confs !! k); simpl; symmetry; apply (Hkey _ _ E).
  - now constructor.
Qed.

Lemma tracked_ids photoId_of items :
  List.map fst (tracked photoId_of items) = omap photoId_of items.
Proof.
  unfold tracked. induction items as [| item items IH]; simpl; [reflexivity |].
  destruct (photoId_of item); simpl; [f_equal |]; exact IH.
Qed.

Lemma tracked_confidences photoId_of photoId items :
  confidences_of photoId (tracked photoId_of items)
  = confidences_for photoId_of photoId items.
Proof.
  unfold confidences_of, confidences_for, tracked.
  induction items as [| item items IH]; simpl; [reflexivity |].
  destruct (photoId_of item) as [k |] eqn:E; simpl.
  - destruct (decide (k = photoId)) as [-> | Hne].
    + rewrite decide_True by reflexivity.
      destruct (Repo.asNumber _); [f_equal |]; exact IH.
    + rewrite decide_False by congruence. exact IH.
  - exact IH.
Qed.

Lemma tracked_finite photoId_of items :
  Forall (fun kc => finite_option kc.2) (tracked photoId_of items).
Proof.
  unfold tracked. induction items as [| item items IH]; simpl; [constructor |].
  destruct (photoId_of item); [| exact IH].
  constructor; [| exact IH]. intros c Hc. eapply asNumber_finite, Hc.
Qed.

Lemma omap_In {A B} (f : A -> option B) l b :
  In b (omap f l) -> exists a, In a l /\ f a = Some b.
Proof.
  induction l as [| a l IH]; simpl; [easy |].
  destruct (f a) as [b' |] eqn:E.
  - intros [<- | H]; [exists a; auto |].
    destruct (IH H) as (a' & ? & ?). eauto.
  - intros H. destruct (IH H) as (a' & ? & ?). eauto.
Qed.

(** The records assembled from the ids and confidences that the loop
    collects are deduplicated, in first-occurrence order, and carry the
    greatest confidence of their photo. *)
Lemma assemble_deduplicated photoId_of items photoMap logosOf :
  let st := track_all (tracked photoId_of items) ([], ∅) in
  (forall k photo, photoMap !! k = Some photo ->
     PhotoRecord.id photo = k /\ PhotoRecord.matchConfidence photo = None) ->
  deduplicated photoId_of items
    (Repo.assemble st.1 photoMap logosOf st.2).
Proof.
  intros st Hkey.
  assert (Hids : st.1 = first_occurrences (omap photoId_of items)).
  { subst st. rewrite track_all_ids, tracked_ids. reflexivity. }
  assert (Hsub : sublist (List.map PhotoRecord.id
                            (Repo.assemble st.1 photoMap logosOf st.2)) st.1).
  { apply assemble_ids. intros k photo H. now apply Hkey. }
  assert (Hconf : forall photoId,
             match st.2 !! photoId with
             | Some c => max_among (confidences_for photoId_of photoId items) c
             | None => confidences_for photoId_of photoId items = []
             end).
  { intros photoId. subst st.
    pose proof (track_all_confidence photoId (tracked photoId_of items) [] ∅)
      as H.
    rewrite tracked_confidences in H.
    destruct (_.2 !! photoId) as [c |].
    - destruct H as (_ & Hin & _ & Hmax).
      + intros k c'. rewrite lookup_empty. discriminate.
      + apply tracked_finite.
      + split; [| exact Hmax].
        destruct Hin as [Hin | Hin]; [| exact Hin].
        rewrite lookup_empty in Hin. discriminate.
    - apply H; [| apply tracked_finite].
      intros k c'. rewrite lookup_empty. discriminate. }
  assert (Hp : forall p, In p (Repo.assemble st.1 photoMap logosOf st.2) ->
             In (PhotoRecord.id p) st.1 /\
             PhotoRecord.matchConfidence p = st.2 !! PhotoRecord.id p).
  { intros p H. apply assemble_In in H as (k & photo & Hin & Hl & Hid & _ & Hm).
    destruct (Hkey _ _ Hl) as [Hk Hnone]. rewrite Hid, Hk.
    split; [exact Hin |]. rewrite Hm, Hnone. now destruct (st.2 !! k). }
  split.
  - eapply sublist_NoDup; [| exact Hsub].
    rewrite Hids. apply first_occurrences_from_NoDup.
  - now rewrite <- Hids.
  - intros p H. destruct (Hp p H) as [Hin _]. rewrite Hids in Hin.
    apply first_occurrences_from_In in Hin as [Hin _].
    apply omap_In in Hin as (item & ? & ?). eauto.
  - intros p c H Hc. destruct (Hp p H) as [_ Hm].
    specialize (Hconf (PhotoRecord.id p)). rewrite <- Hm, Hc in Hconf.
    exact Hconf.
  - intros p H Hnone. destruct (Hp p H) as [_ Hm].
    specialize (Hconf (PhotoRecord.id p)). rewrite <- Hm, Hnone in Hconf.
    exact Hconf.
Qed.

End Assemble.

Lemma configured_Some v s :
  configured v = Some s -> v = Some s /\ s <> [].
Proof.
  unfold configured. destruct v as [t |]; [| discriminate].
  destruct t; simpl; [discriminate |]. intros [= <-]. split; [reflexivity | discriminate].
Qed.

(** ** [fetchPhotosByLogo] *)

Section FetchPhotosByLogo.
Context {rt : Runtime} (env : Env) (w : World).

Lemma deduplicated_nil photoId_of items : deduplicated photoId_of items [].
Proof.
  split; simpl; try easy; [constructor | apply sublist_nil_l].
Qed.

Lemma collect_tracked items st :
  List.fold_left Decoupled.collect_step items st
  = track_all (tracked decoupled_photoId items) st.
Proof.
  revert st. unfold track_all, tracked.
  induction items as [| item items IH]; intros st; simpl; [reflexivity |].
  unfold Decoupled.collect_step at 2. unfold decoupled_photoId at 1.
  destruct (configured _); simpl; apply IH.
Qed.

Lemma single_collect_tracked items st :
  List.fold_left SingleTable.collect_step items st
  = track_all (tracked SingleTable.mapping_photoId items) st.
Proof.
  revert st. unfold track_all, tracked.
  induction items as [| item items IH]; intros st; simpl; [reflexivity |].
  unfold SingleTable.collect_step at 2.
  destruct (SingleTable.mapping_photoId item); simpl; apply IH.
Qed.

Lemma photo_entries_key photoItems k photo :
  Map_of_entries (Decoupled.photo_entries env photoItems) !! k = Some photo ->
  PhotoRecord.id photo = k /\ PhotoRecord.matchConfidence photo = None /\
  PhotoRecord.logos photo = [].
Proof.
  intros H. apply Map_of_entries_lookup in H.
  unfold Decoupled.photo_entries in H.
  apply omap_In in H as (item & _ & H).
  destruct (configured _) as [photoId |] eqn:E; [| discriminate].
  injection H as -> <-. apply configured_Some in E as [E _].
  unfold Decoupled.mapPhotoItem. simpl. now rewrite E.
Qed.

Lemma photoLogos_finite items ids m m' :
  Decoupled.photoLogos items ids m = Returns m' ->
  (forall k l, m !! k = Some l -> Forall finite_detection l) ->
  forall k l, m' !! k = Some l -> Forall finite_detection l.
Proof.
  revert m. induction ids as [| photoId ids IH]; simpl; intros m H Hm.
  - injection H as <-. exact Hm.
  - apply rbind_returns in H as (l0 & Hl0 & H).
    apply (IH _ H). intros k l. rewrite lookup_insert. case_decide.
    + intros [= <-]. unfold Decoupled.logosForPhoto in Hl0.
      apply rmap_returns in Hl0. clear - Hl0.
      induction Hl0 as [| item d ? ? Hd _ IH']; constructor; [| exact IH'].
      eapply mapLogoMapping_finite, Hd.
    + apply Hm.
Qed.

Lemma decoupled_fetchPhotosByLogo_run q h photos h' :
  Decoupled.fetchPhotosByLogo env w q h = (Done photos, h') ->
  exists table queried,
    configured (DYNAMO_PHOTO_LOGOS_TABLE env) = Some table /\
    dynamo_send w h (QueryCommand table "logoSlug" (Dynamo.normalizeLogoName q))
    = Returns queried /\
    deduplicated decoupled_photoId (default [] (Items queried)) photos /\
    Forall finite_record photos.
Proof.
  unfold Decoupled.fetchPhotosByLogo. intros H.
  repeat task_step. subst.
  match goal with Hq : dynamo_send _ _ _ = Returns ?o |- _ =>
    rename o into queried end.
  eexists _, queried. do 2 (split; [eassumption |]).
  destruct (Items queried) as [[| item items] |] eqn:Ei;
    try (task_step; subst; split; [apply deduplicated_nil | constructor]).
  set (mappingItems := item :: items) in *.
  unfold Decoupled.collect in H. rewrite collect_tracked in H.
  pose proof (assemble_deduplicated decoupled_photoId mappingItems) as Hded.
  cbv zeta in Hded.
  pose proof (track_all_confidence) as Hfin.
  destruct (track_all _ _) as [ids confs] eqn:Est.
  destruct ids as [| photoId ids].
  { task_step. subst. split; [apply deduplicated_nil | constructor]. }
  repeat task_step. subst. cbn [fst snd] in Hded.
  split.
  - apply Hded. intros k photo Hk.
    apply photo_entries_key in Hk as (? & ? & ?). auto.
  - apply Forall_forall. intros p Hp. apply list_elem_of_In in Hp.
    apply assemble_In in Hp as (k & photo & _ & Hk & _ & Hlogos & Hconf).
    apply photo_entries_key in Hk as (_ & Hnone & _).
    split.
    + rewrite Hlogos.
      match goal with |- context [?m !! k] =>
        destruct (m !! k) as [l |] eqn:El end; simpl; [| constructor].
      eapply photoLogos_finite; [eassumption | | exact El].
      intros k' l'. rewrite lookup_empty. discriminate.
    + intros c Hc. rewrite Hconf, Hnone in Hc.
      assert (Hempty : forall k', finite_option ((∅ : gmap jsstring number) !! k')).
      { intros k' c'. rewrite lookup_empty. discriminate. }
      pose proof (Hfin k (tracked decoupled_photoId mappingItems) [] ∅
                    Hempty (tracked_finite _ _)) as Hf.
      rewrite Est in Hf. simpl in Hf.
      destruct (confs !! k) as [c' |]; [| discriminate].
      injection Hc as ->. apply Hf.
Qed.

End FetchPhotosByLogo.

Lemma rmap_In {A B} (f : A -> Result B) l bs b :
  rmap f l = Returns bs -> In b bs -> exists a, In a l /\ f a = Returns b.
Proof.
  intros H. apply rmap_returns in H.
  induction H as [| a b' l bs Hab _ IH]; simpl; [easy |].
  intros [<- | Hin]; [eauto |].
  destruct (IH Hin) as (a' & ? & ?). eauto.
Qed.

Section FetchPhotosByLogoSingle.
Context {rt : Runtime} (env : Env) (w : World).

Lemma single_photo_entries_key photoItems entries k photo :
  SingleTable.photo_entries env photoItems = Returns entries ->
  Map_of_entries entries !! k = Some photo ->
  PhotoRecord.id photo = k /\ PhotoRecord.matchConfidence photo = None /\
  finite_record photo.
Proof.
  unfold SingleTable.photo_entries. intros He H.
  apply Map_of_entries_lookup in H.
  apply rbind_returns in He as (l & Hl & He). injection He as <-.
  apply omap_In in H as (o & Ho & ->).
  destruct (rmap_In _ _ _ _ Hl Ho) as (item & _ & Hitem).
  unfold SingleTable.photo_entry in Hitem.
  destruct (configured _) as [sortKey |] eqn:E; [| discriminate].
  apply rbind_returns in Hitem as (p & Hp & Hitem).
  injection Hitem as -> ->. apply configured_Some in E as [E _].
  split; [| split].
  - unfold SingleTable.mapPhotoItem in Hp.
    apply rbind_returns in Hp as (ds & _ & Hp). injection Hp as <-.
    simpl. now rewrite E.
  - unfold SingleTable.mapPhotoItem in Hp.
    apply rbind_returns in Hp as (ds & _ & Hp). now injection Hp as <-.
  - eapply single_mapPhotoItem_finite, Hp.
Qed.

Lemma getTableName_done t table h h' :
  Task.lift (Dynamo.getTableName env t) h = (Done table, h') ->
  Dynamo.getTableName env t = Returns table /\ h' = h.
Proof. apply lift_done. Qed.

Lemma single_fetchPhotosByLogo_run q h photos h' :
  SingleTable.fetchPhotosByLogo env w q h = (Done photos, h') ->
  exists table queried,
    Dynamo.getTableName env Dynamo.photo_logos = Returns table /\
    dynamo_send w h
      (QueryCommand table "PK" (js "LOGO#" ++ Dynamo.normalizeLogoName q))
    = Returns queried /\
    deduplicated SingleTable.mapping_photoId (default [] (Items queried))
      photos /\
    Forall finite_record photos.
Proof.
  unfold SingleTable.fetchPhotosByLogo. intros H.
  repeat task_step. subst.
  match goal with Hq : dynamo_send _ _ _ = Returns ?o |- _ =>
    rename o into queried end.
  eexists _, queried. do 2 (split; [eassumption |]).
  destruct (default [] (Items queried)) as [| item items] eqn:Ei.
  { task_step; subst; split; [apply deduplicated_nil | constructor]. }
  set (mappings := item :: items) in *.
  unfold SingleTable.collect in H. rewrite single_collect_tracked in H.
  pose proof (assemble_deduplicated SingleTable.mapping_photoId mappings)
    as Hded.
  cbv zeta in Hded.
  pose proof (track_all_confidence) as Hfin.
  destruct (track_all _ _) as [ids confs] eqn:Est.
  destruct ids as [| photoId ids].
  { task_step. subst. split; [apply deduplicated_nil | constructor]. }
  repeat task_step. subst. cbn [fst snd] in Hded.
  split.
  - apply Hded. intros k photo Hk.
    eapply single_photo_entries_key in Hk as (? & ? & ?); [| eassumption].
    auto.
  - apply Forall_forall. intros p Hp. apply list_elem_of_In in Hp.
    apply assemble_In in Hp as (k & photo & _ & Hk & _ & Hlogos & Hconf).
    eapply single_photo_entries_key in Hk as (_ & Hnone & Hrec);
      [| eassumption].
    split.
    + rewrite Hlogos. apply Hrec.
    + intros c Hc. rewrite Hconf, Hnone in Hc.
      assert (Hempty : forall k', finite_option ((∅ : gmap jsstring number) !! k')).
      { intros k' c'. rewrite lookup_empty. discriminate. }
      pose proof (Hfin k (tracked SingleTable.mapping_photoId mappings) [] ∅
                    Hempty (tracked_finite _ _)) as Hf.
      rewrite Est in Hf. simpl in Hf.
      destruct (confs !! k) as [c' |]; [| discriminate].
      injection Hc as ->. apply Hf.
Qed.

End FetchPhotosByLogoSingle.

Lemma database_serves store b : serves (SampleData.world store b) store.
Proof.
  intros h cmd out H. destruct cmd; simpl in *; try exact I;
    injection H as <-; simpl.
  - intros items item [= <-] Hin. exact Hin.
  - intros items item [= <-] Hin.
    apply filter_In in Hin as [Hin Hk]. split; [exact Hin |].
    destruct (Val.field item keyName); try discriminate.
    apply bool_decide_eq_true in Hk. now subst.
  - intros items item. rewrite decide_True by reflexivity.
    intros [= <-] Hin. apply filter_In in Hin as [Hin Hk].
    split; [exact Hin |].
    apply existsb_exists in Hk as (key & Hkey & Hk).
    exists key. split; [exact Hkey |].
    intros k v Hkv. unfold Sample.has_key in Hk.
    rewrite forallb_forall in Hk. specialize (Hk _ Hkv). simpl in Hk.
    destruct v; try discriminate.
    destruct (Val.field item k); try discriminate.
    apply bool_decide_eq_true in Hk. now subst.
Qed.

Section ClaimsFetchPhotosByLogo.
Context {rt : Runtime}.

(** C1: [fetchPhotosByLogo] returns only photos that the mapping table
    holds under the queried slug.  Over a database that answers reads
    from [store], every record returned for [q] has the photo id of an
    item of the mapping table whose partition key is the normalised [q]
    ([logoSlug] in the three-table design, [PK = LOGO#slug] in the
    single-table one); and when the query yields no mapping items the
    function returns the empty list after that one query. *)
Theorem fetchPhotosByLogo_only_mapped_photos env w store q h
  (Hserves : serves w store) :
  let slug := Dynamo.normalizeLogoName q in
  (forall photos h',
     Decoupled.fetchPhotosByLogo env w q h = (Done photos, h') ->
     exists table,
       configured (DYNAMO_PHOTO_LOGOS_TABLE env) = Some table /\
       forall p, In p photos ->
         exists item,
           In item (store table) /\
           Val.field item "logoSlug" = VString slug /\
           decoupled_photoId item = Some (PhotoRecord.id p)) /\
  (forall photos h',
     SingleTable.fetchPhotosByLogo env w q h = (Done photos, h') ->
     exists table,
       Dynamo.getTableName env Dynamo.photo_logos = Returns table /\
       forall p, In p photos ->
         exists item,
           In item (store table) /\
           Val.field item "PK" = VString (js "LOGO#" ++ slug) /\
           SingleTable.mapping_photoId item = Some (PhotoRecord.id p)) /\
  (forall photosTable table queried,
     configured (DYNAMO_PHOTOS_TABLE env) = Some photosTable ->
     configured (DYNAMO_PHOTO_LOGOS_TABLE env) = Some table ->
     dynamo_send w h (QueryCommand table "logoSlug" slug) = Returns queried ->
     default [] (Items queried) = [] ->
     Decoupled.fetchPhotosByLogo env w q h
     = (Done [], h ++ [Sent (QueryCommand table "logoSlug" slug)])) /\
  (forall table queried,
     Dynamo.getTableName env Dynamo.photo_logos = Returns table ->
     dynamo_send w h (QueryCommand table "PK" (js "LOGO#" ++ slug))
     = Returns queried ->
     default [] (Items queried) = [] ->
     SingleTable.fetchPhotosByLogo env w q h
     = (Done [], h ++ [Sent (QueryCommand table "PK" (js "LOGO#" ++ slug))])).
Proof.
  intros slug. repeat split.
  - intros photos h' H.
    apply decoupled_fetchPhotosByLogo_run in H
      as (table & queried & Ht & Hq & Hded & _).
    exists table. split; [exact Ht |]. intros p Hp.
    destruct (ids_mapped _ _ _ Hded p Hp) as (item & Hitem & Hid).
    exists item. specialize (Hserves _ _ _ Hq). simpl in Hserves.
    destruct (Items queried) as [items |] eqn:Ei; [| destruct Hitem].
    destruct (Hserves items item eq_refl Hitem). auto.
  - intros photos h' H.
    apply single_fetchPhotosByLogo_run in H
      as (table & queried & Ht & Hq & Hded & _).
    exists table. split; [exact Ht |]. intros p Hp.
    destruct (ids_mapped _ _ _ Hded p Hp) as (item & Hitem & Hid).
    exists item. specialize (Hserves _ _ _ Hq). simpl in Hserves.
    destruct (Items queried) as [items |] eqn:Ei; [| destruct Hitem].
    destruct (Hserves items item eq_refl Hitem). auto.
  - intros photosTable table queried Hp Ht Hq Hnone.
    unfold Decoupled.fetchPhotosByLogo, Decoupled.require, Task.bind.
    rewrite Hp, Ht. simpl. unfold send, Task.request. fold slug.
    rewrite Hq. destruct (Items queried) as [[| ? ?] |];
      try reflexivity; discriminate.
  - intros table queried Ht Hq Hnone.
    unfold SingleTable.fetchPhotosByLogo, Task.bind.
    rewrite Ht. subst slug. unfold send, Task.request.
    simpl in Hq |- *. rewrite Hq, Hnone. reflexivity.
Qed.

(** C9: the records [fetchPhotosByLogo] returns are deduplicated by photo
    id, in the order in which the ids first occur in the mapping items of
    the query, and a match confidence, when present, is a greatest finite
    confidence among the mapping items of its photo. *)
Theorem fetchPhotosByLogo_deduplicated env w q h :
  let slug := Dynamo.normalizeLogoName q in
  (forall photos h',
     Decoupled.fetchPhotosByLogo env w q h = (Done photos, h') ->
     exists table queried,
       configured (DYNAMO_PHOTO_LOGOS_TABLE env) = Some table /\
       dynamo_send w h (QueryCommand table "logoSlug" slug)
       = Returns queried /\
       deduplicated decoupled_photoId (default [] (Items queried)) photos) /\
  (forall photos h',
     SingleTable.fetchPhotosByLogo env w q h = (Done photos, h') ->
     exists table queried,
       Dynamo.getTableName env Dynamo.photo_logos = Returns table /\
       dynamo_send w h (QueryCommand table "PK" (js "LOGO#" ++ slug))
       = Returns queried /\
       deduplicated SingleTable.mapping_photoId (default [] (Items queried))
         photos).
Proof.
  intros slug. split; intros photos h' H.
  - apply decoupled_fetchPhotosByLogo_run in H
      as (table & queried & Ht & Hq & Hded & _).
    exists table, queried. auto.
  - apply single_fetchPhotosByLogo_run in H
      as (table & queried & Ht & Hq & Hded & _).
    exists table, queried. auto.
Qed.

End ClaimsFetchPhotosByLogo.

(** ** The sample engine obeys the laws *)

Section InsertionSort.
Context {A : Type} (cmp : A -> A -> number).

Lemma insert_Permutation x l : Permutation (Sample.insert cmp x l) (x :: l).
Proof.
  induction l as [| y l IH]; simpl; [reflexivity |].
  destruct (_ <? 0)%Z; [| reflexivity].
  rewrite IH. apply perm_swap.
Qed.

Lemma insertion_sort_Permutation l :
  Permutation (Sample.insertion_sort cmp l) l.
Proof.
  unfold Sample.insertion_sort. rewrite <- Permutation_rev.
  assert (G : forall acc,
             Permutation
               (List.fold_left (fun s x => Sample.insert cmp x s) l acc)
               (l ++ acc)).
  { induction l as [| x l IH]; intros acc; simpl; [reflexivity |].
    rewrite IH, insert_Permutation. symmetry. apply Permutation_middle. }
  rewrite G. now rewrite app_nil_r.
Qed.

Lemma insert_sorted L x l :
  consistent_comparator cmp L -> In x L -> (forall y, In y l -> In y L) ->
  StronglySorted (after cmp) l ->
  StronglySorted (after cmp) (Sample.insert cmp x l).
Proof.
  intros (_ & Hanti & Htrans) Hx. unfold after.
  induction l as [| y l IH]; intros Hl Hs; simpl.
  - constructor; constructor.
  - apply StronglySorted_inv in Hs as [Hs Hy].
    assert (HyL : In y L) by (apply Hl; now left).
    destruct (Z.ltb_spec (Num.sort_sign (cmp x y)) 0) as [Hlt | Hge].
    + constructor.
      * apply IH; [| exact Hs]. intros z Hz. apply Hl. now right.
      * rewrite Forall_forall in Hy |- *. intros z Hz.
        apply list_elem_of_In in Hz.
        apply (Permutation_in _ (insert_Permutation x l)) in Hz.
        destruct Hz as [<- | Hz]; [lia |].
        apply Hy. now apply list_elem_of_In.
    + constructor; [now constructor |].
      assert (Hyx : Num.sort_sign (cmp y x) <= 0).
      { rewrite (Hanti y x) by assumption. lia. }
      constructor; [exact Hyx |].
      rewrite Forall_forall in Hy |- *. intros z Hz.
      apply (Htrans z y x); auto.
      apply Hl. right. now apply list_elem_of_In.
Qed.

Lemma StronglySorted_rev_after l :
  StronglySorted (after cmp) l ->
  StronglySorted (fun a b => Num.sort_sign (cmp a b) <= 0) (List.rev l).
Proof.
  induction 1 as [| a l Hs IH Ha]; simpl; [constructor |].
  apply StronglySorted_app_2; [| exact IH | repeat constructor].
  intros x1 x2 H1 H2. apply list_elem_of_In in H1, H2.
  destruct H2 as [<- | []]. apply in_rev in H1.
  rewrite Forall_forall in Ha. apply Ha. now apply list_elem_of_In.
Qed.

Lemma insertion_sort_sorted l :
  consistent_comparator cmp l ->
  StronglySorted (fun a b => Num.sort_sign (cmp a b) <= 0)
    (Sample.insertion_sort cmp l).
Proof.
  intros Hc. unfold Sample.insertion_sort. apply StronglySorted_rev_after.
  assert (G : forall todo acc,
             (forall y, In y todo -> In y l) ->
             (forall y, In y acc -> In y l) ->
             StronglySorted (after cmp) acc ->
             StronglySorted (after cmp)
               (List.fold_left (fun s x => Sample.insert cmp x s) todo acc)).
  { induction todo as [| x todo IH]; intros acc Ht Ha Hs; simpl; [exact Hs |].
    apply IH.
    - intros y Hy. apply Ht. now right.
    - intros y Hy.
      apply (Permutation_in _ (insert_Permutation x acc)) in Hy.
      destruct Hy as [<- | Hy]; [apply Ht; now left | now apply Ha].
    - eapply insert_sorted; eauto. apply Ht. now left. }
  apply G; [auto | intros y [] | constructor].
Qed.

End InsertionSort.

Lemma sample_laws : RuntimeLaws Sample.runtime.
Proof.
  split.
  - intros s Hs. simpl.
    induction Hs as [| u s Hu _ IH]; simpl; [reflexivity |].
    rewrite IH. f_equal. unfold Sample.lower_unit.
    replace (Str.is_upper u) with false; [reflexivity |].
    symmetry. apply in_range_out.
    destruct Hu as [Hu | ->]; [| left; reflexivity].
    apply lower_alnum_spec in Hu. lia.
  - intros A cmp l. apply insertion_sort_Permutation.
  - intros A cmp l. apply insertion_sort_sorted.
Qed.

(** ** [fetchAllPhotos] *)

Lemma sort_sign_sub a b :
  Num.sort_sign (Num.sub (Finite a) (Finite b))
  = - Num.sort_sign (Num.sub (Finite b) (Finite a)).
Proof.
  simpl.
  destruct (Qcompare_spec (a - b) 0) as [E | E | E];
    destruct (Qcompare_spec (b - a) 0) as [E' | E' | E'];
    try reflexivity; exfalso; lra.
Qed.

Lemma sort_sign_sub_le a b :
  Num.sort_sign (Num.sub (Finite a) (Finite b)) <= 0 <-> (a <= b)%Q.
Proof.
  simpl. destruct (Qcompare_spec (a - b) 0) as [E | E | E];
    split; intros H; try lia; try lra.
Qed.

Section FetchAllPhotos.
Context {rt : Runtime} (laws : RuntimeLaws rt).

Lemma comparePhotos_dated a b ta tb :
  creation_time a = Some ta -> creation_time b = Some tb ->
  Repo.comparePhotos a b = Num.sub (Finite tb) (Finite ta).
Proof.
  unfold creation_time, Repo.comparePhotos.
  destruct (PhotoRecord.createdAt a) as [ca |]; [| discriminate].
  destruct (PhotoRecord.createdAt b) as [cb |]; [| now destruct (Str.truthy ca)].
  destruct (Str.truthy ca); [| discriminate].
  destruct (Str.truthy cb); [| now destruct (Date_getTime ca)].
  destruct (Date_getTime ca); try discriminate.
  destruct (Date_getTime cb); try discriminate.
  now intros [= ->] [= ->].
Qed.

Lemma comparePhotos_consistent l :
  (forall p, In p l -> exists t, creation_time p = Some t) ->
  consistent_comparator Repo.comparePhotos l.
Proof.
  intros Hl. split; [| split].
  - intros a b Ha Hb.
    destruct (Hl a Ha) as [ta Hta], (Hl b Hb) as [tb Htb].
    rewrite (comparePhotos_dated a b ta tb) by assumption. discriminate.
  - intros a b Ha Hb.
    destruct (Hl a Ha) as [ta Hta], (Hl b Hb) as [tb Htb].
    rewrite (comparePhotos_dated a b ta tb), (comparePhotos_dated b a tb ta)
      by assumption.
    apply sort_sign_sub.
  - intros a b c Ha Hb Hc.
    destruct (Hl a Ha) as [ta Hta], (Hl b Hb) as [tb Htb],
             (Hl c Hc) as [tc Htc].
    rewrite (comparePhotos_dated a b ta tb), (comparePhotos_dated b c tb tc),
      (comparePhotos_dated a c ta tc) by assumption.
    rewrite !sort_sign_sub_le. intros. lra.
Qed.

(** Sorting records that all have a creation time puts them newest
    first. *)
Lemma sort_newest_first l :
  (forall p, In p l -> exists t, creation_time p = Some t) ->
  newest_first (Array_sort Repo.comparePhotos l).
Proof.
  intros Hl.
  pose proof (sort_sorted rt laws _ _ l (comparePhotos_consistent l Hl)) as Hs.
  pose proof (sort_permutation rt laws _ Repo.comparePhotos l) as Hp.
  assert (Hl' : forall p, In p (Array_sort Repo.comparePhotos l) ->
                  exists t, creation_time p = Some t).
  { intros p H. apply Hl. eapply Permutation_in; eassumption. }
  clear Hl Hp. revert Hs Hl'.
  generalize (Array_sort Repo.comparePhotos l). clear l.
  intros l Hs Hl i. revert l Hs Hl.
  induction i as [| i IH]; intros [| a [| b l]] Hs Hl p q Hp Hq;
    try discriminate.
  - injection Hp as <-. injection Hq as <-.
    destruct (Hl a) as [ta Hta]; [now left |].
    destruct (Hl b) as [tb Htb]; [right; now left |].
    exists ta, tb. do 2 (split; [assumption |]).
    apply StronglySorted_inv in Hs as [_ Hs].
    apply Forall_cons in Hs as [Hs _].
    rewrite (comparePhotos_dated a b ta tb) in Hs by assumption.
    now apply sort_sign_sub_le in Hs.
  - apply StronglySorted_inv in Hs as [Hs _].
    apply (IH (b :: l) Hs); [| exact Hp | exact Hq].
    intros r Hr. apply Hl. now right.
Qed.

Lemma copied_creation_time id_of item p :
  copied id_of item p -> dated item -> exists t, creation_time p = Some t.
Proof.
  intros [_ Hc] (s & t & Hs & Hne & Ht). unfold creation_time.
  rewrite Hc, Hs, Ht. destruct s; [contradiction | eauto].
Qed.

Lemma push_logo_copied id_of items i d photos :
  Forall2 (copied id_of) items photos ->
  Forall2 (copied id_of) items (Decoupled.push_logo i d photos).
Proof.
  intros H. revert i. unfold Decoupled.push_logo.
  induction H as [| item p items photos Hp Hrest IH]; intros i; [constructor |].
  destruct i as [| i]; simpl; constructor;
    [split; apply Hp | exact Hrest | exact Hp | apply IH].
Qed.

Lemma group_logos_copied id_of items mappingItems photos photos' :
  Decoupled.group_logos mappingItems photos = Returns photos' ->
  Forall2 (copied id_of) items photos ->
  Forall2 (copied id_of) items photos'.
Proof.
  revert photos.
  induction mappingItems as [| m ms IH]; simpl; intros photos H Hc.
  - now injection H as <-.
  - destruct (configured _); [| eauto].
    destruct (Decoupled.last_with_id _ _); [| eauto].
    apply rbind_returns in H as (d & _ & H).
    eapply IH; [exact H |]. now apply push_logo_copied.
Qed.

Lemma Forall2_copied_In id_of items photos p :
  Forall2 (copied id_of) items photos -> In p photos ->
  exists item, In item items /\ copied id_of item p.
Proof.
  induction 1 as [| item q items photos Hq _ IH]; simpl; [easy |].
  intros [<- | Hin]; [eauto |].
  destruct (IH Hin) as (item' & ? & ?). eauto.
Qed.

(** What a finished [fetchAllPhotos] of the three-table repository did:
    it scanned the photos table and returned nothing when the scan was
    empty, and otherwise the sorted records of the scanned items. *)
Lemma decoupled_fetchAllPhotos_run env w h photos h' :
  Decoupled.fetchAllPhotos env w h = (Done photos, h') ->
  exists table scanned,
    configured (DYNAMO_PHOTOS_TABLE env) = Some table /\
    dynamo_send w h (ScanCommand table) = Returns scanned /\
    ((default [] (Items scanned) = [] /\ photos = []) \/
     exists photos0,
       Forall2 (copied decoupled_id) (default [] (Items scanned)) photos0 /\
       photos = Array_sort Repo.comparePhotos photos0).
Proof.
  unfold Decoupled.fetchAllPhotos. intros H. repeat task_step. subst.
  match goal with Hq : dynamo_send _ _ (ScanCommand _) = Returns ?o |- _ =>
    rename o into scanned end.
  eexists _, scanned. do 2 (split; [eassumption |]).
  destruct (Items scanned) as [[| item items] |] eqn:Ei;
    try (task_step; subst; left; now split).
  repeat task_step. subst. right. eexists. split; [| reflexivity].
  eapply group_logos_copied; [eassumption |].
  assert (G : forall l,
             Forall2 (copied decoupled_id) l
               (List.map (Decoupled.mapPhotoItem env) l)).
  { induction l; simpl; constructor; [now split | assumption]. }
  apply G.
Qed.

Lemma single_fetchAllPhotos_run env w h photos h' :
  SingleTable.fetchAllPhotos env w h = (Done photos, h') ->
  exists table scanned photos0,
    Dynamo.getTableName env Dynamo.photos = Returns table /\
    dynamo_send w h (ScanCommand table) = Returns scanned /\
    Forall2 (copied single_id) (default [] (Items scanned)) photos0 /\
    photos = Array_sort Repo.comparePhotos photos0.
Proof.
  unfold SingleTable.fetchAllPhotos. intros H. repeat task_step. subst.
  match goal with Hq : dynamo_send _ _ (ScanCommand _) = Returns ?o |- _ =>
    rename o into scanned end.
  eexists _, scanned, _. do 2 (split; [eassumption |]).
  split; [| reflexivity].
  match goal with Hm : rmap _ _ = Returns _ |- _ =>
    apply rmap_returns in Hm; induction Hm as [| item p ? ? Hp _ IH] end;
    constructor; [| exact IH].
  unfold SingleTable.mapPhotoItem in Hp.
  apply rbind_returns in Hp as (ds & _ & Hp). injection Hp as <-.
  now split.
Qed.

End FetchAllPhotos.

Lemma In_default_Items {A} (o : option (list A)) x :
  In x (default [] o) -> exists l, o = Some l /\ In x l.
Proof. destruct o as [l |]; simpl; [eauto | easy]. Qed.

Section ClaimFetchAllPhotos.
Context {rt : Runtime}.

(** C2, as the code has it: [fetchAllPhotos] returns the photos newest
    first when every item of the photos table has a [createdAt] that is a
    date.  (The comparator falls back to the order of the ids for a pair
    in which a [createdAt] is missing or empty.) *)
Theorem fetchAllPhotos_newest_first_when_dated env w store h
  (laws : RuntimeLaws rt) (Hserves : serves w store) :
  (forall table photos h',
     configured (DYNAMO_PHOTOS_TABLE env) = Some table ->
     (forall item, In item (store table) -> dated item) ->
     Decoupled.fetchAllPhotos env w h = (Done photos, h') ->
     newest_first photos) /\
  (forall table photos h',
     Dynamo.getTableName env Dynamo.photos = Returns table ->
     (forall item, In item (store table) -> dated item) ->
     SingleTable.fetchAllPhotos env w h = (Done photos, h') ->
     newest_first photos).
Proof.
  split; intros table photos h' Ht Hdated H.
  - apply decoupled_fetchAllPhotos_run in H
      as (table' & scanned & Ht' & Hscan & [[_ ->] | (photos0 & Hc & ->)]).
    { intros i p q Hp. now destruct i. }
    assert (table' = table) by congruence. subst table'.
    apply (sort_newest_first laws). intros p Hp.
    destruct (Forall2_copied_In _ _ _ _ Hc Hp) as (item & Hitem & Hcp).
    apply In_default_Items in Hitem as (items & Hi & Hitem).
    eapply copied_creation_time; [exact Hcp |].
    apply Hdated. exact (Hserves _ _ _ Hscan items item Hi Hitem).
  - apply single_fetchAllPhotos_run in H
      as (table' & scanned & photos0 & Ht' & Hscan & Hc & ->).
    assert (table' = table) by congruence. subst table'.
    apply (sort_newest_first laws). intros p Hp.
    destruct (Forall2_copied_In _ _ _ _ Hc Hp) as (item & Hitem & Hcp).
    apply In_default_Items in Hitem as (items & Hi & Hitem).
    eapply copied_creation_time; [exact Hcp |].
    apply Hdated. exact (Hserves _ _ _ Hscan items item Hi Hitem).
Qed.

End ClaimFetchAllPhotos.

(** C2, as stated, fails: of three photos the second has no [createdAt];
    [fetchAllPhotos] returns them in the order a, b, c (each neighbour
    follows the other in the order of the ids), so the list has a photo
    without creation time among its neighbours, and the photo of 2020
    stands before the photo of 2021. *)
Lemma fetchAllPhotos_not_newest_first :
  exists photos h',
    Decoupled.fetchAllPhotos (rt:=Sample.runtime) Sample.env
      (SampleData.world Counterexamples.undated_store []) []
    = (Done photos, h') /\
    List.map PhotoRecord.id photos = [js "a"; js "b"; js "c"] /\
    ~ newest_first (rt:=Sample.runtime) photos /\
    exists first third t1 t3,
      photos !! 0%nat = Some first /\ photos !! 2%nat = Some third /\
      creation_time (rt:=Sample.runtime) first = Some t1 /\
      creation_time (rt:=Sample.runtime) third = Some t3 /\
      (t1 < t3)%Q.
Proof.
  eexists _, _. split; [vm_compute; reflexivity |].
  split; [reflexivity |]. split.
  - intros H. specialize (H 0%nat _ _ eq_refl eq_refl).
    destruct H as (tp & tq & _ & Hq & _). vm_compute in Hq. discriminate.
  - eexists _, _, _, _. repeat (split; [vm_compute; reflexivity |]).
    reflexivity.
Qed.

(** ** Identifiers *)

Lemma strip_extension_nil s :
  Str.strip_extension s = [] <->
  s = [] \/ exists ext, s = Str.dot :: ext /\ Str.is_ext_body ext = true.
Proof.
  destruct s as [| u s]; simpl; [tauto |].
  destruct (N.eqb_spec u Str.dot) as [-> | Hu]; simpl.
  - destruct (Str.is_ext_body s) eqn:E.
    + split; [right; eauto | reflexivity].
    + split; [discriminate |].
      intros [H | (ext & [= <-] & H)]; congruence.
  - split; [discriminate |].
    intros [H | (ext & [= -> _] & _)]; [discriminate | contradiction].
Qed.

Lemma sanitize_nil s : Str.sanitize s = [] <-> s = [].
Proof. destruct s; simpl; split; intros H; try discriminate; reflexivity. Qed.

Lemma keyToPhotoId_nil cfg key :
  let trimmed := default key (Str.strip_prefix (Ingest.S3_PREFIX cfg) key) in
  Ingest.keyToPhotoId cfg key = [] <->
  trimmed = [] \/
  exists ext, trimmed = Str.dot :: ext /\ Str.is_ext_body ext = true.
Proof.
  intros trimmed. unfold Ingest.keyToPhotoId. fold trimmed.
  rewrite sanitize_nil. apply strip_extension_nil.
Qed.

(** ** Detection *)

Lemma console_done level message error u h h' :
  console level message error h = (Done u, h') ->
  h' = h ++ [Logged level message error].
Proof. unfold console, Task.emit. now intros [= _ <-]. Qed.

Lemma getObject_done w key out h h' :
  getObject w key h = (Done out, h') ->
  s3_get w h key = Returns out /\ h' = h ++ [Fetched key].
Proof. intros H. unfold getObject in H. now apply request_done in H. Qed.

Lemma logoDetection_done w image out h h' :
  logoDetection w image h = (Done out, h') ->
  vision_logoDetection w h image = Returns out /\ h' = h ++ [Annotated image].
Proof. intros H. unfold logoDetection in H. now apply request_done in H. Qed.

Ltac task_inv :=
  first
    [ task_step
    | match goal with
      | H : console _ _ _ _ = (Done _, _) |- _ => apply console_done in H
      | H : getObject _ _ _ = (Done _, _) |- _ =>
          apply getObject_done in H as [? ?]
      | H : logoDetection _ _ _ = (Done _, _) |- _ =>
          apply logoDetection_done in H as [? ?]
      end ].

Section Detection.
Context {rt : Runtime} (cfg : Ingest.Config) (w : World).



End Detection.

Section ClaimIdentifiers.
Context {rt : Runtime}.

(** C5, as the code has it.  [keyToPhotoId] gives the empty id exactly
    for a key whose part after the prefix is empty or is a bare extension
    (a dot followed by units that are neither dot nor slash), so it is
    non-empty for every other key; every record [fetchPhotosByLogo]
    returns has a non-empty id; and a record [fetchAllPhotos] returns has
    the id of its item, which is non-empty when the items of the photos
    table have a non-empty id. *)
Theorem identifiers_non_empty env w store h
  (laws : RuntimeLaws rt) (Hserves : serves w store) :
  (forall cfg key,
     let trimmed :=
       default key (Str.strip_prefix (Ingest.S3_PREFIX cfg) key) in
     Ingest.keyToPhotoId cfg key = [] <->
     trimmed = [] \/
     exists ext, trimmed = Str.dot :: ext /\ Str.is_ext_body ext = true) /\
  (forall q photos h',
     Decoupled.fetchPhotosByLogo env w q h = (Done photos, h') ->
     forall p, In p photos -> PhotoRecord.id p <> []) /\
  (forall q photos h',
     SingleTable.fetchPhotosByLogo env w q h = (Done photos, h') ->
     forall p, In p photos -> PhotoRecord.id p <> []) /\
  (forall table photos h',
     configured (DYNAMO_PHOTOS_TABLE env) = Some table ->
     (forall item, In item (store table) -> decoupled_id item <> []) ->
     Decoupled.fetchAllPhotos env w h = (Done photos, h') ->
     forall p, In p photos -> PhotoRecord.id p <> []) /\
  (forall table photos h',
     Dynamo.getTableName env Dynamo.photos = Returns table ->
     (forall item, In item (store table) -> single_id item <> []) ->
     SingleTable.fetchAllPhotos env w h = (Done photos, h') ->
     forall p, In p photos -> PhotoRecord.id p <> []).
Proof.
  split; [intros cfg key; apply keyToPhotoId_nil |].
  split; [| split; [| split]].
  - intros q photos h' H p Hp.
    apply decoupled_fetchPhotosByLogo_run in H as (? & ? & _ & _ & Hded & _).
    destruct (ids_mapped _ _ _ Hded p Hp) as (item & _ & Hid).
    apply configured_Some in Hid. tauto.
  - intros q photos h' H p Hp.
    apply single_fetchPhotosByLogo_run in H as (? & ? & _ & _ & Hded & _).
    destruct (ids_mapped _ _ _ Hded p Hp) as (item & _ & Hid).
    apply configured_Some in Hid. tauto.
  - intros table photos h' Ht Hid H p Hp.
    apply decoupled_fetchAllPhotos_run in H
      as (table' & scanned & Ht' & Hscan & [[_ ->] | (photos0 & Hc & ->)]);
      [destruct Hp |].
    assert (table' = table) by congruence. subst table'.
    apply (Permutation_in _ (sort_permutation rt laws _ _ _)) in Hp.
    destruct (Forall2_copied_In _ _ _ _ Hc Hp) as (item & Hitem & [-> _]).
    apply In_default_Items in Hitem as (items & Hi & Hitem).
    apply Hid. exact (Hserves _ _ _ Hscan items item Hi Hitem).
  - intros table photos h' Ht Hid H p Hp.
    apply single_fetchAllPhotos_run in H
      as (table' & scanned & photos0 & Ht' & Hscan & Hc & ->).
    assert (table' = table) by congruence. subst table'.
    apply (Permutation_in _ (sort_permutation rt laws _ _ _)) in Hp.
    destruct (Forall2_copied_In _ _ _ _ Hc Hp) as (item & Hitem & [-> _]).
    apply In_default_Items in Hitem as (items & Hi & Hitem).
    apply Hid. exact (Hserves _ _ _ Hscan items item Hi Hitem).
Qed.


End ClaimIdentifiers.

(** C5, as stated, fails: the listing filter accepts the key of a hidden
    file, and [keyToPhotoId] maps it to the empty id. *)
Lemma keyToPhotoId_empty_for_hidden_file :
  Ingest.accepted (js "photos/.DS_Store") = true /\
  Ingest.keyToPhotoId Counterexamples.config (js "photos/.DS_Store") = [].
Proof. split; reflexivity. Qed.


(** ** What computations append to the history *)

Section Emits.
Context (P : Event -> Prop).

Lemma emits_ret {A} (a : A) : emits P (Task.ret a).
Proof. intros h out h' [= <- <-]. exists []. now rewrite app_nil_r. Qed.

Lemma emits_throw {A} e : emits P (@Task.throw A e).
Proof. intros h out h' [= <- <-]. exists []. now rewrite app_nil_r. Qed.

Lemma emits_unfinished {A} : emits P (@Task.unfinished A).
Proof. intros h out h' [= <- <-]. exists []. now rewrite app_nil_r. Qed.

Lemma emits_lift {A} (r : Result A) : emits P (Task.lift r).
Proof. destruct r; [apply emits_ret | apply emits_throw]. Qed.

Lemma emits_request {A} ev (answer : History -> Result A) :
  P ev -> emits P (Task.request ev answer).
Proof.
  intros Hev h out h' H. unfold Task.request in H.
  exists [ev]. destruct (answer h); injection H as <- <-; auto.
Qed.

Lemma emits_emit ev : P ev -> emits P (Task.emit ev).
Proof. intros Hev h out h' [= <- <-]. exists [ev]. auto. Qed.

(** The continuation may rely on what the first part returned, and
    where. *)
Lemma emits_bind_at {A B} (m : Task A) (f : A -> Task B) :
  emits P m ->
  (forall h a h1, m h = (Done a, h1) ->
     forall out h', f a h1 = (out, h') ->
       exists new, h' = h1 ++ new /\ Forall P new) ->
  emits P (Task.bind m f).
Proof.
  intros Hm Hf h out h' H. unfold Task.bind in H.
  destruct (m h) as [[a | e |] h1] eqn:E;
    destruct (Hm _ _ _ E) as (new1 & -> & H1).
  - destruct (Hf _ _ _ E _ _ H) as (new2 & -> & H2).
    exists (new1 ++ new2). rewrite app_assoc. split; [reflexivity |].
    apply Forall_app. auto.
  - injection H as <- <-. eauto.
  - injection H as <- <-. eauto.
Qed.

Lemma emits_bind {A B} (m : Task A) (f : A -> Task B) :
  emits P m -> (forall a, emits P (f a)) -> emits P (Task.bind m f).
Proof.
  intros Hm Hf. apply emits_bind_at; [exact Hm |].
  intros h a h1 _ out h'. apply Hf.
Qed.

Lemma emits_try_catch {A} (m : Task A) handler :
  emits P m -> (forall e, emits P (handler e)) ->
  emits P (Task.try_catch m handler).
Proof.
  intros Hm Hh h out h' H. unfold Task.try_catch in H.
  destruct (m h) as [[a | e |] h1] eqn:E;
    destruct (Hm _ _ _ E) as (new1 & -> & H1).
  - injection H as <- <-. eauto.
  - destruct (Hh e _ _ _ H) as (new2 & -> & H2).
    exists (new1 ++ new2). rewrite app_assoc. split; [reflexivity |].
    apply Forall_app. auto.
  - injection H as <- <-. eauto.
Qed.

Lemma emits_for_each {A} (l : list A) body :
  (forall x, In x l -> emits P (body x)) -> emits P (Task.for_each l body).
Proof.
  induction l as [| x l IH]; simpl; intros Hb; [apply emits_ret |].
  apply emits_bind; [apply Hb; now left |].
  intros _. apply IH. intros y Hy. apply Hb. now right.
Qed.

Lemma emits_console level message error :
  P (Logged level message error) -> emits P (console level message error).
Proof. apply emits_emit. Qed.

Lemma emits_now w : P ClockRead -> emits P (now w).
Proof. intros Hev h out h' [= <- <-]. exists [ClockRead]. auto. Qed.

End Emits.

Lemma emits_weaken {A} (P Q : Event -> Prop) (m : Task A) :
  (forall ev, P ev -> Q ev) -> emits P m -> emits Q m.
Proof.
  intros HPQ Hm h out h' H. destruct (Hm _ _ _ H) as (new & -> & Hn).
  exists new. split; [reflexivity |]. eapply Forall_impl; eauto.
Qed.

(** ** Which computations come to an end *)

Lemma finishes_ret {A} (a : A) : finishes (Task.ret a).
Proof. intros h out h' [= <- _]. discriminate. Qed.

Lemma finishes_throw {A} e : finishes (@Task.throw A e).
Proof. intros h out h' [= <- _]. discriminate. Qed.

Lemma finishes_lift {A} (r : Result A) : finishes (Task.lift r).
Proof. destruct r; [apply finishes_ret | apply finishes_throw]. Qed.

Lemma finishes_request {A} ev (answer : History -> Result A) :
  finishes (Task.request ev answer).
Proof.
  intros h out h' H. unfold Task.request in H.
  destruct (answer h); injection H as <- _; discriminate.
Qed.

Lemma finishes_emit ev : finishes (Task.emit ev).
Proof. intros h out h' [= <- _]. discriminate. Qed.

Lemma finishes_now w : finishes (now w).
Proof. intros h out h' [= <- _]. discriminate. Qed.

Lemma finishes_bind_at {A B} (m : Task A) (f : A -> Task B) :
  finishes m ->
  (forall h a h1, m h = (Done a, h1) ->
     forall out h', f a h1 = (out, h') -> out <> Unfinished) ->
  finishes (Task.bind m f).
Proof.
  intros Hm Hf h out h' H. unfold Task.bind in H.
  destruct (m h) as [[a | e |] h1] eqn:E.
  - eapply Hf; eassumption.
  - injection H as <- _. discriminate.
  - now apply Hm in E.
Qed.

Lemma finishes_bind {A B} (m : Task A) (f : A -> Task B) :
  finishes m -> (forall a, finishes (f a)) -> finishes (Task.bind m f).
Proof.
  intros Hm Hf. apply finishes_bind_at; [exact Hm |].
  intros h a h1 _ out h'. apply Hf.
Qed.

Lemma finishes_try_catch {A} (m : Task A) handler :
  finishes m -> (forall e, finishes (handler e)) ->
  finishes (Task.try_catch m handler).
Proof.
  intros Hm Hh h out h' H. unfold Task.try_catch in H.
  destruct (m h) as [[a | e |] h1] eqn:E.
  - injection H as <- _. discriminate.
  - eapply Hh, H.
  - now apply Hm in E.
Qed.

Lemma finishes_for_each {A} (l : list A) body :
  (forall x, In x l -> finishes (body x)) -> finishes (Task.for_each l body).
Proof.
  induction l as [| x l IH]; simpl; intros Hb; [apply finishes_ret |].
  apply finishes_bind; [apply Hb; now left |].
  intros _. apply IH. intros y Hy. apply Hb. now right.
Qed.

(** ** The ingestion scripts *)

Lemma chunk_from_In {T} fuel (items : list T) size b x :
  In b (Ingest.chunk_from fuel items size) -> In x b -> In x items.
Proof.
  revert items. induction fuel as [| fuel IH]; intros items; simpl; [easy |].
  destruct items as [| y items]; [easy |].
  intros [<- | Hb] Hx.
  - rewrite <- (firstn_skipn size (y :: items)). apply in_or_app. now left.
  - rewrite <- (firstn_skipn size (y :: items)). apply in_or_app. right.
    eapply IH; eassumption.
Qed.

Lemma chunk_from_length {T} fuel (items : list T) size b :
  In b (Ingest.chunk_from fuel items size) -> (length b <= size)%nat.
Proof.
  revert items. induction fuel as [| fuel IH]; intros items; simpl; [easy |].
  destruct items as [| y items]; [easy |].
  intros [<- | Hb]; [apply firstn_le_length | eapply IH, Hb].
Qed.

Section IngestEmits.
Context {rt : Runtime} (cfg : Ingest.Config) (w : World).
Context (P : Event -> Prop) (Hplain : forall ev, plain ev -> P ev).
(** The batch writes the scripts submit are batches of puts. *)
Context (Hloop : forall fuel table requests,
            Forall is_put requests ->
            emits P (Ingest.writeMappingBatch_loop w fuel table requests)).

Ltac emits_step :=
  first
    [ apply emits_ret | apply emits_throw | apply emits_unfinished
    | apply emits_lift
    | apply emits_console; apply Hplain; exact I
    | apply emits_now; apply Hplain; exact I
    | apply emits_request; apply Hplain; exact I
    | apply emits_bind; [| intros ?]
    | apply emits_try_catch; [| intros ?] ].

Lemma detections_from_emits i annotations :
  emits P (Ingest.detections_from i annotations).
Proof.
  revert i. induction annotations as [| a l IH]; intros i; simpl.
  - emits_step.
  - unfold Ingest.detection_of. repeat emits_step. apply IH.
Qed.

Lemma detectLogosForKey_emits key : emits P (Ingest.detectLogosForKey w key).
Proof.
  unfold Ingest.detectLogosForKey, getObject, logoDetection.
  emits_step; [emits_step |].
  destruct (Body _); repeat emits_step. apply detections_from_emits.
Qed.

Lemma listPhotos_emits fuel : emits P (Ingest.listPhotos cfg w fuel).
Proof.
  unfold Ingest.listPhotos. emits_step; [| emits_step].
  generalize (@nil jsstring) (@None jsstring).
  induction fuel as [| fuel IH]; intros keys token; simpl; [emits_step |].
  unfold listObjects. emits_step; [emits_step |].
  destruct (_ <=? _)%nat; [emits_step |].
  destruct (configured _); [apply IH | emits_step].
Qed.

Lemma writeMappingBatch_emits fuel batch table :
  Forall is_put batch -> emits P (Ingest.writeMappingBatch w fuel batch table).
Proof.
  intros Hb. unfold Ingest.writeMappingBatch.
  destruct batch; [emits_step | now apply Hloop].
Qed.

Lemma mapping_writes_emits fuel table (writes : list WriteRequest) :
  Forall is_put writes ->
  emits P (Task.for_each (Ingest.chunk writes 25)
             (fun batch => Ingest.writeMappingBatch w fuel batch table)).
Proof.
  intros Hw. apply emits_for_each. intros batch Hb.
  apply writeMappingBatch_emits. apply Forall_forall. intros r Hr.
  apply list_elem_of_In in Hr. rewrite Forall_forall in Hw.
  apply Hw, list_elem_of_In. eapply chunk_from_In; eassumption.
Qed.

Lemma Forall_is_put_map {A} (f : A -> RawItem) l :
  Forall is_put (List.map (fun x => PutRequest (f x)) l).
Proof. induction l; simpl; constructor; [exact I | assumption]. Qed.

Lemma savePhotoDecoupled_emits t1 t2 t3 fuel key logos :
  emits P (IngestDecoupled.savePhotoDecoupled cfg w t1 t2 t3 fuel key logos).
Proof.
  unfold IngestDecoupled.savePhotoDecoupled, send.
  emits_step; [emits_step |]. emits_step; [emits_step |].
  destruct logos; [emits_step |].
  emits_step; [apply mapping_writes_emits, Forall_is_put_map |].
  apply emits_for_each. intros entry _.
  unfold IngestDecoupled.summary_update. repeat emits_step.
Qed.

Lemma savePhoto_emits table fuel key logos :
  emits P (IngestSingle.savePhoto cfg w table fuel key logos).
Proof.
  unfold IngestSingle.savePhoto, send.
  emits_step; [emits_step |]. emits_step; [emits_step |].
  destruct logos; [emits_step |].
  emits_step; [apply mapping_writes_emits, Forall_is_put_map |].
  apply emits_for_each. intros entry _.
  unfold IngestSingle.summary_update. repeat emits_step.
Qed.

Lemma process_emits save fuel key :
  (forall logos, emits P (save fuel key logos)) ->
  emits P (Ingest.process w save fuel key).
Proof.
  intros Hsave. unfold Ingest.process.
  emits_step; [emits_step |]. emits_step; [| emits_step].
  emits_step; [apply detectLogosForKey_emits |].
  emits_step; [apply Hsave | emits_step].
Qed.

Lemma main_emits save fuel :
  (forall key logos, emits P (save fuel key logos)) ->
  emits P (Ingest.main cfg w save fuel).
Proof.
  intros Hsave. unfold Ingest.main.
  emits_step; [emits_step |]. emits_step; [apply listPhotos_emits |].
  emits_step; [emits_step |]. emits_step; [| emits_step].
  apply emits_for_each. intros key _. now apply process_emits.
Qed.

End IngestEmits.

Section BatchWrites.
Context {rt : Runtime} (w : World).

Lemma loop_extends fuel table requests :
  emits (fun _ => True) (Ingest.writeMappingBatch_loop w fuel table requests).
Proof.
  revert requests. induction fuel as [| fuel IH]; intros requests; simpl.
  - apply emits_unfinished.
  - apply emits_bind; [now apply emits_request |]. intros response.
    destruct (default [] _); [apply emits_ret |].
    apply emits_bind; [now apply emits_console | intros _; apply IH].
Qed.

Lemma unprocessed_submitted h table requests out r :
  batch_write_contract w ->
  dynamo_send w h (BatchWriteCommand table requests) = Returns out ->
  In r (unprocessed_of table out) -> In r requests.
Proof.
  intros Hc Hs Hr. unfold unprocessed_of in Hr.
  destruct (UnprocessedItems out ≫= table_entry table) as [rest |] eqn:E;
    [| destruct Hr].
  eapply Hc; eassumption.
Qed.

Lemma loop_harmless fuel table requests :
  batch_write_contract w -> Forall is_put requests ->
  emits harmless (Ingest.writeMappingBatch_loop w fuel table requests).
Proof.
  intros Hc. revert requests.
  induction fuel as [| fuel IH]; intros requests Hr; simpl.
  - apply emits_unfinished.
  - apply emits_bind_at; [now apply emits_request |].
    intros h response h1 Hsend. apply send_done in Hsend as [Hsend _].
    assert (Hrest : Forall is_put (unprocessed_of table response)).
    { apply Forall_forall. intros r Hin. apply list_elem_of_In in Hin.
      rewrite Forall_forall in Hr. apply Hr, list_elem_of_In.
      eapply unprocessed_submitted; eassumption. }
    unfold unprocessed_of in Hrest.
    destruct (default [] _) eqn:E; [apply emits_ret |].
    apply emits_bind; [now apply emits_console | intros _; now apply IH].
Qed.

Lemma loop_finishes fuel table requests :
  makes_progress w -> (length requests < fuel)%nat ->
  finishes (Ingest.writeMappingBatch_loop w fuel table requests).
Proof.
  intros Hp. revert requests.
  induction fuel as [| fuel IH]; intros requests Hlen; [lia |]. simpl.
  apply finishes_bind_at; [apply finishes_request |].
  intros h response h1 Hsend. apply send_done in Hsend as [Hsend _].
  pose proof (Hp _ _ _ _ Hsend) as Hless. unfold unprocessed_of in Hless.
  destruct (default [] _) eqn:E; [apply finishes_ret |].
  apply finishes_bind; [apply finishes_emit |].
  intros _. apply IH. lia.
Qed.

End BatchWrites.

Lemma chunk_from_not_empty {T} fuel (items : list T) size b :
  (0 < size)%nat -> In b (Ingest.chunk_from fuel items size) -> b <> [].
Proof.
  intros Hs. revert items.
  induction fuel as [| fuel IH]; intros [| x items]; simpl; try tauto.
  intros [<- | Hin]; [| eauto]. destruct size; [lia | discriminate].
Qed.

Lemma for_each_in_turn {A} (one : A -> History -> list Event -> Prop)
  (l : list A) body h h' :
  (forall x h0 h1, In x l -> body x h0 = (Done tt, h1) ->
     exists new, h1 = h0 ++ new /\ one x h0 new) ->
  Task.for_each l body h = (Done tt, h') ->
  exists new, h' = h ++ new /\ in_turn one h l new.
Proof.
  revert h. induction l as [| x l IH]; simpl; intros h Hone H.
  - apply ret_done in H as [_ ->]. exists [].
    rewrite app_nil_r. split; constructor.
  - apply bind_done in H as ([] & h1 & Hx & H).
    apply Hone in Hx as (new1 & -> & H1); [| now left].
    apply IH in H as (new2 & -> & H2); [| intros; apply Hone; auto].
    exists (new1 ++ new2). split; [now rewrite app_assoc |].
    now constructor.
Qed.

(** ** No command deletes *)

Ltac harmless_step :=
  first
    [ apply emits_ret | apply emits_throw | apply emits_lift
    | apply emits_request; exact I
    | apply emits_bind; [| intros ?] ].

Section RepositoryCommands.
Context {rt : Runtime} (env : Env) (w : World).

Lemma require_harmless v message :
  emits harmless (Decoupled.require v message).
Proof.
  unfold Decoupled.require. destruct (configured v); harmless_step.
Qed.

Lemma decoupled_fetchAllPhotos_harmless :
  emits harmless (Decoupled.fetchAllPhotos env w).
Proof.
  unfold Decoupled.fetchAllPhotos, send.
  do 2 (harmless_step; [apply require_harmless |]).
  harmless_step; [harmless_step |].
  destruct (Items _) as [[| ? ?] |]; repeat harmless_step.
Qed.

Lemma decoupled_fetchAllLogos_harmless :
  emits harmless (Decoupled.fetchAllLogos env w).
Proof.
  unfold Decoupled.fetchAllLogos, send.
  harmless_step; [apply require_harmless |]. repeat harmless_step.
Qed.

Lemma decoupled_fetchPhotosByLogo_harmless q :
  emits harmless (Decoupled.fetchPhotosByLogo env w q).
Proof.
  unfold Decoupled.fetchPhotosByLogo, send.
  do 2 (harmless_step; [apply require_harmless |]).
  harmless_step; [harmless_step |].
  destruct (Items _) as [[| ? ?] |]; try harmless_step.
  destruct (Decoupled.collect _) as [[| ? ?] ?]; repeat harmless_step.
Qed.

Lemma single_fetchAllPhotos_harmless :
  emits harmless (SingleTable.fetchAllPhotos env w).
Proof. unfold SingleTable.fetchAllPhotos, send. repeat harmless_step. Qed.

Lemma single_fetchAllLogos_harmless :
  emits harmless (SingleTable.fetchAllLogos env w).
Proof. unfold SingleTable.fetchAllLogos, send. repeat harmless_step. Qed.

Lemma single_fetchPhotosByLogo_harmless q :
  emits harmless (SingleTable.fetchPhotosByLogo env w q).
Proof.
  unfold SingleTable.fetchPhotosByLogo, send.
  do 2 (harmless_step; [harmless_step |]).
  destruct (default [] _); try harmless_step.
  destruct (SingleTable.collect _) as [[| ? ?] ?]; repeat harmless_step.
Qed.

End RepositoryCommands.

Section ClaimNoDelete.
Context {rt : Runtime}.

(** C7: no operation deletes a record.  Whatever the ingestion scripts
    and the repository functions do, and however they end, every command
    they send is a scan, a query, a batch get, a put, an update or a
    batch write of puts.  (A batch write is retried with what DynamoDB
    reports as unprocessed, which is part of what was submitted.) *)
Theorem no_command_deletes env cfg w t1 t2 t3 table
  (Hcontract : batch_write_contract w) :
  (forall fuel, emits harmless (IngestDecoupled.main cfg w t1 t2 t3 fuel)) /\
  (forall fuel, emits harmless (IngestSingle.main cfg w table fuel)) /\
  emits harmless (Decoupled.fetchAllPhotos env w) /\
  emits harmless (Decoupled.fetchAllLogos env w) /\
  (forall q, emits harmless (Decoupled.fetchPhotosByLogo env w q)) /\
  emits harmless (SingleTable.fetchAllPhotos env w) /\
  emits harmless (SingleTable.fetchAllLogos env w) /\
  (forall q, emits harmless (SingleTable.fetchPhotosByLogo env w q)).
Proof.
  assert (Hplain : forall ev, plain ev -> harmless ev).
  { intros [[] | | | | |]; simpl; tauto. }
  assert (Hloop : forall fuel tb requests,
             Forall is_put requests ->
             emits harmless (Ingest.writeMappingBatch_loop w fuel tb requests)).
  { intros. now apply loop_harmless. }
  split.
  { intros fuel. apply main_emits; auto.
    intros key logos. now apply savePhotoDecoupled_emits. }
  split.
  { intros fuel. apply main_emits; auto.
    intros key logos. now apply savePhoto_emits. }
  split; [apply decoupled_fetchAllPhotos_harmless |].
  split; [apply decoupled_fetchAllLogos_harmless |].
  split; [apply decoupled_fetchPhotosByLogo_harmless |].
  split; [apply single_fetchAllPhotos_harmless |].
  split; [apply single_fetchAllLogos_harmless |].
  apply single_fetchPhotosByLogo_harmless.
Qed.

End ClaimNoDelete.

(** ** The retry loop of [writeMappingBatch] *)

Section ClaimRetry.
Context {rt : Runtime} (w : World) (table : jsstring).

Lemma loop_step fuel requests h :
  Ingest.writeMappingBatch_loop w (S fuel) table requests h
  = match dynamo_send w h (BatchWriteCommand table requests) with
    | Throws e => (Raised e, h ++ [Sent (BatchWriteCommand table requests)])
    | Returns out =>
        match unprocessed_of table out with
        | [] => (Done tt, h ++ [Sent (BatchWriteCommand table requests)])
        | _ :: _ =>
            Ingest.writeMappingBatch_loop w fuel table
              (unprocessed_of table out)
              (h ++ [Sent (BatchWriteCommand table requests);
                     Logged LogWarn
                       (retry_message (unprocessed_of table out)) None])
        end
    end.
Proof.
  simpl. unfold Task.bind, send, Task.request.
  destruct (dynamo_send w h _) as [out | e]; [| reflexivity].
  unfold unprocessed_of.
  destruct (default [] _) eqn:E; [reflexivity |].
  unfold console, Task.emit, retry_message. now rewrite <- app_assoc.
Qed.

Lemma loop_chain fuel requests h h' :
  Ingest.writeMappingBatch_loop w fuel table requests h = (Done tt, h') ->
  exists new, h' = h ++ new /\ retry_chain w table h requests new.
Proof.
  revert requests h.
  induction fuel as [| fuel IH]; intros requests h H; [discriminate |].
  rewrite loop_step in H.
  destruct (dynamo_send w h _) as [out | e] eqn:Es; [| discriminate].
  destruct (unprocessed_of table out) as [| r rest] eqn:Eu.
  - injection H as <-. eexists. split; [reflexivity |].
    eapply chain_end; eassumption.
  - apply IH in H as (new & -> & Hchain).
    eexists. split; [now rewrite <- app_assoc |].
    rewrite <- Eu in *. eapply chain_retry; [eassumption | | exact Hchain].
    rewrite Eu. discriminate.
Qed.

Lemma chain_loop h requests new :
  retry_chain w table h requests new ->
  exists fuel, forall fuel', (fuel <= fuel')%nat ->
    Ingest.writeMappingBatch_loop w fuel' table requests h
    = (Done tt, h ++ new).
Proof.
  induction 1 as [h requests out Hs Hu | h requests out tail Hs Hu _ IH].
  - exists 1%nat. intros [| fuel'] Hle; [lia |].
    rewrite loop_step, Hs, Hu. reflexivity.
  - destruct IH as [fuel IH]. exists (S fuel).
    intros [| fuel'] Hle; [lia |].
    rewrite loop_step, Hs.
    destruct (unprocessed_of table out) eqn:E; [contradiction |].
    rewrite IH by lia. now rewrite <- app_assoc.
Qed.

Lemma chain_first h requests new :
  retry_chain w table h requests new ->
  exists tail, new = Sent (BatchWriteCommand table requests) :: tail.
Proof. destruct 1; eauto. Qed.

(** C8: an empty batch is a no-op; a run of [writeMappingBatch] that
    returns has re-submitted, each time, exactly what the response
    before reported as unprocessed; and when the responses, followed in
    this way, come to one that reports nothing unprocessed, the function
    returns (with any bound on the iterations that is large enough),
    having submitted the whole batch in its first request. *)
Theorem writeMappingBatch_retries_unprocessed :
  (forall fuel h, Ingest.writeMappingBatch w fuel [] table h = (Done tt, h)) /\
  (forall fuel batch h h',
     batch <> [] ->
     Ingest.writeMappingBatch w fuel batch table h = (Done tt, h') ->
     exists new, h' = h ++ new /\ retry_chain w table h batch new) /\
  (forall batch h new,
     batch <> [] ->
     retry_chain w table h batch new ->
     exists fuel, forall fuel', (fuel <= fuel')%nat ->
       Ingest.writeMappingBatch w fuel' batch table h
       = (Done tt, h ++ new)) /\
  (forall batch h new r,
     retry_chain w table h batch new -> In r batch ->
     exists requests,
       In (Sent (BatchWriteCommand table requests)) new /\ In r requests).
Proof.
  split; [reflexivity |]. split; [| split].
  - intros fuel [| r batch] h h' Hne H; [contradiction |].
    now apply loop_chain in H.
  - intros [| r batch] h new Hne Hchain; [contradiction |].
    destruct (chain_loop _ _ _ Hchain) as [fuel Hfuel].
    exists fuel. exact Hfuel.
  - intros batch h new r Hchain Hr.
    destruct (chain_first _ _ _ Hchain) as [tail ->].
    exists batch. split; [now left | exact Hr].
Qed.

End ClaimRetry.

(** ** The loop of [main] *)

Section ClaimPerItem.
Context {rt : Runtime} (cfg : Ingest.Config) (w : World).

Lemma detectLogosForKey_fetches key h out h' :
  Ingest.detectLogosForKey w key h = (out, h') ->
  exists more, h' = h ++ Fetched key :: more.
Proof.
  unfold Ingest.detectLogosForKey, Task.bind at 1, getObject, Task.request.
  destruct (s3_get w h key) as [response | e].
  - intros H.
    assert (Hrest : forall r, extends
              (match Body r with
               | Some body =>
                   image <- Task.lift (Ingest.asBuffer body) ;;
                   result <- logoDetection w image ;;
                   console LogTable [] None ;;;
                   console LogLog
                     (js "Detected "
                        ++ Str.of_nat (length (default [] (logoAnnotations result)))
                        ++ js " logos for " ++ key) None ;;;
                   Ingest.detections_from 0
                     (List.filter Ingest.has_description
                        (default [] (logoAnnotations result)))
               | None =>
                   Task.throw (Error (js "S3 object body missing for " ++ key))
               end)).
    { intros r. destruct (Body r); [| apply emits_throw].
      apply emits_bind; [apply emits_lift | intros image].
      apply emits_bind; [now apply emits_request | intros result].
      apply emits_bind; [now apply emits_console | intros _].
      apply emits_bind; [now apply emits_console | intros _].
      apply detections_from_emits. auto. }
    destruct (Hrest response _ _ _ H) as (new & -> & _).
    exists new. now rewrite <- app_assoc.
  - intros [= <- <-]. now exists [].
Qed.

Section Save.
Context (save : nat -> jsstring -> list Ingest.LogoDetection.t -> Task unit)
        (Hsave : forall fuel key logos, extends (save fuel key logos)).

Lemma attempt_fetches fuel key h out h' :
  attempt w save fuel key h = (out, h') ->
  exists more, h' = h ++ Fetched key :: more.
Proof.
  unfold attempt, Task.bind at 1.
  destruct (Ingest.detectLogosForKey w key h) as [[logos | e |] h1] eqn:E;
    destruct (detectLogosForKey_fetches _ _ _ _ E) as (more & ->);
    [| intros [= <- <-]; eauto ..].
  intros H.
  assert (Hrest : extends
            (save fuel key logos ;;;
             console LogInfo
               (js "Stored " ++ Str.of_nat (length logos)
                  ++ js " logos for " ++ key) None)).
  { apply emits_bind; [apply Hsave | intros _; now apply emits_console]. }
  destruct (Hrest _ _ _ H) as (new & -> & _).
  exists (more ++ new). now rewrite <- app_assoc.
Qed.

Lemma attempt_done fuel key h h' :
  attempt w save fuel key h = (Done tt, h') ->
  exists n more,
    h' = h ++ more /\ In (Fetched key) more /\
    In (Logged LogInfo
          (js "Stored " ++ Str.of_nat n ++ js " logos for " ++ key) None)
       more.
Proof.
  intros H. unfold attempt in H.
  apply bind_done in H as (logos & h1 & Hd & H).
  apply bind_done in H as ([] & h2 & Hs & H).
  apply console_done in H. subst h'.
  destruct (detectLogosForKey_fetches _ _ _ _ Hd) as (more & ->).
  destruct (Hsave _ _ _ _ _ _ Hs) as (new & -> & _).
  exists (length logos), ((Fetched key :: more) ++ new ++ [Logged LogInfo
    (js "Stored " ++ Str.of_nat (length logos) ++ js " logos for " ++ key)
    None]).
  split; [now rewrite <- !app_assoc |].
  split; [now left |].
  apply in_or_app. right. apply in_or_app. right. now left.
Qed.

Lemma process_unfold fuel key h :
  Ingest.process w save fuel key h
  = Task.try_catch (attempt w save fuel key)
      (fun error =>
         console LogError (js "Failed to process " ++ key) (Some error))
      (h ++ [Logged LogInfo (js "Processing " ++ key ++ js "...") None]).
Proof. reflexivity. Qed.

Lemma process_never_raises fuel key h out h' :
  Ingest.process w save fuel key h = (out, h') ->
  forall e, out <> Raised e.
Proof.
  rewrite process_unfold. unfold Task.try_catch.
  destruct (attempt w save fuel key _) as [[[] | e |] h1];
    intros [= <- _] e'; discriminate.
Qed.

Lemma process_done fuel key h h' :
  Ingest.process w save fuel key h = (Done tt, h') ->
  exists new, h' = h ++ new /\ processed key new.
Proof.
  rewrite process_unfold. unfold Task.try_catch.
  set (start := Logged LogInfo (js "Processing " ++ key ++ js "...") None).
  destruct (attempt w save fuel key _) as [[[] | e |] h1] eqn:E.
  - intros [= <-].
    apply attempt_done in E as (n & more & -> & Hf & Hs).
    exists (start :: more). split; [now rewrite <- app_assoc |].
    split; [now left |]. split; [now right |]. left. exists n. now right.
  - intros H. apply console_done in H. subst h'.
    destruct (attempt_fetches _ _ _ _ _ E) as (more & ->).
    exists (start :: (Fetched key :: more)
              ++ [Logged LogError (js "Failed to process " ++ key) (Some e)]).
    split; [now rewrite <- !app_assoc |].
    split; [now left |]. split; [right; now left |].
    right. exists e. right. apply in_or_app. right. now left.
  - discriminate.
Qed.

Lemma loop_never_raises fuel keys h out h' :
  Task.for_each keys (Ingest.process w save fuel) h = (out, h') ->
  forall e, out <> Raised e.
Proof.
  revert h. induction keys as [| key keys IH]; simpl; intros h.
  - intros [= <- _] e. discriminate.
  - unfold Task.bind.
    destruct (Ingest.process w save fuel key h) as [[[] | e |] h1] eqn:E.
    + apply IH.
    + now apply process_never_raises with (e := e) in E.
    + intros [= <- _] e. discriminate.
Qed.

Lemma loop_done fuel keys h h' :
  Task.for_each keys (Ingest.process w save fuel) h = (Done tt, h') ->
  exists new,
    h' = h ++ new /\ forall key, In key keys -> processed key new.
Proof.
  revert h. induction keys as [| key keys IH]; simpl; intros h H.
  - apply ret_done in H as [_ ->]. exists []. now rewrite app_nil_r.
  - apply bind_done in H as ([] & h1 & Hp & H).
    apply process_done in Hp as (new1 & -> & Hk).
    apply IH in H as (new2 & -> & Hks).
    exists (new1 ++ new2). split; [now rewrite <- app_assoc |].
    assert (Hmono : forall k a b, processed k a \/ processed k b ->
                      processed k (a ++ b)).
    { intros k a b [(H1 & H2 & H3) | (H1 & H2 & H3)];
        (split; [apply in_or_app; auto |]);
        (split; [apply in_or_app; auto |]);
        destruct H3 as [[n H3] | [e H3]];
        [left; exists n | right; exists e | left; exists n | right; exists e];
        apply in_or_app; auto. }
    intros k [<- | Hin]; apply Hmono; auto.
Qed.

Lemma process_finishes fuel key :
  (forall logos, finishes (save fuel key logos)) ->
  finishes (Ingest.process w save fuel key).
Proof.
  intros Hf. unfold Ingest.process.
  apply finishes_bind; [apply finishes_emit | intros _].
  apply finishes_try_catch; [| intros e; apply finishes_emit].
  apply finishes_bind.
  - unfold Ingest.detectLogosForKey.
    apply finishes_bind; [apply finishes_request | intros r].
    destruct (Body r); [| apply finishes_throw].
    apply finishes_bind; [apply finishes_lift | intros image].
    apply finishes_bind; [apply finishes_request | intros result].
    apply finishes_bind; [apply finishes_emit | intros _].
    apply finishes_bind; [apply finishes_emit | intros _].
    generalize 0%nat.
    induction (List.filter _ _) as [| a l IH]; intros i; simpl.
    + apply finishes_ret.
    + apply finishes_bind.
      * unfold Ingest.detection_of.
        apply finishes_bind; [apply finishes_emit | intros _].
        apply finishes_ret.
      * intros d. apply finishes_bind; [apply IH | intros ds].
        apply finishes_ret.
  - intros logos. apply finishes_bind; [apply Hf | intros _].
    apply finishes_emit.
Qed.

End Save.

Section Turn.
Context (save : nat -> jsstring -> list Ingest.LogoDetection.t -> Task unit)
        (kept : jsstring -> list Ingest.LogoDetection.t ->
                History -> list Event -> Prop)
        (fuel : nat)
        (Hsave : forall key logos, extends (save fuel key logos))
        (Hkept : forall key logos h h',
           save fuel key logos h = (Done tt, h') ->
           exists saved, h' = h ++ saved /\ kept key logos h saved).

Lemma process_turn key h h' :
  Ingest.process w save fuel key h = (Done tt, h') ->
  exists new, h' = h ++ new /\ turn w (save fuel) kept key h new.
Proof.
  rewrite process_unfold. unfold Task.try_catch, attempt, Task.bind.
  set (start := Logged LogInfo (js "Processing " ++ key ++ js "...") None).
  destruct (Ingest.detectLogosForKey w key (h ++ [start]))
    as [[logos | e |] h1] eqn:Ed;
    destruct (detectLogosForKey_fetches _ _ _ _ Ed) as (more & ->);
    [| | discriminate].
  - destruct (save fuel key logos _) as [[[] | e |] h2] eqn:Es;
      [| | discriminate].
    + intros H. apply console_done in H. subst h'.
      apply Hkept in Es as (saved & -> & Hk).
      eexists. split; [| eapply turn_stored; [exact Ed | exact Hk]].
      now rewrite <- !app_assoc.
    + intros H. apply console_done in H. subst h'.
      destruct (Hsave _ _ _ _ _ Es) as (saved & -> & _).
      eexists. split; [| eapply turn_save_failed; [exact Ed | exact Es]].
      now rewrite <- !app_assoc.
  - intros H. apply console_done in H. subst h'.
    eexists. split; [| eapply turn_detection_failed; exact Ed].
    now rewrite <- !app_assoc.
Qed.

Lemma loop_turns keys h h' :
  Task.for_each keys (Ingest.process w save fuel) h = (Done tt, h') ->
  exists new, h' = h ++ new /\ in_turn (turn w (save fuel) kept) h keys new.
Proof.
  apply for_each_in_turn. intros key h0 h1 _. apply process_turn.
Qed.

End Turn.

End ClaimPerItem.

Section ClaimPerItemBothScripts.
Context {rt : Runtime} (cfg : Ingest.Config) (w : World).

Lemma savePhotoDecoupled_extends t1 t2 t3 fuel key logos :
  extends (IngestDecoupled.savePhotoDecoupled cfg w t1 t2 t3 fuel key logos).
Proof.
  apply savePhotoDecoupled_emits; [auto |].
  intros. apply loop_extends.
Qed.

Lemma savePhoto_extends table fuel key logos :
  extends (IngestSingle.savePhoto cfg w table fuel key logos).
Proof.
  apply savePhoto_emits; [auto |].
  intros. apply loop_extends.
Qed.

Lemma mapping_writes_finish fuel table (writes : list WriteRequest) :
  makes_progress w -> (25 < fuel)%nat ->
  finishes (Task.for_each (Ingest.chunk writes 25)
              (fun batch => Ingest.writeMappingBatch w fuel batch table)).
Proof.
  intros Hp Hfuel. apply finishes_for_each. intros batch Hb.
  apply chunk_from_length in Hb. unfold Ingest.writeMappingBatch.
  destruct batch; [apply finishes_ret |].
  apply loop_finishes; [exact Hp | lia].
Qed.

Lemma savePhotoDecoupled_finishes t1 t2 t3 fuel key logos :
  makes_progress w -> (25 < fuel)%nat ->
  finishes (IngestDecoupled.savePhotoDecoupled cfg w t1 t2 t3 fuel key logos).
Proof.
  intros Hp Hfuel. unfold IngestDecoupled.savePhotoDecoupled.
  apply finishes_bind; [apply finishes_now | intros t].
  apply finishes_bind; [apply finishes_request | intros _].
  destruct logos; [apply finishes_ret |].
  apply finishes_bind; [now apply mapping_writes_finish | intros _].
  apply finishes_for_each. intros entry _.
  apply finishes_bind; [apply finishes_request | intros _; apply finishes_ret].
Qed.

Lemma savePhoto_finishes table fuel key logos :
  makes_progress w -> (25 < fuel)%nat ->
  finishes (IngestSingle.savePhoto cfg w table fuel key logos).
Proof.
  intros Hp Hfuel. unfold IngestSingle.savePhoto.
  apply finishes_bind; [apply finishes_now | intros t].
  apply finishes_bind; [apply finishes_request | intros _].
  destruct logos; [apply finishes_ret |].
  apply finishes_bind; [now apply mapping_writes_finish | intros _].
  apply finishes_for_each. intros entry _.
  apply finishes_bind; [apply finishes_request | intros _; apply finishes_ret].
Qed.

Lemma loop_returns save fuel keys h :
  (forall key logos, finishes (save fuel key logos)) ->
  exists h',
    Task.for_each keys (Ingest.process w save fuel) h = (Done tt, h').
Proof.
  intros Hf.
  destruct (Task.for_each keys (Ingest.process w save fuel) h)
    as [[[] | e |] h'] eqn:E.
  - eauto.
  - now apply loop_never_raises with (e := e) in E.
  - exfalso.
    assert (Hall : finishes (Task.for_each keys (Ingest.process w save fuel))).
    { apply finishes_for_each. intros key _. now apply process_finishes. }
    now apply Hall in E.
Qed.

Lemma mapping_writes_chains fuel table (writes : list WriteRequest) h h' :
  Task.for_each (Ingest.chunk writes 25)
    (fun batch => Ingest.writeMappingBatch w fuel batch table) h
  = (Done tt, h') ->
  exists new,
    h' = h ++ new /\
    in_turn (fun batch hb chain => retry_chain w table hb batch chain)
      h (Ingest.chunk writes 25) new.
Proof.
  apply for_each_in_turn. intros batch h0 h1 Hin H.
  destruct batch as [| r batch].
  - exfalso. eapply (chunk_from_not_empty _ _ 25); [lia | exact Hin |].
    reflexivity.
  - now apply loop_chain in H.
Qed.

Lemma updates_answered {E} (update : E -> Command) (entries : list E) h h' :
  Task.for_each entries (fun entry => send w (update entry) ;;; Task.ret tt) h
  = (Done tt, h') ->
  exists new,
    h' = h ++ new /\
    in_turn (fun entry => answered w (update entry)) h entries new.
Proof.
  apply for_each_in_turn. intros entry h0 h1 _ H.
  apply bind_done in H as (out & h2 & Hs & H).
  apply send_done in Hs as [Hs ->]. apply ret_done in H as [_ ->].
  eexists. split; [reflexivity |]. split; eauto.
Qed.

Lemma savePhotoDecoupled_stored t1 t2 t3 fuel key logos h h' :
  IngestDecoupled.savePhotoDecoupled cfg w t1 t2 t3 fuel key logos h
  = (Done tt, h') ->
  exists saved,
    h' = h ++ saved /\ stored_decoupled cfg w t1 t2 t3 key logos h saved.
Proof.
  unfold IngestDecoupled.savePhotoDecoupled. intros H.
  apply bind_done in H as (t & h1 & Hn & H).
  unfold now in Hn. injection Hn as <- <-.
  apply bind_done in H as (out & h2 & Hs & H).
  apply send_done in Hs as [Hs ->].
  unfold stored_decoupled, stored, answered.
  destruct logos as [| logo logos].
  - apply ret_done in H as [_ ->].
    eexists. split; [now rewrite <- app_assoc |].
    exists [], []. repeat split; eauto; constructor.
  - apply bind_done in H as ([] & h3 & Hw & H).
    apply mapping_writes_chains in Hw as (writes & -> & Hw).
    apply updates_answered in H as (updates & -> & Hu).
    rewrite <- (app_assoc h) in Hw, Hu. rewrite <- (app_assoc h) in Hu.
    eexists. split; [now rewrite <- !app_assoc |].
    exists writes, updates. repeat split; eauto.
Qed.

Lemma savePhoto_stored table fuel key logos h h' :
  IngestSingle.savePhoto cfg w table fuel key logos h = (Done tt, h') ->
  exists saved, h' = h ++ saved /\ stored_single cfg w table key logos h saved.
Proof.
  unfold IngestSingle.savePhoto. intros H.
  apply bind_done in H as (t & h1 & Hn & H).
  unfold now in Hn. injection Hn as <- <-.
  apply bind_done in H as (out & h2 & Hs & H).
  apply send_done in Hs as [Hs ->].
  unfold stored_single, stored, answered.
  destruct logos as [| logo logos].
  - apply ret_done in H as [_ ->].
    eexists. split; [now rewrite <- app_assoc |].
    exists [], []. repeat split; eauto; constructor.
  - apply bind_done in H as ([] & h3 & Hw & H).
    apply mapping_writes_chains in Hw as (writes & -> & Hw).
    apply updates_answered in H as (updates & -> & Hu).
    rewrite <- (app_assoc h) in Hw, Hu. rewrite <- (app_assoc h) in Hu.
    eexists. split; [now rewrite <- !app_assoc |].
    exists writes, updates. repeat split; eauto.
Qed.

(** C4: an error thrown while a key is detected or saved is caught for
    that key and logged, and the loop goes on to the keys that remain.  For
    any list of keys, any history and both scripts:
    - the loop never throws;
    - when it returns, what it did is one [turn] for each key, in the order
      of the list, each starting where the one before it stopped.  In a
      turn either the logos of the key were detected and the photo was
      [stored] (its item put, its mapping items submitted in batches until
      nothing was left unprocessed, its summaries updated) and the count
      of logos was logged; or the detection or the save threw, and the
      error that was thrown is the one logged as the failure of that key.
      So every key of the list was fetched and has its line in the log,
      whatever happened to the keys before it;
    - it does return when every batch write processes at least one request
      and the bound on the retries exceeds the size of a batch. *)
Theorem ingestion_continues_after_failure t1 t2 t3 table fuel keys h :
  let decoupled :=
    Task.for_each keys
      (Ingest.process w (IngestDecoupled.savePhotoDecoupled cfg w t1 t2 t3)
         fuel) in
  let single :=
    Task.for_each keys
      (Ingest.process w (IngestSingle.savePhoto cfg w table) fuel) in
  ((forall out h', decoupled h = (out, h') -> forall e, out <> Raised e) /\
   (forall h', decoupled h = (Done tt, h') ->
      exists new,
        h' = h ++ new /\
        in_turn
          (turn w (IngestDecoupled.savePhotoDecoupled cfg w t1 t2 t3 fuel)
             (stored_decoupled cfg w t1 t2 t3))
          h keys new /\
        forall key, In key keys -> processed key new) /\
   (makes_progress w -> (25 < fuel)%nat ->
      exists h', decoupled h = (Done tt, h'))) /\
  ((forall out h', single h = (out, h') -> forall e, out <> Raised e) /\
   (forall h', single h = (Done tt, h') ->
      exists new,
        h' = h ++ new /\
        in_turn
          (turn w (IngestSingle.savePhoto cfg w table fuel)
             (stored_single cfg w table))
          h keys new /\
        forall key, In key keys -> processed key new) /\
   (makes_progress w -> (25 < fuel)%nat ->
      exists h', single h = (Done tt, h'))).
Proof.
  intros decoupled single. split; (split; [| split]).
  - intros out h'. apply loop_never_raises.
  - intros h' H.
    pose proof H as Hd.
    apply loop_done in Hd as (new & -> & Hp);
      [| intros; apply savePhotoDecoupled_extends].
    apply loop_turns with (kept := stored_decoupled cfg w t1 t2 t3) in H
      as (new' & E & Ht).
    + apply app_inv_head in E as <-. eauto.
    + intros. apply savePhotoDecoupled_extends.
    + intros key logos. apply savePhotoDecoupled_stored.
  - intros Hp Hfuel. apply loop_returns.
    intros. now apply savePhotoDecoupled_finishes.
  - intros out h'. apply loop_never_raises.
  - intros h' H.
    pose proof H as Hd.
    apply loop_done in Hd as (new & -> & Hp);
      [| intros; apply savePhoto_extends].
    apply loop_turns with (kept := stored_single cfg w table) in H
      as (new' & E & Ht).
    + apply app_inv_head in E as <-. eauto.
    + intros. apply savePhoto_extends.
    + intros key logos. apply savePhoto_stored.
  - intros Hp Hfuel. apply loop_returns.
    intros. now apply savePhoto_finishes.
Qed.

End ClaimPerItemBothScripts.

(** ** The routes *)

Ltac guard_case :=
  repeat split; try discriminate;
  try (intros ? ? [= <- <-]; reflexivity);
  try (intros ? ? [= <- _] ?; discriminate).

Section ClaimRoutes.
Context {rt : Runtime} {L : Type}.
Context (fetchAllPhotos : Task (list PhotoRecord.t))
        (fetchAllLogos : Task (list L))
        (fetchPhotosByLogo : jsstring -> Task (list PhotoRecord.t))
        (params : Task jsstring).

Lemma try_catch_guards {A} (awaited : Task A) logged generic
  (respond : A -> Routes.NextResponse L) h :
  guards awaited
    (Task.try_catch
       (a <- awaited ;; Task.ret (respond a))
       (fun error =>
          console LogError (js logged) (Some error) ;;;
          Task.ret (failure generic)))
    logged generic respond h.
Proof.
  unfold guards, Task.try_catch, Task.bind.
  destruct (awaited h) as [[a | e |] h1]; simpl; guard_case.
Qed.

(** C3: an error thrown while a route handles a GET request is caught,
    logged, and answered with status 500 and a generic error; the route
    never throws, and it answers with its data only when nothing was
    thrown. *)
Theorem routes_answer_errors_with_500 h :
  guards fetchAllPhotos (Routes.GET_photos (L:=L) fetchAllPhotos)
    "Failed to load photos" "Unable to load photos"
    (fun photos => Routes.json (Routes.PhotosBody photos) None) h /\
  guards fetchAllLogos (Routes.GET_logos fetchAllLogos)
    "Failed to load logos" "Unable to load logos"
    (fun logos => Routes.json (Routes.LogosBody logos) None) h /\
  guards (by_logo_awaited fetchPhotosByLogo params)
    (Routes.GET_photos_by_logo (L:=L) fetchPhotosByLogo params)
    "Failed to load photos by logo" "Unable to load photos for logo"
    by_logo_respond h.
Proof.
  split; [apply try_catch_guards |]. split; [apply try_catch_guards |].
  unfold guards, Routes.GET_photos_by_logo, by_logo_awaited,
    Task.try_catch, Task.bind.
  destruct (params h) as [[logoParam | e |] h1]; simpl; [| guard_case ..].
  destruct (Str.truthy logoParam); simpl; [| guard_case].
  destruct (fetchPhotosByLogo _ h1) as [[photos | e |] h2]; simpl; guard_case.
Qed.

End ClaimRoutes.

(** ** Chunks *)

Section Chunk.
Context {T : Type}.

Lemma chunk_from_concat fuel (items : list T) size :
  (0 < size)%nat -> (length items <= fuel)%nat ->
  concat (Ingest.chunk_from fuel items size) = items.
Proof.
  intros Hs. revert items.
  induction fuel as [| fuel IH]; intros items Hlen.
  - destruct items; [reflexivity | simpl in Hlen; lia].
  - destruct items as [| x items]; [reflexivity |].
    cbn [Ingest.chunk_from concat]. rewrite IH.
    + apply firstn_skipn.
    + rewrite length_skipn. simpl in *. lia.
Qed.

Lemma chunk_from_full fuel (items : list T) size i b :
  (0 < size)%nat -> (length items <= fuel)%nat ->
  Ingest.chunk_from fuel items size !! i = Some b ->
  b <> [] /\
  ((S i < length (Ingest.chunk_from fuel items size))%nat ->
   length b = size).
Proof.
  intros Hs. revert items i.
  induction fuel as [| fuel IH]; intros items i Hlen.
  - destruct items; discriminate.
  - destruct items as [| x items]; [discriminate |].
    cbn [Ingest.chunk_from].
    assert (Hrest : (length (List.skipn size (x :: items)) <= fuel)%nat).
    { rewrite length_skipn. simpl in *. lia. }
    destruct i as [| i]; cbn [lookup list_lookup].
    + intros [= <-]. split.
      * destruct size; [lia | discriminate].
      * cbn [length]. intros Hmore.
        destruct (List.skipn size (x :: items)) as [| y rest] eqn:E.
        { destruct fuel; simpl in Hmore; lia. }
        apply firstn_length_le.
        assert (length (List.skipn size (x :: items)) <> 0)%nat
          by (rewrite E; discriminate).
        rewrite length_skipn in H. lia.
    + intros Hb. destruct (IH _ _ Hrest Hb) as [Hne Hfull].
      split; [exact Hne |]. cbn [length]. intros Hmore. apply Hfull. lia.
Qed.

Lemma chunk_not_empty (items : list T) size b :
  (0 < size)%nat -> In b (Ingest.chunk items size) -> b <> [].
Proof.
  intros Hs Hb. apply list_elem_of_In, list_elem_of_lookup in Hb as [i Hi].
  unfold Ingest.chunk in Hi.
  eapply chunk_from_full; [exact Hs | | exact Hi]. lia.
Qed.

(** X4: [chunk] cuts the items into consecutive batches: put end to end the
    batches are the items, no batch is empty, none is longer than [size],
    and every batch but the last holds exactly [size] items. *)
Theorem chunk_partitions (items : list T) size :
  (0 < size)%nat ->
  concat (Ingest.chunk items size) = items /\
  Forall (fun b => b <> [] /\ (length b <= size)%nat)
    (Ingest.chunk items size) /\
  forall i b,
    Ingest.chunk items size !! i = Some b ->
    (S i < length (Ingest.chunk items size))%nat -> length b = size.
Proof.
  intros Hs. unfold Ingest.chunk. split; [| split].
  - now apply chunk_from_concat.
  - apply Forall_forall. intros b Hb.
    apply list_elem_of_lookup in Hb as [i Hi]. split.
    + eapply chunk_from_full; [exact Hs | | exact Hi]. lia.
    + eapply chunk_from_length, list_elem_of_In, list_elem_of_lookup_2, Hi.
  - intros i b Hi. eapply chunk_from_full; [exact Hs | | exact Hi]. lia.
Qed.

End Chunk.

(** ** Photo ids and sort keys *)

Lemma strip_prefix_app p s : Str.strip_prefix p (p ++ s) = Some s.
Proof. induction p as [| a p IH]; simpl; [reflexivity |]. now rewrite N.eqb_refl. Qed.

Lemma is_ext_body_dotted s t : Str.is_ext_body (s ++ Str.dot :: t) = false.
Proof.
  unfold Str.is_ext_body.
  destruct (s ++ Str.dot :: t) eqn:E; [now destruct s |]. rewrite <- E.
  rewrite forallb_app. simpl. now rewrite andb_false_r.
Qed.

Lemma strip_extension_stem stem ext :
  Str.is_ext_body ext = true ->
  Str.strip_extension (stem ++ Str.dot :: ext) = stem.
Proof.
  intros Hext. induction stem as [| a stem IH]; simpl.
  - now rewrite Hext.
  - now rewrite is_ext_body_dotted, andb_false_r, IH.
Qed.

Lemma sanitize_id_string s : id_string (Str.sanitize s).
Proof.
  induction s as [| u s IH]; simpl; constructor; [| exact IH].
  destruct (Str.is_id_char u) eqn:E; [exact E | reflexivity].
Qed.

Lemma before_hash_app s t :
  id_string s -> Str.before_hash (s ++ Str.hash :: t) = s.
Proof.
  induction 1 as [| u s Hu _ IH]; simpl; [reflexivity |].
  destruct (N.eqb_spec u Str.hash) as [-> | _]; [discriminate |].
  now rewrite IH.
Qed.

Lemma digits_value_uint d acc :
  List.fold_left (fun acc u => (acc * 10 + (N.to_nat u - 48))%nat)
    (js (NilEmpty.string_of_uint d)) acc
  = Nat.of_uint_acc d acc.
Proof.
  revert acc.
  induction d as [| d IH | d IH | d IH | d IH | d IH | d IH | d IH | d IH
                  | d IH | d IH]; intros acc; [reflexivity | ..];
    cbn [NilEmpty.string_of_uint js String.list_ascii_of_string List.map
         List.fold_left Nat.of_uint_acc];
    rewrite IH, Nat.tail_mul_spec; f_equal; vm_compute (N_of_ascii _); lia.
Qed.

Lemma digits_value_of_nat n : digits_value (Str.of_nat n) = n.
Proof.
  unfold digits_value, Str.of_nat. rewrite digits_value_uint.
  apply DecimalNat.Unsigned.of_to.
Qed.

Lemma digits_value_padStart4 s :
  digits_value (Str.padStart4 s) = digits_value s.
Proof.
  unfold digits_value, Str.padStart4. rewrite fold_left_app. f_equal.
  induction (4 - length s)%nat as [| k IH]; [reflexivity | exact IH].
Qed.

Lemma mapping_sortKey_index photoId i j :
  Ingest.mapping_sortKey photoId i = Ingest.mapping_sortKey photoId j -> i = j.
Proof.
  unfold Ingest.mapping_sortKey. intros H.
  apply app_inv_head in H. injection H as H.
  apply (f_equal digits_value) in H.
  now rewrite !digits_value_padStart4, !digits_value_of_nat in H.
Qed.

Section PhotoIds.
Context {rt : Runtime} (cfg : Ingest.Config).

Lemma keyToPhotoId_id_string key : id_string (Ingest.keyToPhotoId cfg key).
Proof. apply sanitize_id_string. Qed.

(** X5: The photo id of an object under the prefix is its stem: prefix and
    extension are dropped, and every unit of the stem outside
    [[a-zA-Z0-9_-]] becomes a dash.  (So objects that differ in their
    extension only, or in such units only, get one id.) *)
Theorem keyToPhotoId_of_stem stem ext :
  Str.is_ext_body ext = true ->
  Ingest.keyToPhotoId cfg (Ingest.S3_PREFIX cfg ++ stem ++ Str.dot :: ext)
  = Str.sanitize stem.
Proof.
  intros Hext. unfold Ingest.keyToPhotoId.
  rewrite strip_prefix_app. simpl. now rewrite strip_extension_stem.
Qed.

(** X6: The single-table repository finds the photo id of a mapping item that
    carries no [photoId] in front of the hash of its sort key; for a sort
    key that the ingestion composed this is the photo id it was composed
    from. *)
Theorem mapping_photoId_from_sort_key key i item :
  Repo.asString (Val.field item "photoId") = None ->
  Val.field item "SK"
  = VString (Ingest.mapping_sortKey (Ingest.keyToPhotoId cfg key) i) ->
  SingleTable.mapping_photoId item
  = configured (Some (Ingest.keyToPhotoId cfg key)).
Proof.
  intros Hid Hsk. unfold SingleTable.mapping_photoId.
  rewrite Hid, Hsk. cbn [Repo.asString]. unfold Ingest.mapping_sortKey.
  set (photoId := Ingest.keyToPhotoId cfg key).
  assert (Hne : configured (Some (photoId ++ [Str.hash]
                                    ++ Str.padStart4 (Str.of_nat i)))
                = Some (photoId ++ [Str.hash] ++ Str.padStart4 (Str.of_nat i))).
  { now destruct photoId. }
  rewrite Hne. cbn [app]. rewrite before_hash_app; [reflexivity |].
  apply keyToPhotoId_id_string.
Qed.

End PhotoIds.

(** ** The form of slugs *)

Lemma drop_end_while_last p s :
  match List.rev (Str.drop_end_while p s) with
  | u :: _ => p u = false
  | [] => True
  end.
Proof.
  induction s as [| u s IH]; simpl; [exact I |].
  destruct (Str.drop_end_while p s) as [| v r] eqn:E.
  - destruct (p u) eqn:Eu; simpl; [exact I | exact Eu].
  - change (List.rev (u :: v :: r)) with (List.rev (v :: r) ++ [u]).
    destruct (List.rev (v :: r)) as [| x l] eqn:Er; [| exact IH].
    apply (f_equal length) in Er. rewrite length_rev in Er. discriminate.
Qed.

Lemma drop_end_while_nil p s :
  Str.drop_end_while p s = [] -> Forall (fun u => p u = true) s.
Proof.
  induction s as [| u s IH]; simpl; [constructor |].
  destruct (Str.drop_end_while p s); [| discriminate].
  destruct (p u) eqn:E; [| discriminate].
  intros _. constructor; [exact E | now apply IH].
Qed.

Lemma drop_while_all p s :
  Forall (fun u => p u = true) (Str.drop_while p s) ->
  Forall (fun u => p u = true) s.
Proof.
  induction s as [| u s IH]; simpl; [trivial |].
  destruct (p u) eqn:E; [| trivial].
  intros H. constructor; [exact E | now apply IH].
Qed.

Lemma drop_while_of_all p s :
  Forall (fun u => p u = true) s -> Str.drop_while p s = [].
Proof. induction 1 as [| u s Hu _ IH]; simpl; [reflexivity | now rewrite Hu]. Qed.

Lemma strip_dashes_nil t :
  Str.strip_dashes t = [] <-> Forall (fun u => u = Str.dash) t.
Proof.
  unfold Str.strip_dashes. split.
  - intros H. apply drop_end_while_nil, drop_while_all in H.
    eapply Forall_impl; [exact H |]. intros u Hu.
    symmetry. now apply N.eqb_eq.
  - intros H. rewrite drop_while_of_all; [reflexivity |].
    eapply Forall_impl; [exact H |]. intros u ->. apply N.eqb_refl.
Qed.

Lemma replace_runs_dashes b s :
  Forall (fun u => u = Str.dash) (Str.replace_runs b s) <->
  Forall (fun u => Str.is_lower_alnum u = false) s.
Proof.
  revert b. induction s as [| u s IH]; intros b; simpl.
  - split; constructor.
  - destruct (Str.is_lower_alnum u) eqn:E.
    + split; intros H; inversion H; subst; [| congruence].
      now rewrite dash_not_alnum in E.
    + destruct b.
      * rewrite IH. split; [now constructor | now inversion 1].
      * split.
        -- inversion 1; subst. constructor; [exact E | now apply (IH true)].
        -- inversion 1; subst. constructor; [reflexivity | now apply (IH true)].
Qed.

Lemma strip_dashes_ends r :
  Str.strip_dashes r = r ->
  head_is_not Str.dash r /\ head_is_not Str.dash (List.rev r).
Proof.
  intros Hr. split.
  - destruct (strip_fixed (N.eqb Str.dash) r) as [H1 _]. cbv zeta in H1.
    fold (Str.strip_dashes r) in H1. rewrite Hr in H1.
    pose proof (drop_while_head (N.eqb Str.dash) r) as Hh.
    rewrite H1 in Hh. destruct r as [| u r]; [exact I |]. simpl.
    intros ->. now rewrite N.eqb_refl in Hh.
  - pose proof (drop_end_while_last (N.eqb Str.dash)
                  (Str.drop_while (N.eqb Str.dash) r)) as Hl.
    fold (Str.strip_dashes r) in Hl. rewrite Hr in Hl.
    destruct (List.rev r) as [| u l]; [exact I |]. simpl.
    intros ->. now rewrite N.eqb_refl in Hl.
Qed.

Section Slugs.
Context {rt : Runtime}.

(** A string that has the form of a slug is its own slug. *)
Lemma normalizeLogoName_of_slug (laws : RuntimeLaws rt) r :
  Forall slug_unit r -> no_double_dash r -> Str.strip_dashes r = r ->
  Dynamo.normalizeLogoName r = r.
Proof.
  intros Hu Hd Hs. unfold Dynamo.normalizeLogoName.
  assert (Htrim : Str.trim r = r).
  { unfold Str.trim.
    assert (Hsp : Forall (fun u => Str.is_space u = false) r).
    { eapply Forall_impl; [exact Hu | apply slug_unit_not_space]. }
    rewrite drop_while_none by exact Hsp.
    now apply drop_end_while_none. }
  rewrite Htrim, (toLowerCase_slug rt laws r Hu).
  destruct (replace_runs_fixed r Hu Hd) as [-> _]. exact Hs.
Qed.

Lemma normalizeLogoName_twice (laws : RuntimeLaws rt) name :
  Dynamo.normalizeLogoName (Dynamo.normalizeLogoName name)
  = Dynamo.normalizeLogoName name.
Proof.
  destruct (normalizeLogoName_shape name) as (Hu & Hd & Hs).
  now apply normalizeLogoName_of_slug.
Qed.

(** X1: The form of a slug: units in [[a-z0-9]] and dashes, never two dashes
    in a row, no dash at either end. *)
Theorem normalizeLogoName_is_slug name :
  Forall slug_unit (Dynamo.normalizeLogoName name) /\
  no_double_dash (Dynamo.normalizeLogoName name) /\
  head_is_not Str.dash (Dynamo.normalizeLogoName name) /\
  head_is_not Str.dash (List.rev (Dynamo.normalizeLogoName name)).
Proof.
  destruct (normalizeLogoName_shape name) as (Hu & Hd & Hs).
  repeat split; try assumption; now apply strip_dashes_ends.
Qed.

(** X2: The slug is empty exactly when the name, trimmed and in lower case,
    has no unit in [[a-z0-9]]. *)
Theorem normalizeLogoName_empty name :
  Dynamo.normalizeLogoName name = [] <->
  Forall (fun u => Str.is_lower_alnum u = false)
    (String_toLowerCase (Str.trim name)).
Proof.
  unfold Dynamo.normalizeLogoName.
  now rewrite strip_dashes_nil, replace_runs_dashes.
Qed.

End Slugs.

(** ** Public URLs *)

Lemma strip_trailing_slash_nil b :
  b <> [] -> b <> js "/" -> Str.strip_trailing_slash b <> [].
Proof.
  intros Hne Hslash. unfold Str.strip_trailing_slash.
  destruct (Str.ends_with_slash b) eqn:E; [| exact Hne].
  destruct b as [| u [| v b]]; [contradiction | | discriminate].
  unfold Str.ends_with_slash in E. simpl in E.
  apply N.eqb_eq in E. subst. contradiction.
Qed.

Section PublicUrls.
Context (env : Env) (cfg : Ingest.Config).

Lemma resolvePublicUrl_not_empty publicUrl s3Key :
  Dynamo.resolvePublicUrl env publicUrl s3Key <> Some [].
Proof.
  unfold Dynamo.resolvePublicUrl.
  destruct (configured publicUrl) as [url |] eqn:Eu.
  { apply configured_Some in Eu as [_ Hne]. congruence. }
  destruct (configured s3Key) as [key |]; [| discriminate].
  destruct (configured (S3_PUBLIC_BASE_URL env)) as [base |]; [| discriminate].
  now destruct (Str.strip_trailing_slash base).
Qed.

(** X3: The repository and the ingestion agree on the public URL of an
    object: for an item without [publicUrl] the repository computes the
    URL the ingestion builds, and a URL the ingestion stored is returned
    as it is.  Both read the same base URL, which is not the bare slash
    (that one the ingestion takes for no base at all). *)
Theorem resolvePublicUrl_agrees_with_buildPublicUrl key :
  S3_PUBLIC_BASE_URL env = Ingest.S3_PUBLIC_BASE_URL cfg ->
  S3_PUBLIC_BASE_URL env <> Some (js "/") ->
  key <> [] ->
  Dynamo.resolvePublicUrl env None (Some key) = Ingest.buildPublicUrl cfg key /\
  Dynamo.resolvePublicUrl env (Ingest.buildPublicUrl cfg key) (Some key)
  = Ingest.buildPublicUrl cfg key.
Proof.
  intros Hbase Hslash Hkey.
  assert (H1 : Dynamo.resolvePublicUrl env None (Some key)
               = Ingest.buildPublicUrl cfg key).
  { unfold Dynamo.resolvePublicUrl, Ingest.buildPublicUrl,
      Ingest.publicBaseUrl.
    rewrite <- Hbase. simpl.
    destruct key as [| u key]; [contradiction |]. simpl.
    destruct (S3_PUBLIC_BASE_URL env) as [[| v base] |]; simpl;
      [reflexivity | | reflexivity].
    assert (Hs : Str.strip_trailing_slash (v :: base) <> []).
    { apply strip_trailing_slash_nil; [discriminate | congruence]. }
    now destruct (Str.strip_trailing_slash (v :: base)). }
  split; [exact H1 |].
  destruct (Ingest.buildPublicUrl cfg key) as [url |] eqn:E; [| exact H1].
  unfold Ingest.buildPublicUrl in E.
  destruct (configured (Ingest.publicBaseUrl cfg)) as [base |];
    [| discriminate].
  injection E as <-. unfold Dynamo.resolvePublicUrl.
  now destruct base.
Qed.

End PublicUrls.

(** ** Listing the bucket *)

Lemma listObjects_done w token out h h' :
  listObjects w token h = (Done out, h') ->
  s3_list w h token = Returns out /\ h' = h ++ [Listed token].
Proof. intros H. unfold listObjects in H. now apply request_done in H. Qed.

Lemma firstn_In {A} n (l : list A) x : In x (List.firstn n l) -> In x l.
Proof.
  intros H. rewrite <- (firstn_skipn n l). apply in_or_app. now left.
Qed.

Section Listing.
Context (cfg : Ingest.Config) (w : World).

Lemma batch_keys_In contents key :
  In key (Ingest.batch_keys contents) ->
  Ingest.accepted key = true /\ In {| Key := Some key |} contents.
Proof.
  unfold Ingest.batch_keys. intros H. apply omap_In in H as (object & Hin & H).
  destruct object as [[k |]]; simpl in H; [| discriminate].
  destruct (Ingest.accepted k) eqn:E; [| discriminate].
  injection H as ->. auto.
Qed.

Lemma listPhotos_loop_keys fuel keys token h out h' :
  Forall (fun key => Ingest.accepted key = true /\ listed w key) keys ->
  Ingest.listPhotos_loop cfg w fuel keys token h = (Done out, h') ->
  Forall (fun key => Ingest.accepted key = true /\ listed w key) out.
Proof.
  revert keys token h.
  induction fuel as [| fuel IH]; intros keys token h Hkeys H; [discriminate |].
  simpl in H. apply bind_done in H as (response & h1 & Hl & H).
  apply listObjects_done in Hl as [Hl ->].
  assert (Hall : Forall (fun key => Ingest.accepted key = true /\ listed w key)
                   (keys ++ Ingest.batch_keys (default [] (Contents response)))).
  { apply Forall_app. split; [exact Hkeys |]. apply Forall_forall.
    intros key Hin. apply list_elem_of_In, batch_keys_In in Hin as [Ha Hin].
    split; [exact Ha |]. now exists h, token, response. }
  destruct (_ <=? _)%nat.
  - apply ret_done in H as [<- _]. exact Hall.
  - destruct (configured _).
    + eapply IH; eassumption.
    + apply ret_done in H as [<- _]. exact Hall.
Qed.

Lemma listPhotos_keys fuel h keys h' :
  Ingest.listPhotos cfg w fuel h = (Done keys, h') ->
  (length keys <= Ingest.MAX_ITEMS cfg)%nat /\
  Forall (fun key => Ingest.accepted key = true /\ listed w key) keys.
Proof.
  unfold Ingest.listPhotos. intros H.
  apply bind_done in H as (all & h1 & Hloop & H).
  apply ret_done in H as [<- _]. split; [apply firstn_le_length |].
  apply listPhotos_loop_keys in Hloop; [| constructor].
  apply Forall_forall. intros key Hin.
  apply list_elem_of_In, firstn_In in Hin.
  rewrite Forall_forall in Hloop. now apply Hloop, list_elem_of_In.
Qed.

(** X7: [listPhotos] returns at most [MAX_ITEMS] keys; each of them is the
    key of an object that S3 listed, is not empty and does not end with a
    slash. *)
Theorem listPhotos_bounded fuel h keys h' :
  Ingest.listPhotos cfg w fuel h = (Done keys, h') ->
  (length keys <= Ingest.MAX_ITEMS cfg)%nat /\
  Forall (fun key =>
            key <> [] /\ Str.ends_with_slash key = false /\ listed w key)
    keys.
Proof.
  intros H. apply listPhotos_keys in H as [Hlen Hkeys].
  split; [exact Hlen |].
  eapply Forall_impl; [exact Hkeys |]. intros key [Ha Hl].
  unfold Ingest.accepted in Ha. apply andb_true_iff in Ha as [Ht Hs].
  repeat split; [| now apply negb_true_iff in Hs | exact Hl].
  intros ->. discriminate.
Qed.

End Listing.

(** ** What [detectLogosForKey] returns *)

Section Detections.
Context {rt : Runtime} (w : World).

Lemma detections_from_indices i annotations h ds h' :
  Forall (fun a => Ingest.has_description a = true) annotations ->
  Ingest.detections_from i annotations h = (Done ds, h') ->
  List.map Ingest.LogoDetection.detectionIndex ds = List.seq i (length ds) /\
  Forall well_formed ds.
Proof.
  intros Hall. revert i h ds h'.
  induction Hall as [| a l Ha _ IH]; simpl; intros i h ds h' H.
  - task_inv. subst. split; [reflexivity | constructor].
  - unfold Ingest.detection_of in H. repeat task_inv. subst.
    match goal with Hd : Ingest.detections_from _ _ _ = _ |- _ =>
      destruct (IH _ _ _ _ Hd) as [Hi Hw] end.
    split; [simpl; now rewrite Hi |].
    constructor; [| exact Hw]. split; [| reflexivity]. simpl.
    unfold Ingest.has_description in Ha.
    destruct (description a) as [[| u s] |]; discriminate.
Qed.

Lemma detectLogosForKey_indices key h logos h' :
  Ingest.detectLogosForKey w key h = (Done logos, h') ->
  List.map Ingest.LogoDetection.detectionIndex logos
  = List.seq 0 (length logos) /\
  Forall well_formed logos.
Proof.
  unfold Ingest.detectLogosForKey. intros H. task_inv. task_inv.
  destruct (Body _); [| discriminate].
  repeat task_inv. subst.
  match goal with Hd : Ingest.detections_from _ _ _ = _ |- _ =>
    apply detections_from_indices in Hd; [exact Hd |] end.
  apply Forall_forall. intros a Ha.
  apply list_elem_of_In, filter_In in Ha. apply Ha.
Qed.

(** X8: The detections [detectLogosForKey] returns are numbered from zero
    in the order in which they are returned: the detection at position [i]
    has the index [i].  Each has a name that is not empty, and its slug is
    [normalizeLogoName] of its name. *)
Theorem detectLogosForKey_numbers_detections key h logos h' :
  Ingest.detectLogosForKey w key h = (Done logos, h') ->
  forall (i : nat) d,
    logos !! i = Some d ->
    Ingest.LogoDetection.detectionIndex d = i /\ well_formed d.
Proof.
  intros H i d Hd. apply detectLogosForKey_indices in H as [Hi Hw]. split.
  - apply (f_equal (fun l => l !! i)) in Hi.
    change (List.map Ingest.LogoDetection.detectionIndex logos)
      with (Ingest.LogoDetection.detectionIndex <$> logos) in Hi.
    rewrite list_lookup_fmap, Hd in Hi. simpl in Hi.
    apply lookup_lt_Some in Hd.
    rewrite lookup_seq_lt in Hi by exact Hd. now injection Hi.
  - rewrite Forall_forall in Hw. eapply Hw, list_elem_of_lookup_2, Hd.
Qed.

(** X9: The mapping items that the two scripts write for the detections of
    one photo have sort keys that differ from one another, so that no
    item of a photo takes the place of another. *)
Theorem mapping_sort_keys_distinct key h logos h' photoId now publicUrl :
  Ingest.detectLogosForKey w key h = (Done logos, h') ->
  NoDup (List.map
           (fun logo =>
              Val.field (IngestDecoupled.mapping_item photoId now logo)
                "sortKey")
           logos) /\
  NoDup (List.map
           (fun logo =>
              Val.field (IngestSingle.mapping_item photoId publicUrl logo) "SK")
           logos).
Proof.
  intros H. apply detectLogosForKey_indices in H as [Hi _].
  assert (Hinj : Inj (=) (=) (Ingest.mapping_sortKey photoId)).
  { intros i j. apply mapping_sortKey_index. }
  assert (Hstr : Inj (=) (=) VString) by (now intros a b [= ->]).
  assert (Hkeys : NoDup (List.map VString
                           (List.map (Ingest.mapping_sortKey photoId)
                              (List.map Ingest.LogoDetection.detectionIndex
                                 logos)))).
  { rewrite Hi.
    apply (NoDup_fmap_2 VString), (NoDup_fmap_2 (Ingest.mapping_sortKey photoId)).
    apply NoDup_ListNoDup, seq_NoDup. }
  rewrite !List.map_map in Hkeys.
  split; exact Hkeys.
Qed.

End Detections.

(** ** The summaries of a photo *)

Lemma gt_replaces x c c' :
  Num.gt x c = true -> Num.gt c' c = false -> Num.gt c' x = false.
Proof.
  destruct x as [| [] | x], c as [| [] | c], c' as [| [] | c'];
    simpl; try easy.
  destruct (Qcompare_spec x c) as [? | ? | Hxc]; try easy.
  destruct (Qcompare_spec c' c) as [Hc | Hc | Hc]; try easy;
    intros _ _; destruct (Qcompare_spec c' x) as [? | ? | Hx]; try easy; lra.
Qed.

Section MapEntries.
Context {V : Type}.

Lemma Map_get_set k v (m : list (jsstring * V)) k' :
  Ingest.Map_get k' (Ingest.Map_set k v m)
  = if decide (k = k') then Some v else Ingest.Map_get k' m.
Proof.
  induction m as [| [k0 v0] m IH]; simpl.
  - repeat case_decide; congruence.
  - destruct (decide (k0 = k)) as [-> | Hne]; simpl.
    + repeat case_decide; congruence.
    + rewrite IH. repeat case_decide; congruence.
Qed.

Lemma Map_get_None k (m : list (jsstring * V)) :
  Ingest.Map_get k m = None <-> ~ In k (List.map fst m).
Proof.
  induction m as [| [k0 v0] m IH]; simpl; [tauto |].
  case_decide; [split; [discriminate | tauto] |].
  rewrite IH. tauto.
Qed.

Lemma Map_set_keys k v (m : list (jsstring * V)) :
  List.map fst (Ingest.Map_set k v m)
  = if includes k (List.map fst m) then List.map fst m
    else List.map fst m ++ [k].
Proof.
  induction m as [| [k0 v0] m IH]; simpl; [reflexivity |].
  unfold includes in *. destruct (decide (k0 = k)) as [-> | E0]; simpl.
  - rewrite bool_decide_eq_true_2; [reflexivity | constructor].
  - rewrite IH. destruct (bool_decide (k ∈ List.map fst m)) eqn:E.
    + apply bool_decide_eq_true in E.
      rewrite bool_decide_eq_true_2; [reflexivity | now constructor].
    + apply bool_decide_eq_false in E.
      rewrite bool_decide_eq_false_2; [reflexivity |].
      intros Hin. apply elem_of_cons in Hin as [-> | Hin]; congruence.
Qed.

Lemma Map_get_In k v (m : list (jsstring * V)) :
  NoDup (List.map fst m) -> In (k, v) m -> Ingest.Map_get k m = Some v.
Proof.
  induction m as [| [k0 v0] m IH]; simpl; [easy |].
  intros Hnd [[= -> ->] | Hin].
  - now rewrite decide_True.
  - apply NoDup_cons in Hnd as [Hk0 Hnd]. rewrite decide_False.
    + now apply IH.
    + intros ->. apply Hk0, list_elem_of_In.
      now apply (in_map fst) in Hin.
Qed.

End MapEntries.

Section Summaries.

Local Abbreviation step := summarize_step.
Local Abbreviation kept := summaries_kept.

Lemma step_keys m logo :
  List.map fst (step m logo)
  = if includes (Ingest.LogoDetection.slug logo) (List.map fst m)
    then List.map fst m
    else List.map fst m ++ [Ingest.LogoDetection.slug logo].
Proof.
  unfold summarize_step.
  destruct (Ingest.Map_get _ m) as [current |] eqn:E.
  - assert (Hin : includes (Ingest.LogoDetection.slug logo) (List.map fst m)
                  = true).
    { destruct (includes _ _) eqn:Ei; [reflexivity |].
      assert (Hout : ~ In (Ingest.LogoDetection.slug logo) (List.map fst m)).
      { intros Hin. apply includes_spec in Hin. congruence. }
      apply Map_get_None in Hout. congruence. }
    destruct (Num.gt _ _); [rewrite Map_set_keys |]; now rewrite Hin.
  - rewrite Map_set_keys.
    apply Map_get_None in E.
    destruct (includes _ _) eqn:Ei; [| reflexivity].
    now apply includes_spec in Ei.
Qed.

Lemma fold_keys logos m :
  List.map fst (List.fold_left step logos m)
  = List.map fst m
    ++ first_occurrences_from (List.map fst m)
         (List.map Ingest.LogoDetection.slug logos).
Proof.
  revert m. induction logos as [| logo logos IH]; intros m; simpl.
  - now rewrite app_nil_r.
  - rewrite IH, step_keys.
    destruct (includes _ _); [reflexivity |].
    now rewrite <- app_assoc.
Qed.

Lemma step_kept m seen logo :
  kept m seen -> kept (step m logo) (seen ++ [logo]).
Proof.
  intros [Hall Hk].
  assert (Hstep : forall slug,
             Ingest.Map_get slug (step m logo)
             = if decide (Ingest.LogoDetection.slug logo = slug)
               then match Ingest.Map_get slug m with
                    | Some current =>
                        if Num.gt (Ingest.LogoDetection.confidence logo)
                             current.1
                        then Some (Ingest.LogoDetection.confidence logo,
                                   Ingest.LogoDetection.name logo)
                        else Some current
                    | None => Some (Ingest.LogoDetection.confidence logo,
                                    Ingest.LogoDetection.name logo)
                    end
               else Ingest.Map_get slug m).
  { intros slug. unfold summarize_step.
    destruct (Ingest.Map_get (Ingest.LogoDetection.slug logo) m)
      as [current |] eqn:E.
    - destruct (Num.gt _ _) eqn:Egt.
      + rewrite Map_get_set. case_decide as Es; [| reflexivity].
        subst slug. now rewrite E, Egt.
      + case_decide as Es; [| reflexivity]. subst slug. now rewrite E, Egt.
    - rewrite Map_get_set. case_decide as Es; [| reflexivity].
      subst slug. now rewrite E. }
  split.
  - intros l0 Hin. rewrite Hstep. case_decide as Es.
    + destruct (Ingest.Map_get _ m) as [current |]; [| discriminate].
      destruct (Num.gt _ _); discriminate.
    + apply in_app_or in Hin as [Hin | [<- | []]];
        [now apply Hall | contradiction].
  - intros slug c name. rewrite Hstep. case_decide as Es.
    + subst slug.
      destruct (Ingest.Map_get _ m) as [[c0 name0] |] eqn:E.
      * destruct (Hk _ _ _ E) as [(l0 & Hin0 & Hl0) Hmax].
        destruct (Num.gt _ _) eqn:Egt; simpl in Egt; intros [= <- <-].
        -- split.
           ++ exists logo. split; [apply in_or_app; right; now left | auto].
           ++ intros l1 Hin1 Hs.
              apply in_app_or in Hin1 as [Hin1 | [<- | []]];
                [| apply gt_irrefl].
              eapply gt_replaces; [exact Egt | now apply Hmax].
        -- split.
           ++ exists l0. split; [apply in_or_app; now left | exact Hl0].
           ++ intros l1 Hin1 Hs.
              apply in_app_or in Hin1 as [Hin1 | [<- | []]];
                [now apply Hmax | exact Egt].
      * intros [= <- <-]. split.
        -- exists logo. split; [apply in_or_app; right; now left | auto].
        -- intros l1 Hin1 Hs.
           apply in_app_or in Hin1 as [Hin1 | [<- | []]];
             [| apply gt_irrefl].
           apply Hall in Hin1. rewrite Hs in Hin1. contradiction.
    + intros Hget. destruct (Hk _ _ _ Hget) as [(l0 & Hin0 & Hl0) Hmax].
      split.
      * exists l0. split; [apply in_or_app; now left | exact Hl0].
      * intros l1 Hin1 Hs.
        apply in_app_or in Hin1 as [Hin1 | [<- | []]];
          [now apply Hmax | contradiction].
Qed.

Lemma fold_kept logos m seen :
  kept m seen -> kept (List.fold_left step logos m) (seen ++ logos).
Proof.
  revert m seen. induction logos as [| logo logos IH]; intros m seen Hk; simpl.
  - now rewrite app_nil_r.
  - replace (seen ++ logo :: logos) with ((seen ++ [logo]) ++ logos)
      by now rewrite <- app_assoc.
    apply IH, step_kept, Hk.
Qed.

(** X10: [savePhoto] and [savePhotoDecoupled] update one summary for each slug
    among the detections of the photo, in the order in which the slugs
    first occur; the update of a slug carries the confidence and the name
    of one of the detections of the slug, and none of them has a greater
    confidence. *)
Theorem summarize_greatest logos :
  List.map fst (Ingest.summarize logos)
  = first_occurrences (List.map Ingest.LogoDetection.slug logos) /\
  forall slug c name,
    In (slug, (c, name)) (Ingest.summarize logos) ->
    (exists logo,
       In logo logos /\ Ingest.LogoDetection.slug logo = slug /\
       Ingest.LogoDetection.confidence logo = c /\
       Ingest.LogoDetection.name logo = name) /\
    forall logo,
      In logo logos -> Ingest.LogoDetection.slug logo = slug ->
      Num.gt (Ingest.LogoDetection.confidence logo) c = false.
Proof.
  change (Ingest.summarize logos) with (List.fold_left step logos []).
  pose proof (fold_keys logos []) as Hkeys. simpl in Hkeys.
  split; [exact Hkeys |].
  intros slug c name Hin.
  assert (Hk : kept [] []) by (split; [intros ? [] | discriminate]).
  apply (fold_kept logos) in Hk as [_ Hk]. simpl in Hk.
  apply Hk, Map_get_In; [| exact Hin].
  rewrite Hkeys. apply first_occurrences_from_NoDup.
Qed.

End Summaries.

(** ** What saving a photo sends *)

Lemma for_each_events {A} (l : list A) body (ev : A -> Event) h :
  (forall x h, In x l -> body x h = (Done tt, h ++ [ev x])) ->
  Task.for_each l body h = (Done tt, h ++ List.map ev l).
Proof.
  revert h. induction l as [| x l IH]; intros h Hb; simpl.
  - now rewrite app_nil_r.
  - unfold Task.bind. rewrite Hb by now left.
    rewrite IH by (intros; apply Hb; now right).
    now rewrite <- app_assoc.
Qed.

Lemma bind_run {A B} (m : Task A) (f : A -> Task B) h a h1 :
  m h = (Done a, h1) -> Task.bind m f h = f a h1.
Proof. intros H. unfold Task.bind. now rewrite H. Qed.

Section Saving.
Context (cfg : Ingest.Config) (w : World).

Lemma send_obliging cmd h :
  obliging w ->
  exists out,
    send w cmd h = (Done out, h ++ [Sent cmd]) /\
    forall table, unprocessed_of table out = [].
Proof.
  intros Ho. destruct (Ho h cmd) as (out & Hs & Hu). exists out.
  split; [| exact Hu]. unfold send, Task.request. now rewrite Hs.
Qed.

Lemma writeMappingBatch_once fuel batch table h :
  obliging w -> (0 < fuel)%nat -> batch <> [] ->
  Ingest.writeMappingBatch w fuel batch table h
  = (Done tt, h ++ [Sent (BatchWriteCommand table batch)]).
Proof.
  intros Ho Hf Hb. unfold Ingest.writeMappingBatch.
  destruct batch as [| r batch]; [contradiction |].
  destruct fuel as [| fuel]; [lia |]. simpl. unfold Task.bind.
  destruct (send_obliging (BatchWriteCommand table (r :: batch)) h Ho)
    as (out & -> & Hu).
  specialize (Hu table). unfold unprocessed_of in Hu. now rewrite Hu.
Qed.

Lemma mapping_writes_once fuel table (writes : list WriteRequest) h :
  obliging w -> (0 < fuel)%nat ->
  Task.for_each (Ingest.chunk writes 25)
    (fun batch => Ingest.writeMappingBatch w fuel batch table) h
  = (Done tt,
     h ++ List.map (fun batch => Sent (BatchWriteCommand table batch))
            (Ingest.chunk writes 25)).
Proof.
  intros Ho Hf. apply for_each_events. intros batch h0 Hin.
  apply writeMappingBatch_once; [exact Ho | exact Hf |].
  eapply chunk_not_empty; [| exact Hin]. lia.
Qed.

Lemma updates_once (update : jsstring * (number * jsstring) -> Command)
    entries h :
  obliging w ->
  Task.for_each entries (fun entry => send w (update entry) ;;; Task.ret tt) h
  = (Done tt, h ++ List.map (fun entry => Sent (update entry)) entries).
Proof.
  intros Ho. apply for_each_events. intros entry h0 _. unfold Task.bind.
  now destruct (send_obliging (update entry) h0 Ho) as (out & -> & _).
Qed.

(** X11: When DynamoDB takes every write at once, saving a photo reads the
    clock and then sends the put of the photo item, one batch write for
    each batch of 25 mapping items, and one update for each slug among the
    detections, in this order and nothing else.  With no detection this
    is the put alone. *)
Theorem savePhoto_sends t1 t2 t3 table fuel key logos h :
  obliging w -> (0 < fuel)%nat ->
  let now := clock_now w h in
  let photoId := Ingest.keyToPhotoId cfg key in
  IngestDecoupled.savePhotoDecoupled cfg w t1 t2 t3 fuel key logos h
  = (Done tt,
     h ++ [ClockRead; Sent (PutCommand t1 (decoupled_photo_item cfg key now))]
       ++ List.map (fun batch => Sent (BatchWriteCommand t2 batch))
            (Ingest.chunk
               (List.map
                  (fun logo =>
                     PutRequest (IngestDecoupled.mapping_item photoId now logo))
                  logos)
               25)
       ++ List.map (fun entry => Sent (IngestDecoupled.summary_update t3 now entry))
            (Ingest.summarize logos)) /\
  IngestSingle.savePhoto cfg w table fuel key logos h
  = (Done tt,
     h ++ [ClockRead;
           Sent (PutCommand table (single_photo_item cfg key now logos))]
       ++ List.map (fun batch => Sent (BatchWriteCommand table batch))
            (Ingest.chunk
               (List.map
                  (fun logo =>
                     PutRequest
                       (IngestSingle.mapping_item photoId
                          (Ingest.buildPublicUrl cfg key) logo))
                  logos)
               25)
       ++ List.map (fun entry => Sent (IngestSingle.summary_update table entry))
            (Ingest.summarize logos)).
Proof.
  intros Ho Hf now0 photoId.
  assert (Hnow : now w h = (Done now0, h ++ [ClockRead])) by reflexivity.
  split.
  - unfold IngestDecoupled.savePhotoDecoupled.
    rewrite (bind_run _ _ _ _ _ Hnow). fold photoId.
    match goal with |- context [send w ?cmd] =>
      destruct (send_obliging cmd (h ++ [ClockRead]) Ho) as (out & Hput & _)
    end.
    rewrite (bind_run _ _ _ _ _ Hput).
    destruct logos as [| logo logos].
    { unfold Task.ret. simpl. now rewrite <- !app_assoc. }
    erewrite bind_run by (now apply mapping_writes_once).
    rewrite (updates_once (IngestDecoupled.summary_update t3 now0)) by exact Ho.
    now rewrite <- !app_assoc.
  - unfold IngestSingle.savePhoto.
    rewrite (bind_run _ _ _ _ _ Hnow). fold photoId.
    match goal with |- context [send w ?cmd] =>
      destruct (send_obliging cmd (h ++ [ClockRead]) Ho) as (out & Hput & _)
    end.
    rewrite (bind_run _ _ _ _ _ Hput).
    destruct logos as [| logo logos].
    { unfold Task.ret. simpl. now rewrite <- !app_assoc. }
    erewrite bind_run by (now apply mapping_writes_once).
    rewrite (updates_once (IngestSingle.summary_update table)) by exact Ho.
    now rewrite <- !app_assoc.
Qed.

End Saving.

(** ** The size of batch writes *)

(** What saving a photo appends to the history, for a property [P] that
    holds of the clock, of the log, of every command that is not a batch
    write, and of what the retry loop sends when it starts from a batch of
    1 to 25 requests. *)
Section SavingEmits.
Context {rt : Runtime} (cfg : Ingest.Config) (w : World).
Context (P : Event -> Prop).
Context (Hclock : P ClockRead).
Context (Hsent : forall cmd, plain (Sent cmd) -> P (Sent cmd)).
Context (Hloop : forall fuel table requests,
            (1 <= length requests <= 25)%nat ->
            emits P (Ingest.writeMappingBatch_loop w fuel table requests)).

Lemma mapping_writes_within fuel table (writes : list WriteRequest) :
  emits P
    (Task.for_each (Ingest.chunk writes 25)
       (fun batch => Ingest.writeMappingBatch w fuel batch table)).
Proof.
  apply emits_for_each. intros batch Hb. unfold Ingest.writeMappingBatch.
  apply chunk_from_length in Hb.
  destruct batch as [| r rest]; [apply emits_ret |].
  apply Hloop. simpl in *. lia.
Qed.

Lemma updates_within (update : jsstring * (number * jsstring) -> Command)
    entries :
  (forall entry, plain (Sent (update entry))) ->
  emits P
    (Task.for_each entries (fun entry => send w (update entry) ;;; Task.ret tt)).
Proof.
  intros Hp. apply emits_for_each. intros entry _.
  apply emits_bind; [| intros _; apply emits_ret].
  apply emits_request, Hsent, Hp.
Qed.

Lemma savePhotoDecoupled_within t1 t2 t3 fuel key logos :
  emits P (IngestDecoupled.savePhotoDecoupled cfg w t1 t2 t3 fuel key logos).
Proof.
  unfold IngestDecoupled.savePhotoDecoupled.
  apply emits_bind; [now apply emits_now | intros now0].
  apply emits_bind; [now apply emits_request, Hsent | intros _].
  destruct logos; [apply emits_ret |].
  apply emits_bind; [apply mapping_writes_within | intros _].
  now apply updates_within.
Qed.

Lemma savePhoto_within table fuel key logos :
  emits P (IngestSingle.savePhoto cfg w table fuel key logos).
Proof.
  unfold IngestSingle.savePhoto.
  apply emits_bind; [now apply emits_now | intros now0].
  apply emits_bind; [now apply emits_request, Hsent | intros _].
  destruct logos; [apply emits_ret |].
  apply emits_bind; [apply mapping_writes_within | intros _].
  now apply updates_within.
Qed.

End SavingEmits.

Lemma plain_within n ev : plain ev -> batch_within n ev.
Proof. destruct ev as [[] | | | | |]; simpl; tauto. Qed.

Lemma loop_within w n fuel table requests :
  never_grows w ->
  (1 <= length requests <= n)%nat ->
  emits (batch_within n) (Ingest.writeMappingBatch_loop w fuel table requests).
Proof.
  intros Hgrows. revert requests.
  induction fuel as [| fuel IH]; intros requests Hlen; simpl.
  - apply emits_unfinished.
  - apply emits_bind_at; [now apply emits_request |].
    intros h response h1 Hsend. apply send_done in Hsend as [Hsend _].
    pose proof (Hgrows _ _ _ _ Hsend) as Hless. unfold unprocessed_of in Hless.
    destruct (default [] _) as [| r rest] eqn:E; [apply emits_ret |].
    apply emits_bind; [now apply emits_console |].
    intros _. apply IH. simpl in *. lia.
Qed.

(** X12: Every batch write that the ingestion sends, a retry included, carries
    at least one request and at most 25, the most DynamoDB takes in one
    batch write; DynamoDB is taken to report as unprocessed no more than
    was submitted. *)
Theorem batch_writes_within_limit {rt : Runtime} cfg w t1 t2 t3 table fuel :
  never_grows w ->
  emits (batch_within 25) (IngestDecoupled.main cfg w t1 t2 t3 fuel) /\
  emits (batch_within 25) (IngestSingle.main cfg w table fuel).
Proof.
  intros Hgrows.
  assert (Hsent : forall cmd, plain (Sent cmd) -> batch_within 25 (Sent cmd))
    by (intros cmd; apply plain_within).
  split.
  - apply main_emits; [apply plain_within |]. intros key logos.
    apply savePhotoDecoupled_within; try easy.
    intros. now apply loop_within.
  - apply main_emits; [apply plain_within |]. intros key logos.
    apply savePhoto_within; try easy.
    intros. now apply loop_within.
Qed.

(** ** Written by the ingestion, read by the repositories *)

Section RoundTrips.
Context {rt : Runtime} (env : Env) (cfg : Ingest.Config).

Lemma asNumber_or_zero_of_finite n :
  Num.isFinite n = true -> Repo.asNumber_or_zero (VNumber n) = n.
Proof.
  intros Hn. unfold Repo.asNumber_or_zero, Repo.asNumber. now rewrite Hn.
Qed.

Lemma mapPoint_point_value poly :
  Forall finite_point poly ->
  rmap Decoupled.mapPoint (List.map Ingest.point_value poly) = Returns poly.
Proof.
  induction 1 as [| [x y] poly [Hx Hy] _ IH]; simpl; [reflexivity |].
  rewrite IH. unfold Decoupled.mapPoint. simpl in *.
  now rewrite !asNumber_or_zero_of_finite.
Qed.

(** X14: What [savePhotoDecoupled] writes, the three-table repository reads
    back: the photo item gives the record of the photo with its id, key,
    URL and time of creation, and the mapping item of a detection gives
    the detection, name, slug, confidence, index and bounding polygon.
    (The Numbers of the detection are finite.) *)
Theorem decoupled_items_read_back key now logo :
  finite_detected logo ->
  Decoupled.mapPhotoItem env (decoupled_photo_item cfg key now)
  = saved_record env cfg key now /\
  Decoupled.mapLogoMapping
    (IngestDecoupled.mapping_item (Ingest.keyToPhotoId cfg key) now logo)
  = Returns (as_read logo).
Proof.
  intros [Hc Hpoly]. split.
  - unfold Decoupled.mapPhotoItem, decoupled_photo_item, saved_record. simpl.
    now destruct (Ingest.buildPublicUrl cfg key).
  - unfold Decoupled.mapLogoMapping, IngestDecoupled.mapping_item, as_read.
    destruct logo as [name slug c poly i]. simpl in *.
    rewrite asNumber_or_zero_of_finite by exact Hc.
    destruct poly as [poly |]; simpl; [| reflexivity].
    now rewrite mapPoint_point_value by now apply Hpoly.
Qed.

(** X15: What [savePhoto] writes, the single-table repository reads back in
    part: the photo item gives the record of the photo with its id, key,
    URL and time of creation, and without logos, since the detections are
    written as [detectedLogos] and read from [detections]; the mapping
    item of a detection gives the id of the photo and the confidence. *)
Theorem single_items_read_back key now logos logo :
  SingleTable.mapPhotoItem env (single_photo_item cfg key now logos)
  = Returns (saved_record env cfg key now) /\
  SingleTable.mapping_photoId
    (IngestSingle.mapping_item (Ingest.keyToPhotoId cfg key)
       (Ingest.buildPublicUrl cfg key) logo)
  = configured (Some (Ingest.keyToPhotoId cfg key)) /\
  Repo.asNumber
    (Val.field
       (IngestSingle.mapping_item (Ingest.keyToPhotoId cfg key)
          (Ingest.buildPublicUrl cfg key) logo)
       "confidence")
  = if Num.isFinite (Ingest.LogoDetection.confidence logo)
    then Some (Ingest.LogoDetection.confidence logo) else None.
Proof.
  split; [| split].
  - unfold SingleTable.mapPhotoItem, single_photo_item, saved_record. simpl.
    now destruct (Ingest.buildPublicUrl cfg key).
  - reflexivity.
  - reflexivity.
Qed.

End RoundTrips.

Section QueryKeys.
Context {rt : Runtime} (env : Env) (w : World).

Ltac queries_step :=
  first
    [ apply emits_ret | apply emits_throw | apply emits_lift
    | apply emits_request; exact I
    | apply emits_bind; [| intros ?] ].

Lemma require_queries P v message :
  emits P (Decoupled.require v message).
Proof.
  unfold Decoupled.require.
  destruct (configured v); [apply emits_ret | apply emits_throw].
Qed.

Lemma decoupled_queries q :
  emits (queries_for "logoSlug" (VString (Dynamo.normalizeLogoName q)))
    (Decoupled.fetchPhotosByLogo env w q).
Proof.
  unfold Decoupled.fetchPhotosByLogo, send.
  do 2 (queries_step; [apply require_queries |]).
  queries_step; [now apply emits_request |].
  destruct (Items _) as [[| ? ?] |]; try queries_step.
  destruct (Decoupled.collect _) as [[| ? ?] ?]; repeat queries_step.
Qed.

Lemma single_queries q :
  emits (queries_for "PK" (VString (js "LOGO#" ++ Dynamo.normalizeLogoName q)))
    (SingleTable.fetchPhotosByLogo env w q).
Proof.
  unfold SingleTable.fetchPhotosByLogo, send.
  queries_step; [queries_step |].
  queries_step; [now apply emits_request |].
  destruct (default [] _); try queries_step.
  destruct (SingleTable.collect _) as [[| ? ?] ?]; repeat queries_step.
Qed.

(** X16: A detection is found under its name and under its slug: asked for
    either, [fetchPhotosByLogo] queries the key under which the ingestion
    wrote the mapping item of the detection. *)
Theorem query_key_is_written_key (laws : RuntimeLaws rt)
    photoId now publicUrl logo q :
  well_formed logo ->
  q = Ingest.LogoDetection.name logo \/ q = Ingest.LogoDetection.slug logo ->
  emits
    (queries_for "logoSlug"
       (Val.field (IngestDecoupled.mapping_item photoId now logo) "logoSlug"))
    (Decoupled.fetchPhotosByLogo env w q) /\
  emits
    (queries_for "PK"
       (Val.field (IngestSingle.mapping_item photoId publicUrl logo) "PK"))
    (SingleTable.fetchPhotosByLogo env w q).
Proof.
  intros [_ Hslug] Hq.
  assert (Hn : Dynamo.normalizeLogoName q = Ingest.LogoDetection.slug logo).
  { destruct Hq as [-> | ->]; [now symmetry |].
    rewrite Hslug. now apply normalizeLogoName_twice. }
  pose proof (decoupled_queries q) as Hd.
  pose proof (single_queries q) as Hs.
  rewrite Hn in Hd, Hs. split; [exact Hd | exact Hs].
Qed.

End QueryKeys.

(** ** The logos of the photos of a logo *)

Section LogosOfPhotos.
Context {rt : Runtime} (env : Env) (w : World).

Lemma photoLogos_keeps items ids m m' k l :
  Decoupled.photoLogos items ids m = Returns m' ->
  m !! k = Some l -> Decoupled.logosForPhoto items k = Returns l ->
  m' !! k = Some l.
Proof.
  revert m. induction ids as [| photoId ids IH]; simpl; intros m H Hm Hl.
  - now injection H as <-.
  - apply rbind_returns in H as (l0 & Hl0 & H).
    apply (IH _ H); [| exact Hl]. rewrite lookup_insert. case_decide as E.
    + subst. congruence.
    + exact Hm.
Qed.

Lemma photoLogos_filled items ids m m' k :
  Decoupled.photoLogos items ids m = Returns m' -> In k ids ->
  exists l, m' !! k = Some l /\ Decoupled.logosForPhoto items k = Returns l.
Proof.
  revert m. induction ids as [| photoId ids IH]; simpl; intros m H Hin;
    [contradiction |].
  apply rbind_returns in H as (l0 & Hl0 & H).
  destruct Hin as [-> | Hin]; [| eapply IH; eassumption].
  exists l0. split; [| exact Hl0].
  eapply photoLogos_keeps; [exact H | | exact Hl0].
  now rewrite lookup_insert, decide_True.
Qed.

(** X17: The three-table [fetchPhotosByLogo] gives each photo the detections
    of the queried logo in that photo and no other: the logos of a record
    are the mapping items of the query result that carry the id of the
    photo, in the order of the result, and the slug of each is the slug
    that was asked for. *)
Theorem decoupled_fetchPhotosByLogo_logos store q h photos h' :
  serves w store ->
  Decoupled.fetchPhotosByLogo env w q h = (Done photos, h') ->
  exists table queried,
    configured (DYNAMO_PHOTO_LOGOS_TABLE env) = Some table /\
    dynamo_send w h (QueryCommand table "logoSlug" (Dynamo.normalizeLogoName q))
    = Returns queried /\
    forall p,
      In p photos ->
      Decoupled.logosForPhoto (default [] (Items queried)) (PhotoRecord.id p)
      = Returns (PhotoRecord.logos p) /\
      Forall (fun d => LogoDetection.slug d = Dynamo.normalizeLogoName q)
        (PhotoRecord.logos p).
Proof.
  intros Hserves H. unfold Decoupled.fetchPhotosByLogo in H.
  repeat task_step. subst.
  match goal with Hq : dynamo_send _ _ _ = Returns ?o |- _ =>
    rename o into queried; pose proof (Hserves _ _ _ Hq) as Hans end.
  eexists _, queried. do 2 (split; [eassumption |]).
  simpl in Hans.
  destruct (Items queried) as [[| item items] |] eqn:Ei;
    try (task_step; subst; intros p []).
  set (mappingItems := item :: items) in *.
  destruct (Decoupled.collect mappingItems) as [ids confs] eqn:Est.
  destruct ids as [| photoId ids].
  { task_step. subst. intros p []. }
  repeat task_step. subst. intros p Hp.
  apply assemble_In in Hp as (k & photo & Hk & Hphoto & Hid & Hlogos & _).
  apply photo_entries_key in Hphoto as (Hkey & _ & _).
  match goal with Hm : Decoupled.photoLogos _ _ _ = Returns _ |- _ =>
    destruct (photoLogos_filled _ _ _ _ k Hm Hk) as (l & Hl & Hfor) end.
  rewrite Hl in Hlogos. simpl in Hlogos. rewrite Hid, Hkey, Hlogos.
  split; [exact Hfor |].
  apply Forall_forall. intros d Hd. apply list_elem_of_In in Hd.
  unfold Decoupled.logosForPhoto in Hfor.
  destruct (rmap_In _ _ _ _ Hfor Hd) as (it & Hit & Hmap).
  apply filter_In in Hit as [Hit _].
  destruct (Hans mappingItems it eq_refl Hit) as [_ Hslug].
  unfold Decoupled.mapLogoMapping in Hmap. rewrite Hslug in Hmap.
  apply rbind_returns in Hmap as (poly & _ & Hmap). now injection Hmap as <-.
Qed.

End LogosOfPhotos.

(** ** The logos of all photos *)

Section GroupLogos.
Context {rt : Runtime} (env : Env) (w : World).

Lemma last_with_id_Some photoId photos i :
  Decoupled.last_with_id photoId photos = Some i ->
  exists p, photos !! i = Some p /\ PhotoRecord.id p = photoId.
Proof.
  revert i. induction photos as [| p photos IH]; simpl; intros i; [easy |].
  destruct (Decoupled.last_with_id photoId photos) as [j |].
  - intros [= <-]. destruct (IH j eq_refl) as (p0 & Hp0 & Hid). eauto.
  - case_decide; [| discriminate]. intros [= <-]. eauto.
Qed.

Lemma last_with_id_None photoId photos p :
  Decoupled.last_with_id photoId photos = None ->
  In p photos -> PhotoRecord.id p <> photoId.
Proof.
  induction photos as [| p0 photos IH]; simpl; [easy |].
  destruct (Decoupled.last_with_id photoId photos); [discriminate |].
  case_decide as E; [discriminate |].
  intros _ [<- | Hin]; [exact E | now apply IH].
Qed.

Lemma push_logo_ids i d photos :
  List.map PhotoRecord.id (Decoupled.push_logo i d photos)
  = List.map PhotoRecord.id photos.
Proof.
  unfold Decoupled.push_logo. revert i.
  induction photos as [| p photos IH]; intros [| i]; simpl; try reflexivity.
  f_equal. apply IH.
Qed.

Lemma mappings_of_skip photoId item items :
  decoupled_photoId item <> Some photoId ->
  mappings_of photoId (item :: items) = mappings_of photoId items.
Proof.
  intros H. unfold mappings_of. simpl. now rewrite bool_decide_eq_false_2.
Qed.

Lemma mappings_of_take photoId item items :
  decoupled_photoId item = Some photoId ->
  mappings_of photoId (item :: items) = item :: mappings_of photoId items.
Proof.
  intros H. unfold mappings_of. simpl. now rewrite bool_decide_eq_true_2.
Qed.

Lemma group_logos_spec mappingItems photos photos' :
  NoDup (List.map PhotoRecord.id photos) ->
  Decoupled.group_logos mappingItems photos = Returns photos' ->
  forall j p',
    photos' !! j = Some p' ->
    exists p ds,
      photos !! j = Some p /\ PhotoRecord.id p' = PhotoRecord.id p /\
      rmap Decoupled.mapLogoMapping
        (mappings_of (PhotoRecord.id p) mappingItems) = Returns ds /\
      PhotoRecord.logos p' = PhotoRecord.logos p ++ ds.
Proof.
  revert photos.
  induction mappingItems as [| item items IH]; intros photos Hnd H j p' Hj;
    cbn [Decoupled.group_logos] in H.
  - injection H as <-. exists p', []. now rewrite app_nil_r.
  - destruct (configured (Repo.asString (Val.field item "photoId")))
      as [photoId |] eqn:Eid.
    + destruct (Decoupled.last_with_id photoId photos) as [i |] eqn:Ei.
      * apply rbind_returns in H as (d & Hd & H).
        apply last_with_id_Some in Ei as (p0 & Hp0 & Hid0).
        assert (Hnd2 : NoDup (List.map PhotoRecord.id
                                (Decoupled.push_logo i d photos)))
          by now rewrite push_logo_ids.
        destruct (IH _ Hnd2 H j p' Hj) as (p2 & ds & Hp2 & Hid & Hds & Hlogos).
        unfold Decoupled.push_logo in Hp2.
        destruct (decide (i = j)) as [<- | Hne].
        -- rewrite list_lookup_alter, Hp0, decide_True in Hp2 by reflexivity.
           injection Hp2 as <-. cbn [PhotoRecord.with_logos PhotoRecord.id
                                     PhotoRecord.logos] in *.
           exists p0, (d :: ds).
           split; [exact Hp0 |]. split; [exact Hid |]. split.
           ++ rewrite mappings_of_take
                by (unfold decoupled_photoId; now rewrite Eid, Hid0).
              cbn [rmap]. now rewrite Hd, Hds.
           ++ now rewrite Hlogos, <- app_assoc.
        -- rewrite list_lookup_alter, decide_False in Hp2 by exact Hne.
           exists p2, ds. split; [exact Hp2 |]. split; [exact Hid |].
           split; [| exact Hlogos].
           rewrite mappings_of_skip; [exact Hds |].
           unfold decoupled_photoId. rewrite Eid. intros [= E]. apply Hne.
           apply (NoDup_lookup _ _ _ photoId Hnd).
           ++ now rewrite list_lookup_fmap, Hp0, <- Hid0.
           ++ now rewrite list_lookup_fmap, Hp2, E.
      * destruct (IH _ Hnd H j p' Hj) as (p & ds & Hp & Hid & Hds & Hlogos).
        exists p, ds. split; [exact Hp |]. split; [exact Hid |].
        split; [| exact Hlogos].
        rewrite mappings_of_skip; [exact Hds |].
        unfold decoupled_photoId. rewrite Eid. intros [= E].
        eapply last_with_id_None; [exact Ei | | symmetry; exact E].
        apply list_elem_of_In. eapply list_elem_of_lookup_2, Hp.
    + destruct (IH _ Hnd H j p' Hj) as (p & ds & Hp & Hid & Hds & Hlogos).
      exists p, ds. split; [exact Hp |]. split; [exact Hid |].
      split; [| exact Hlogos].
      rewrite mappings_of_skip; [exact Hds |].
      unfold decoupled_photoId. now rewrite Eid.
Qed.

(** X18: The three-table [fetchAllPhotos] gives each photo the detections of
    the mapping items that carry its id, in the order in which the scan of
    the mapping table returned them.  (The scanned photos have ids that
    differ from one another, as the items of a table keyed by [photoId]
    do.) *)
Theorem decoupled_fetchAllPhotos_logos (laws : RuntimeLaws rt) h photos h' :
  Decoupled.fetchAllPhotos env w h = (Done photos, h') ->
  photos = [] \/
  exists t1 t2 scanned scanned',
    configured (DYNAMO_PHOTOS_TABLE env) = Some t1 /\
    configured (DYNAMO_PHOTO_LOGOS_TABLE env) = Some t2 /\
    dynamo_send w h (ScanCommand t1) = Returns scanned /\
    dynamo_send w (h ++ [Sent (ScanCommand t1)]) (ScanCommand t2)
    = Returns scanned' /\
    (NoDup (List.map decoupled_id (default [] (Items scanned))) ->
     forall p,
       In p photos ->
       rmap Decoupled.mapLogoMapping
         (mappings_of (PhotoRecord.id p) (default [] (Items scanned')))
       = Returns (PhotoRecord.logos p)).
Proof.
  unfold Decoupled.fetchAllPhotos. intros H. repeat task_step. subst.
  match goal with Hq : dynamo_send _ _ (ScanCommand _) = Returns ?o |- _ =>
    rename o into scanned end.
  destruct (Items scanned) as [[| item items] |] eqn:Ei;
    try (task_step; subst; now left).
  repeat task_step. subst. right.
  match goal with
    Hq : dynamo_send _ (_ ++ _) (ScanCommand _) = Returns ?o |- _ =>
      rename o into scanned' end.
  eexists _, _, scanned, scanned'. do 4 (split; [eassumption |]).
  rewrite Ei. cbn [default from_option]. intros Hnd p Hp.
  eapply Permutation_in in Hp; [| apply (sort_permutation rt laws)].
  apply list_elem_of_In, list_elem_of_lookup in Hp as [j Hj].
  match goal with Hg : Decoupled.group_logos _ _ = Returns _ |- _ =>
    eapply group_logos_spec in Hg as (p0 & ds & Hp0 & Hid & Hds & Hlogos);
      [| | exact Hj] end.
  - rewrite Hid, Hlogos, Hds.
    change (List.map (Decoupled.mapPhotoItem env) (item :: items))
      with (Decoupled.mapPhotoItem env <$> (item :: items)) in Hp0.
    rewrite list_lookup_fmap in Hp0.
    destruct ((item :: items) !! j); [| discriminate].
    now injection Hp0 as <-.
  - rewrite List.map_map. exact Hnd.
Qed.

End GroupLogos.

(** ** Records and the items they come from *)

Section StoredPhotos.
Context {rt : Runtime} (env : Env) (w : World).

Lemma assemble_same ids photoMap logosOf confs p :
  In p (Repo.assemble ids photoMap logosOf confs) ->
  exists photoId photo,
    In photoId ids /\ photoMap !! photoId = Some photo /\
    same_photo p photo /\ PhotoRecord.logos p = logosOf photoId photo.
Proof.
  unfold Repo.assemble.
  induction ids as [| k ids IH]; simpl; [easy |].
  destruct (photoMap !! k) as [photo |] eqn:E.
  - intros [<- | H].
    + exists k, photo. split; [now left |]. split; [exact E |].
      now destruct (confs !! k).
    + destruct (IH H) as (k' & photo' & Hin & Hrest).
      exists k', photo'. split; [now right | exact Hrest].
  - intros H. destruct (IH H) as (k' & photo' & Hin & Hrest).
    exists k', photo'. split; [now right | exact Hrest].
Qed.

Lemma copied_stamps id_of items photos :
  Forall2 (copied id_of) items photos ->
  List.map stamp photos = List.map (item_stamp id_of) items.
Proof.
  induction 1 as [| item p items photos [Hid Hc] _ IH]; simpl; [reflexivity |].
  rewrite IH. unfold stamp, item_stamp. now rewrite Hid, Hc.
Qed.

(** X19: Every photo [fetchPhotosByLogo] returns is a photo of the photos
    table: its id, URL, key and time of creation are those that
    [mapPhotoItem] reads from an item of the table; in the single-table
    design the item is a photo item and the logos are those of the item. *)
Theorem fetchPhotosByLogo_returns_stored_photos store q h :
  serves w store ->
  (forall photos h',
     Decoupled.fetchPhotosByLogo env w q h = (Done photos, h') ->
     forall p,
       In p photos ->
       exists table item,
         configured (DYNAMO_PHOTOS_TABLE env) = Some table /\
         In item (store table) /\
         same_photo p (Decoupled.mapPhotoItem env item)) /\
  (forall photos h',
     SingleTable.fetchPhotosByLogo env w q h = (Done photos, h') ->
     forall p,
       In p photos ->
       exists table item r,
         Dynamo.getTableName env Dynamo.photos = Returns table /\
         In item (store table) /\
         Val.field item "PK" = VString SingleTable.PHOTO_PARTITION_KEY /\
         SingleTable.mapPhotoItem env item = Returns r /\
         same_photo p r /\ PhotoRecord.logos p = PhotoRecord.logos r).
Proof.
  intros Hserves. split.
  - intros photos h' H. unfold Decoupled.fetchPhotosByLogo in H.
    repeat task_step. subst.
    destruct (Items _) as [[| item items] |];
      try (task_step; subst; intros p []).
    destruct (Decoupled.collect _) as [ids confs].
    destruct ids as [| photoId ids]; [task_step; subst; intros p [] |].
    repeat task_step. subst. intros p Hp.
    apply assemble_same in Hp as (k & photo & _ & Hk & Hsame & _).
    apply Map_of_entries_lookup in Hk. unfold Decoupled.photo_entries in Hk.
    apply omap_In in Hk as (it & Hit & Hk).
    destruct (configured (Repo.asString _)); [| discriminate].
    injection Hk as _ <-.
    match goal with
      Hq : dynamo_send _ _ (BatchGetCommand _ _) = Returns _ |- _ =>
        pose proof (Hserves _ _ _ Hq) as Hans end.
    cbn [answers] in Hans.
    destruct (Responses _ ≫= table_entry _) as [photoItems |];
      [| destruct Hit].
    destruct (Hans photoItems it eq_refl Hit) as [Hstore _].
    eexists _, it. split; [eassumption |]. now split.
  - intros photos h' H. unfold SingleTable.fetchPhotosByLogo in H.
    repeat task_step. subst.
    destruct (default [] (Items _)) as [| item items];
      [task_step; subst; intros p [] |].
    destruct (SingleTable.collect _) as [ids confs].
    destruct ids as [| photoId ids]; [task_step; subst; intros p [] |].
    repeat task_step. subst. intros p Hp.
    apply assemble_same in Hp as (k & photo & _ & Hk & Hsame & Hlogos).
    apply Map_of_entries_lookup in Hk.
    match goal with He : SingleTable.photo_entries _ _ = Returns _ |- _ =>
      unfold SingleTable.photo_entries in He;
      apply rbind_returns in He as (l & Hl & He); injection He as <- end.
    apply omap_In in Hk as (o & Ho & ->).
    destruct (rmap_In _ _ _ _ Hl Ho) as (it & Hit & Hentry).
    unfold SingleTable.photo_entry in Hentry.
    destruct (configured (Repo.asString _)); [| discriminate].
    apply rbind_returns in Hentry as (r & Hr & Hentry).
    injection Hentry as _ ->.
    match goal with
      Hq : dynamo_send _ _ (BatchGetCommand _ _) = Returns _ |- _ =>
        pose proof (Hserves _ _ _ Hq) as Hans end.
    cbn [answers] in Hans.
    destruct (Responses _ ≫= table_entry _) as [photoItems |];
      [| destruct Hit].
    destruct (Hans photoItems it eq_refl Hit) as [Hstore (key & Hkey & Hof)].
    apply in_map_iff in Hkey as (id & <- & _).
    eexists _, it, photo. split; [eassumption |]. split; [exact Hstore |].
    split; [apply Hof; now left |]. split; [exact Hr |]. now split.
Qed.

(** X20: [fetchAllPhotos] returns one record for each item that the scan of
    the photos table returned, with the id and the time of creation of
    the item: no photo is left out and none is returned twice. *)
Theorem fetchAllPhotos_one_record_per_item (laws : RuntimeLaws rt) h :
  (forall photos h',
     Decoupled.fetchAllPhotos env w h = (Done photos, h') ->
     exists table scanned,
       configured (DYNAMO_PHOTOS_TABLE env) = Some table /\
       dynamo_send w h (ScanCommand table) = Returns scanned /\
       Permutation (List.map stamp photos)
         (List.map (item_stamp decoupled_id) (default [] (Items scanned)))) /\
  (forall photos h',
     SingleTable.fetchAllPhotos env w h = (Done photos, h') ->
     exists table scanned,
       Dynamo.getTableName env Dynamo.photos = Returns table /\
       dynamo_send w h (ScanCommand table) = Returns scanned /\
       Permutation (List.map stamp photos)
         (List.map (item_stamp single_id) (default [] (Items scanned)))).
Proof.
  split.
  - intros photos h' H.
    apply decoupled_fetchAllPhotos_run in H
      as (table & scanned & Ht & Hs & [[He ->] | (photos0 & Hc & ->)]);
      exists table, scanned; (do 2 (split; [assumption |]));
      [rewrite He; constructor |].
    rewrite <- (copied_stamps _ _ _ Hc).
    apply Permutation_map, (sort_permutation rt laws).
  - intros photos h' H.
    apply single_fetchAllPhotos_run in H
      as (table & scanned & photos0 & Ht & Hs & Hc & ->).
    exists table, scanned. do 2 (split; [assumption |]).
    rewrite <- (copied_stamps _ _ _ Hc).
    apply Permutation_map, (sort_permutation rt laws).
Qed.

End StoredPhotos.

(** ** The order of logos *)

Lemma StronglySorted_members {A} (R R' : A -> A -> Prop) l :
  StronglySorted R l ->
  (forall a b, In a l -> In b l -> R a b -> R' a b) ->
  StronglySorted R' l.
Proof.
  induction 1 as [| a l Hs IH Ha]; intros Himp; constructor.
  - apply IH. intros x y Hx Hy. apply Himp; now right.
  - apply Forall_forall. intros b Hb. rewrite Forall_forall in Ha.
    apply Himp; [now left | right; now apply list_elem_of_In | now apply Ha].
Qed.

Section LogoOrder.
Context {rt : Runtime} {S : Type} (total : S -> number) (name : S -> jsstring).

Local Abbreviation cmp := (by_photos_then_name total name).

Lemma by_photos_sign a b ta tb :
  total a = Finite ta -> total b = Finite tb ->
  ((tb < ta)%Q /\ Num.sort_sign (cmp a b) = -1) \/
  ((ta < tb)%Q /\ Num.sort_sign (cmp a b) = 1) \/
  ((ta == tb)%Q /\ cmp a b = String_localeCompare (name a) (name b)).
Proof.
  intros Ha Hb. unfold by_photos_then_name. rewrite Ha, Hb. simpl.
  destruct (Qeq_bool (tb - ta) 0) eqn:E; simpl.
  - apply Qeq_bool_iff in E. right. right. split; [lra | reflexivity].
  - apply Qeq_bool_neq in E.
    destruct (Qcompare_spec (tb - ta) 0) as [E' | E' | E'];
      [contradiction | left; split; [lra | reflexivity]
       | right; left; split; [lra | reflexivity]].
Qed.

Lemma by_photos_consistent l :
  collation_consistent rt ->
  Forall (fun s => Num.isFinite (total s) = true) l ->
  consistent_comparator cmp l.
Proof.
  intros Hcoll Hfin.
  assert (Hl : forall s, In s l -> exists t, total s = Finite t).
  { intros s Hs. rewrite Forall_forall in Hfin.
    apply list_elem_of_In, Hfin in Hs. destruct (total s); try discriminate.
    eauto. }
  assert (Hnames : forall a b c,
            consistent_comparator String_localeCompare [name a; name b; name c])
    by (intros; apply Hcoll).
  split; [| split].
  - intros a b Ha Hb.
    destruct (Hl a Ha) as [ta Hta], (Hl b Hb) as [tb Htb].
    destruct (by_photos_sign a b ta tb Hta Htb)
      as [[_ H] | [[_ H] | [_ H]]].
    + intros E. rewrite E in H. discriminate.
    + intros E. rewrite E in H. discriminate.
    + rewrite H. destruct (Hnames a b b) as (Hn & _). apply Hn; simpl; auto.
  - intros a b Ha Hb.
    destruct (Hl a Ha) as [ta Hta], (Hl b Hb) as [tb Htb].
    destruct (by_photos_sign a b ta tb Hta Htb) as [[H1 H] | [[H1 H] | [H1 H]]];
      destruct (by_photos_sign b a tb ta Htb Hta)
        as [[H2 H'] | [[H2 H'] | [H2 H']]];
      try (exfalso; lra); rewrite H, H'; try reflexivity.
    destruct (Hnames a b b) as (_ & Hn & _). apply Hn; simpl; auto.
  - intros a b c Ha Hb Hc.
    destruct (Hl a Ha) as [ta Hta], (Hl b Hb) as [tb Htb],
             (Hl c Hc) as [tc Htc].
    destruct (by_photos_sign a b ta tb Hta Htb) as [[H1 H] | [[H1 H] | [H1 H]]];
      destruct (by_photos_sign b c tb tc Htb Htc)
        as [[H2 H'] | [[H2 H'] | [H2 H']]];
      destruct (by_photos_sign a c ta tc Hta Htc)
        as [[H3 H''] | [[H3 H''] | [H3 H'']]];
      rewrite H, H', H''; try lia; try (exfalso; lra).
    destruct (Hnames a b c) as (_ & _ & Hn). apply Hn; simpl; auto.
Qed.

Lemma by_photos_sorted l :
  RuntimeLaws rt -> collation_consistent rt ->
  Forall (fun s => Num.isFinite (total s) = true) l ->
  StronglySorted (ranks_before total name) (Array_sort cmp l).
Proof.
  intros laws Hcoll Hfin.
  assert (Hperm := sort_permutation rt laws S cmp l).
  eapply StronglySorted_members.
  - apply (sort_sorted rt laws), by_photos_consistent; assumption.
  - intros a b Ha Hb Hab. simpl in Hab.
    assert (Hl : forall s, In s (Array_sort cmp l) -> exists t, total s = Finite t).
    { intros s Hs. eapply Permutation_in in Hs; [| exact Hperm].
      rewrite Forall_forall in Hfin.
      apply list_elem_of_In, Hfin in Hs. destruct (total s); try discriminate.
      eauto. }
    destruct (Hl a Ha) as [ta Hta], (Hl b Hb) as [tb Htb].
    exists ta, tb. do 2 (split; [assumption |]).
    destruct (by_photos_sign a b ta tb Hta Htb) as [[H1 H] | [[H1 H] | [H1 H]]].
    + split; lra.
    + rewrite H in Hab. lia.
    + split; [lra |]. intros _. now rewrite <- H.
Qed.

End LogoOrder.

Section FetchAllLogos.
Context {rt : Runtime} (env : Env) (w : World).

(** X21: [fetchAllLogos] returns one summary for each item that the scan
    returned, the logos with the most photos first and, among logos with
    as many photos, in the order of their names.  (The order is that of
    the engine's collation; it holds when every [totalPhotos] read is a
    finite Number.) *)
Theorem fetchAllLogos_most_photos_first (laws : RuntimeLaws rt)
    (Hcoll : collation_consistent rt) h :
  (forall logos h',
     Decoupled.fetchAllLogos env w h = (Done logos, h') ->
     exists table scanned,
       configured (DYNAMO_LOGO_SUMMARIES_TABLE env) = Some table /\
       dynamo_send w h (ScanCommand table) = Returns scanned /\
       Permutation logos
         (List.map Decoupled.mapLogoSummary (default [] (Items scanned))) /\
       (Forall (fun s => Num.isFinite (Decoupled.LogoSummary.totalPhotos s)
                         = true) logos ->
        StronglySorted
          (ranks_before Decoupled.LogoSummary.totalPhotos
             Decoupled.LogoSummary.name)
          logos)) /\
  (forall logos h',
     SingleTable.fetchAllLogos env w h = (Done logos, h') ->
     exists table scanned summaries,
       Dynamo.getTableName env Dynamo.logos = Returns table /\
       dynamo_send w h (ScanCommand table) = Returns scanned /\
       rmap SingleTable.mapLogoSummary (default [] (Items scanned))
       = Returns summaries /\
       Permutation logos summaries /\
       (Forall (fun s => Num.isFinite (SingleTable.LogoSummary.totalPhotos s)
                         = true) logos ->
        StronglySorted
          (ranks_before SingleTable.LogoSummary.totalPhotos
             SingleTable.LogoSummary.name)
          logos)).
Proof.
  split.
  - intros logos h' H. unfold Decoupled.fetchAllLogos in H.
    repeat task_step. subst.
    eexists _, _. do 2 (split; [eassumption |]).
    split; [apply (sort_permutation rt laws) |].
    intros Hfin.
    apply (by_photos_sorted Decoupled.LogoSummary.totalPhotos
             Decoupled.LogoSummary.name); try assumption.
    apply Forall_forall. intros s Hs. rewrite Forall_forall in Hfin.
    apply Hfin. apply list_elem_of_In.
    eapply Permutation_in;
      [symmetry; apply (sort_permutation rt laws) | now apply list_elem_of_In].
  - intros logos h' H. unfold SingleTable.fetchAllLogos in H.
    repeat task_step. subst.
    eexists _, _, _. do 3 (split; [eassumption |]).
    split; [apply (sort_permutation rt laws) |].
    intros Hfin.
    apply (by_photos_sorted SingleTable.LogoSummary.totalPhotos
             SingleTable.LogoSummary.name); try assumption.
    apply Forall_forall. intros s Hs. rewrite Forall_forall in Hfin.
    apply Hfin. apply list_elem_of_In.
    eapply Permutation_in;
      [symmetry; apply (sort_permutation rt laws) | now apply list_elem_of_In].
Qed.

End FetchAllLogos.

(** ** The objects that the ingestion fetches *)

Lemma fetches_app a b : fetches (a ++ b) = fetches a ++ fetches b.
Proof. apply omap_app. Qed.

Lemma fetches_cons ev new :
  fetches (ev :: new)
  = match ev with Fetched key => key :: fetches new | _ => fetches new end.
Proof. now destruct ev. Qed.

Lemma fetches_none new : Forall no_fetch new -> fetches new = [].
Proof.
  induction 1 as [| ev new Hev _ IH]; [reflexivity |].
  rewrite fetches_cons. now destruct ev.
Qed.

Section FetchOrder.
Context {rt : Runtime} (cfg : Ingest.Config) (w : World).

Lemma loop_no_fetch fuel table requests :
  emits no_fetch (Ingest.writeMappingBatch_loop w fuel table requests).
Proof.
  revert requests. induction fuel as [| fuel IH]; intros requests; simpl.
  - apply emits_unfinished.
  - apply emits_bind; [now apply emits_request |]. intros response.
    destruct (default [] _); [apply emits_ret |].
    apply emits_bind; [now apply emits_console | intros _; apply IH].
Qed.

Lemma listPhotos_no_fetch fuel : emits no_fetch (Ingest.listPhotos cfg w fuel).
Proof.
  unfold Ingest.listPhotos.
  apply emits_bind; [| intros keys; apply emits_ret].
  generalize (@nil jsstring) (@None jsstring).
  induction fuel as [| fuel IH]; intros keys token; simpl;
    [apply emits_unfinished |].
  apply emits_bind; [now apply emits_request | intros response].
  destruct (_ <=? _)%nat; [apply emits_ret |].
  destruct (configured _); [apply IH | apply emits_ret].
Qed.

Lemma detections_from_no_fetch i annotations :
  emits no_fetch (Ingest.detections_from i annotations).
Proof.
  revert i. induction annotations as [| a l IH]; intros i; simpl.
  - apply emits_ret.
  - unfold Ingest.detection_of.
    apply emits_bind.
    + apply emits_bind; [now apply emits_console | intros _; apply emits_ret].
    + intros d. apply emits_bind; [apply IH | intros ds; apply emits_ret].
Qed.

Lemma detectLogosForKey_fetches_once key h out h' :
  Ingest.detectLogosForKey w key h = (out, h') ->
  exists new, h' = h ++ new /\ fetches new = [key].
Proof.
  unfold Ingest.detectLogosForKey, Task.bind at 1, getObject, Task.request.
  destruct (s3_get w h key) as [response | e].
  - intros H.
    assert (Hrest : forall r, emits no_fetch
              (match Body r with
               | Some body =>
                   image <- Task.lift (Ingest.asBuffer body) ;;
                   result <- logoDetection w image ;;
                   console LogTable [] None ;;;
                   console LogLog
                     (js "Detected "
                        ++ Str.of_nat (length (default [] (logoAnnotations result)))
                        ++ js " logos for " ++ key) None ;;;
                   Ingest.detections_from 0
                     (List.filter Ingest.has_description
                        (default [] (logoAnnotations result)))
               | None =>
                   Task.throw (Error (js "S3 object body missing for " ++ key))
               end)).
    { intros r. destruct (Body r); [| apply emits_throw].
      apply emits_bind; [apply emits_lift | intros image].
      apply emits_bind; [now apply emits_request | intros result].
      apply emits_bind; [now apply emits_console | intros _].
      apply emits_bind; [now apply emits_console | intros _].
      apply detections_from_no_fetch. }
    destruct (Hrest response _ _ _ H) as (new & -> & Hnew).
    exists (Fetched key :: new). split; [now rewrite <- app_assoc |].
    change (Fetched key :: new) with ([Fetched key] ++ new).
    now rewrite fetches_app, (fetches_none new Hnew).
  - intros [= <- <-]. now exists [Fetched key].
Qed.

Section Save.
Context (save : nat -> jsstring -> list Ingest.LogoDetection.t -> Task unit)
        (Hsave : forall fuel key logos, emits no_fetch (save fuel key logos)).

Lemma attempt_fetches_once fuel key h out h' :
  attempt w save fuel key h = (out, h') ->
  exists new, h' = h ++ new /\ fetches new = [key].
Proof.
  unfold attempt, Task.bind at 1.
  destruct (Ingest.detectLogosForKey w key h) as [[logos | e |] h1] eqn:E;
    destruct (detectLogosForKey_fetches_once _ _ _ _ E) as (new1 & -> & H1);
    [| intros [= <- <-]; eauto ..].
  intros H.
  assert (Hrest : emits no_fetch
            (save fuel key logos ;;;
             console LogInfo
               (js "Stored " ++ Str.of_nat (length logos)
                  ++ js " logos for " ++ key) None)).
  { apply emits_bind; [apply Hsave | intros _; now apply emits_console]. }
  destruct (Hrest _ _ _ H) as (new2 & -> & H2).
  exists (new1 ++ new2). split; [now rewrite <- app_assoc |].
  now rewrite fetches_app, H1, (fetches_none new2 H2).
Qed.

Lemma process_fetches_once fuel key h out h' :
  Ingest.process w save fuel key h = (out, h') ->
  exists new, h' = h ++ new /\ fetches new = [key].
Proof.
  rewrite process_unfold. unfold Task.try_catch.
  set (start := Logged LogInfo (js "Processing " ++ key ++ js "...") None).
  destruct (attempt w save fuel key _) as [[[] | e |] h1] eqn:E;
    apply attempt_fetches_once in E as (new & -> & Hnew).
  - intros [= <- <-]. exists (start :: new).
    split; [now rewrite <- app_assoc | exact Hnew].
  - unfold console, Task.emit. intros [= <- <-].
    exists (start :: new
              ++ [Logged LogError (js "Failed to process " ++ key) (Some e)]).
    split; [now rewrite <- !app_assoc |].
    rewrite fetches_cons. cbv iota. rewrite fetches_app, Hnew. reflexivity.
  - intros [= <- <-]. exists (start :: new).
    split; [now rewrite <- app_assoc | exact Hnew].
Qed.

Lemma loop_fetches fuel keys h h' :
  Task.for_each keys (Ingest.process w save fuel) h = (Done tt, h') ->
  exists new, h' = h ++ new /\ fetches new = keys.
Proof.
  revert h. induction keys as [| key keys IH]; simpl; intros h H.
  - apply ret_done in H as [_ ->]. exists []. now rewrite app_nil_r.
  - apply bind_done in H as ([] & h1 & Hp & H).
    apply process_fetches_once in Hp as (new1 & -> & H1).
    apply IH in H as (new2 & -> & H2).
    exists (new1 ++ new2). split; [now rewrite <- app_assoc |].
    now rewrite fetches_app, H1, H2.
Qed.

Lemma main_fetches fuel h h' :
  Ingest.main cfg w save fuel h = (Done tt, h') ->
  exists keys h1 new,
    Ingest.listPhotos cfg w fuel
      (h ++ [Logged LogInfo (js "Listing photos from S3...") None])
    = (Done keys, h1) /\
    h' = h ++ new /\ fetches new = keys /\
    (length keys <= Ingest.MAX_ITEMS cfg)%nat /\
    Forall (listed w) keys.
Proof.
  unfold Ingest.main. intros H.
  apply bind_done in H as ([] & h1 & H1 & H). apply console_done in H1.
  apply bind_done in H as (keys & h2 & Hl & H).
  apply bind_done in H as ([] & h3 & H3 & H). apply console_done in H3.
  apply bind_done in H as ([] & h4 & Hloop & H). apply console_done in H.
  destruct (listPhotos_no_fetch _ _ _ _ Hl) as (newl & Hh2 & Hnl).
  pose proof Hl as Hlist.
  apply listPhotos_keys in Hl as [Hlen Hkeys].
  apply loop_fetches in Hloop as (newk & Hh4 & Hk).
  subst h1. exists keys, h2. subst h' h4 h3 h2. eexists.
  split; [exact Hlist |].
  split; [now rewrite <- !app_assoc |].
  split; [| split; [exact Hlen |]].
  - rewrite !fetches_app, (fetches_none newl Hnl), Hk. simpl.
    now rewrite app_nil_r.
  - eapply Forall_impl; [exact Hkeys |]. now intros key (_ & Hkey).
Qed.

End Save.

(** X13: A run of the ingestion that comes to its end has fetched the keys
    that its call of [listPhotos] returned, and no others: each once and in
    the order of the listing, whether the object could be processed or
    not.  There are at most [MAX_ITEMS] of them, and each is the key of an
    object that S3 listed. *)
Theorem ingestion_fetches_listed_keys t1 t2 t3 table fuel h :
  let listing :=
    Ingest.listPhotos cfg w fuel
      (h ++ [Logged LogInfo (js "Listing photos from S3...") None]) in
  (forall h',
     IngestDecoupled.main cfg w t1 t2 t3 fuel h = (Done tt, h') ->
     exists keys h1 new,
       listing = (Done keys, h1) /\
       h' = h ++ new /\ fetches new = keys /\
       (length keys <= Ingest.MAX_ITEMS cfg)%nat /\ Forall (listed w) keys) /\
  (forall h',
     IngestSingle.main cfg w table fuel h = (Done tt, h') ->
     exists keys h1 new,
       listing = (Done keys, h1) /\
       h' = h ++ new /\ fetches new = keys /\
       (length keys <= Ingest.MAX_ITEMS cfg)%nat /\ Forall (listed w) keys).
Proof.
  intros listing.
  split; intros h'; apply main_fetches; intros fuel0 key logos.
  - apply savePhotoDecoupled_within; try easy. intros. apply loop_no_fetch.
  - apply savePhoto_within; try easy. intros. apply loop_no_fetch.
Qed.

End FetchOrder.

(** ** Routes without configuration *)

Section RoutesUnconfigured.
Context {rt : Runtime} (env : Env) (w : World).

Lemma require_missing v message h :
  configured v = None ->
  Decoupled.require v message h = (Raised (Error (js message)), h).
Proof. intros H. unfold Decoupled.require. now rewrite H. Qed.

Lemma getTableName_missing t :
  configured
    match t with
    | Dynamo.photos => DYNAMO_TABLE_PHOTOS env
    | Dynamo.logos => DYNAMO_TABLE_LOGOS env
    | Dynamo.photo_logos => DYNAMO_TABLE_PHOTO_LOGOS env
    end = None ->
  Dynamo.getTableName env t
  = Throws (Error (js (Dynamo.envKey t) ++ js " env var is required.")).
Proof. intros H. unfold Dynamo.getTableName. now rewrite H. Qed.

(** X24: Without the name of the table it reads first, a route of either
    design answers 500 with its generic error and logs the error that
    names the missing variable; nothing is sent to DynamoDB.  (The
    photos-by-logo route is asked for a logo name that is not empty.) *)
Theorem routes_answer_500_when_unconfigured h logoParam :
  configured (DYNAMO_PHOTOS_TABLE env) = None ->
  configured (DYNAMO_LOGO_SUMMARIES_TABLE env) = None ->
  configured (DYNAMO_TABLE_PHOTOS env) = None ->
  configured (DYNAMO_TABLE_LOGOS env) = None ->
  configured (DYNAMO_TABLE_PHOTO_LOGOS env) = None ->
  logoParam <> [] ->
  Routes.GET_photos (L:=Decoupled.LogoSummary.t)
    (Decoupled.fetchAllPhotos env w) h
  = refused h "Unable to load photos" "Failed to load photos"
      "DYNAMO_PHOTOS_TABLE not configured" /\
  Routes.GET_logos (Decoupled.fetchAllLogos env w) h
  = refused h "Unable to load logos" "Failed to load logos"
      "DYNAMO_LOGO_SUMMARIES_TABLE not configured" /\
  Routes.GET_photos_by_logo (L:=Decoupled.LogoSummary.t)
    (Decoupled.fetchPhotosByLogo env w) (Task.ret logoParam) h
  = refused h "Unable to load photos for logo" "Failed to load photos by logo"
      "DYNAMO_PHOTOS_TABLE not configured" /\
  Routes.GET_photos (L:=SingleTable.LogoSummary.t)
    (SingleTable.fetchAllPhotos env w) h
  = refused h "Unable to load photos" "Failed to load photos"
      "DYNAMO_TABLE_PHOTOS env var is required." /\
  Routes.GET_logos (SingleTable.fetchAllLogos env w) h
  = refused h "Unable to load logos" "Failed to load logos"
      "DYNAMO_TABLE_LOGOS env var is required." /\
  Routes.GET_photos_by_logo (L:=SingleTable.LogoSummary.t)
    (SingleTable.fetchPhotosByLogo env w) (Task.ret logoParam) h
  = refused h "Unable to load photos for logo" "Failed to load photos by logo"
      "DYNAMO_TABLE_PHOTO_LOGOS env var is required.".
Proof.
  intros Hp Hl Hsp Hsl Hsm Hparam.
  assert (Ht : Str.truthy logoParam = true) by now destruct logoParam.
  unfold Routes.GET_photos, Routes.GET_logos, Routes.GET_photos_by_logo,
    Decoupled.fetchAllPhotos, Decoupled.fetchAllLogos,
    Decoupled.fetchPhotosByLogo, SingleTable.fetchAllPhotos,
    SingleTable.fetchAllLogos, SingleTable.fetchPhotosByLogo,
    Task.try_catch, Task.bind.
  rewrite !require_missing by assumption.
  rewrite (getTableName_missing Dynamo.photos Hsp),
    (getTableName_missing Dynamo.logos Hsl). simpl.
  rewrite Ht. simpl.
  rewrite !require_missing by assumption.
  rewrite (getTableName_missing Dynamo.photo_logos Hsm).
  repeat split.
Qed.

End RoutesUnconfigured.

(** ** The gallery *)

Lemma filter_sublist {A} (f : A -> bool) l : sublist (List.filter f l) l.
Proof.
  induction l as [| a l IH]; simpl; [constructor |].
  destruct (f a); now constructor.
Qed.

Section GalleryFilter.
Context {L : Type} (slug : L -> jsstring) (name : L -> jsstring).

(** X25: The gallery shows the photos in the order in which it was given them.
    With no logo selected, or the logo whose slug is the empty string, it
    shows all of them; with a logo selected it shows the photos that carry
    a detection of its slug, and only those.  The label counts the photos
    shown. *)
Theorem gallery_shows_photos_of_selected_logo
    (initialPhotos : list PhotoRecord.t) (logos : list L) selectedLogo :
  sublist (Gallery.filteredPhotos initialPhotos selectedLogo) initialPhotos /\
  (selectedLogo = None \/ selectedLogo = Some [] ->
   Gallery.filteredPhotos initialPhotos selectedLogo = initialPhotos) /\
  (forall selected photo,
     selectedLogo = Some selected -> selected <> [] ->
     In photo (Gallery.filteredPhotos initialPhotos selectedLogo) <->
     In photo initialPhotos /\
     exists logo,
       In logo (PhotoRecord.logos photo) /\ LogoDetection.slug logo = selected) /\
  exists rest,
    Gallery.totalPhotosLabel slug name initialPhotos logos selectedLogo
    = Gallery.count_label
        (length (Gallery.filteredPhotos initialPhotos selectedLogo)) ++ rest.
Proof.
  unfold Gallery.totalPhotosLabel, Gallery.filteredPhotos.
  split; [| split; [| split]].
  - destruct (configured selectedLogo); [apply filter_sublist | reflexivity].
  - now intros [-> | ->].
  - intros selected photo -> Hne.
    destruct selected as [| u s]; [contradiction |]. simpl.
    rewrite filter_In, existsb_exists. split.
    + intros [Hin (logo & Hl & Hs)]. apply bool_decide_eq_true in Hs. eauto.
    + intros [Hin (logo & Hl & Hs)]. split; [exact Hin |].
      exists logo. split; [exact Hl | now apply bool_decide_eq_true].
  - destruct (configured selectedLogo) as [selected |].
    + eexists. reflexivity.
    + exists []. now rewrite app_nil_r.
Qed.

End GalleryFilter.

Section GallerySources.
Context {rt : Runtime} (env : Env) (w : World).

Lemma same_photo_trans p q r : same_photo p q -> same_photo q r -> same_photo p r.
Proof. unfold same_photo. intuition congruence. Qed.

Lemma push_logo_same i d photos :
  Forall2 same_photo photos (Decoupled.push_logo i d photos).
Proof.
  unfold Decoupled.push_logo. revert i.
  induction photos as [| p photos IH]; intros [| i]; simpl; constructor;
    try easy; try apply IH.
  clear. induction photos; constructor; easy.
Qed.

Lemma group_logos_same mappingItems photos photos' :
  Decoupled.group_logos mappingItems photos = Returns photos' ->
  Forall2 same_photo photos photos'.
Proof.
  revert photos.
  induction mappingItems as [| item items IH]; simpl; intros photos H.
  - injection H as <-. clear. induction photos; constructor; easy.
  - destruct (configured _); [| now apply IH].
    destruct (Decoupled.last_with_id _ _) as [i |]; [| now apply IH].
    apply rbind_returns in H as (d & _ & H). apply IH in H.
    pose proof (push_logo_same i d photos) as Hp.
    clear - H Hp. revert photos' H.
    induction Hp as [| p q ps qs Hpq _ IH']; intros photos' H;
      inversion H; subst; constructor; [eapply same_photo_trans |]; eauto.
Qed.

Lemma imageSrc_of_resolved p publicUrl s3Key :
  PhotoRecord.imageUrl p = Dynamo.resolvePublicUrl env publicUrl s3Key ->
  Gallery.imageSrc p <> [].
Proof.
  intros H. unfold Gallery.imageSrc. rewrite H.
  pose proof (resolvePublicUrl_not_empty env publicUrl s3Key) as Hne.
  destruct (Dynamo.resolvePublicUrl env publicUrl s3Key) as [url |]; simpl;
    [congruence | discriminate].
Qed.

(** X26: The gallery is given the photos of [fetchAllPhotos]; the image of
    each card then has a source that is not the empty string: the URL of
    the photo, or the image the gallery falls back to. *)
Theorem gallery_image_sources_not_empty (laws : RuntimeLaws rt) h :
  (forall photos h',
     Decoupled.fetchAllPhotos env w h = (Done photos, h') ->
     Forall (fun photo => Gallery.imageSrc photo <> []) photos) /\
  (forall photos h',
     SingleTable.fetchAllPhotos env w h = (Done photos, h') ->
     Forall (fun photo => Gallery.imageSrc photo <> []) photos).
Proof.
  split; intros photos h' H; apply Forall_forall; intros p Hp;
    apply list_elem_of_In in Hp.
  - unfold Decoupled.fetchAllPhotos in H. repeat task_step. subst.
    destruct (Items _) as [[| item items] |];
      try (task_step; subst; destruct Hp).
    repeat task_step. subst.
    eapply Permutation_in in Hp; [| apply (sort_permutation rt laws)].
    match goal with Hg : Decoupled.group_logos _ _ = Returns _ |- _ =>
      apply group_logos_same in Hg; rename Hg into Hsame end.
    revert Hsame Hp. generalize (item :: items). intros l Hsame.
    remember (List.map (Decoupled.mapPhotoItem env) l) as photos0 eqn:E.
    revert l E.
    induction Hsame as [| p0 q ps qs Hpq _ IH]; intros l E; [easy |].
    destruct l as [| it l]; [discriminate |]. injection E as -> ->.
    intros [<- | Hin]; [| now apply (IH l)].
    destruct Hpq as (_ & Hurl & _). eapply imageSrc_of_resolved.
    rewrite <- Hurl. reflexivity.
  - unfold SingleTable.fetchAllPhotos in H. repeat task_step. subst.
    eapply Permutation_in in Hp; [| apply (sort_permutation rt laws)].
    match goal with Hm : rmap _ _ = Returns _ |- _ =>
      destruct (rmap_In _ _ _ _ Hm Hp) as (item & _ & Hitem) end.
    unfold SingleTable.mapPhotoItem in Hitem.
    apply rbind_returns in Hitem as (ds & _ & Hitem). injection Hitem as <-.
    eapply imageSrc_of_resolved. reflexivity.
Qed.

End GallerySources.

(** ** What the repositories send *)

Section AtMost.
Context (P : Event -> Prop).

Lemma at_most_ret {A} (a : A) : emits_at_most 0 P (Task.ret a).
Proof.
  intros h out h' [= <- <-]. exists []. now rewrite app_nil_r.
Qed.

Lemma at_most_throw {A} e : emits_at_most 0 P (@Task.throw A e).
Proof.
  intros h out h' [= <- <-]. exists []. now rewrite app_nil_r.
Qed.

Lemma at_most_lift {A} (r : Result A) : emits_at_most 0 P (Task.lift r).
Proof. destruct r; [apply at_most_ret | apply at_most_throw]. Qed.

Lemma at_most_request {A} ev (answer : History -> Result A) :
  P ev -> emits_at_most 1 P (Task.request ev answer).
Proof.
  intros Hev h out h' H. unfold Task.request in H.
  exists [ev]. destruct (answer h); injection H as <- <-; auto.
Qed.

Lemma at_most_bind {A B} a b (m : Task A) (f : A -> Task B) :
  emits_at_most a P m -> (forall x, emits_at_most b P (f x)) ->
  emits_at_most (a + b) P (Task.bind m f).
Proof.
  intros Hm Hf h out h' H. unfold Task.bind in H.
  destruct (m h) as [[x | e |] h1] eqn:E;
    destruct (Hm _ _ _ E) as (new1 & -> & H1 & L1).
  - destruct (Hf x _ _ _ H) as (new2 & -> & H2 & L2).
    exists (new1 ++ new2). rewrite app_assoc. split; [reflexivity |].
    split; [apply Forall_app; auto | rewrite length_app; lia].
  - injection H as <- <-. exists new1. repeat split; [assumption | lia].
  - injection H as <- <-. exists new1. repeat split; [assumption | lia].
Qed.

Lemma at_most_more {A} a b (m : Task A) :
  (a <= b)%nat -> emits_at_most a P m -> emits_at_most b P m.
Proof.
  intros Hab Hm h out h' H. destruct (Hm _ _ _ H) as (new & -> & H1 & L1).
  exists new. repeat split; [assumption | lia].
Qed.

End AtMost.

Section RepositoryReads.
Context {rt : Runtime} (env : Env) (w : World).

Lemma at_most_require v message :
  emits_at_most 0 reads (Decoupled.require v message).
Proof.
  unfold Decoupled.require.
  destruct (configured v); [apply at_most_ret | apply at_most_throw].
Qed.

Lemma tracked_ids_NoDup photoId_of items :
  NoDup (track_all (tracked photoId_of items) ([], ∅)).1.
Proof. rewrite track_all_ids. apply first_occurrences_from_NoDup. Qed.

Lemma keys_NoDup (key : jsstring -> RawItem) ids :
  (forall a b, key a = key b -> a = b) -> NoDup ids ->
  NoDup (List.map key ids).
Proof.
  intros Hinj Hnd.
  assert (Hi : Inj (=) (=) key) by exact Hinj.
  now apply (NoDup_fmap_2 key).
Qed.

Ltac reads_step :=
  first
    [ apply at_most_ret | apply at_most_throw | apply at_most_lift
    | apply at_most_require
    | apply at_most_request; exact I ].

Lemma decoupled_fetchAllPhotos_reads :
  emits_at_most 2 reads (Decoupled.fetchAllPhotos env w).
Proof.
  unfold Decoupled.fetchAllPhotos, send.
  apply (at_most_bind _ 0 2); [reads_step | intros t1].
  apply (at_most_bind _ 0 2); [reads_step | intros t2].
  apply (at_most_bind _ 1 1); [reads_step | intros scanned].
  destruct (Items scanned) as [[| ? ?] |];
    try (apply (at_most_more _ 0); [lia | reads_step]).
  apply (at_most_bind _ 1 0); [reads_step | intros scanned'].
  apply (at_most_bind _ 0 0); [reads_step | intros photos]. reads_step.
Qed.

Lemma decoupled_fetchAllLogos_reads :
  emits_at_most 2 reads (Decoupled.fetchAllLogos env w).
Proof.
  unfold Decoupled.fetchAllLogos, send.
  apply (at_most_bind _ 0 2); [reads_step | intros t].
  apply (at_most_bind _ 1 1); [reads_step | intros scanned].
  apply (at_most_more _ 0); [lia | reads_step].
Qed.

Lemma decoupled_fetchPhotosByLogo_reads q :
  emits_at_most 2 reads (Decoupled.fetchPhotosByLogo env w q).
Proof.
  unfold Decoupled.fetchPhotosByLogo, send.
  apply (at_most_bind _ 0 2); [reads_step | intros t1].
  apply (at_most_bind _ 0 2); [reads_step | intros t2].
  apply (at_most_bind _ 1 1); [reads_step | intros queried].
  destruct (Items queried) as [[| item items] |];
    try (apply (at_most_more _ 0); [lia | reads_step]).
  unfold Decoupled.collect. rewrite collect_tracked.
  pose proof (tracked_ids_NoDup decoupled_photoId (item :: items)) as Hnd.
  destruct (track_all _ _) as [[| photoId ids] confs];
    [apply (at_most_more _ 0); [lia | reads_step] |].
  simpl in Hnd.
  apply (at_most_bind _ 1 0).
  - apply at_most_request. split; [discriminate |].
    apply keys_NoDup; [now intros a b [= ->] | exact Hnd].
  - intros batchResponse.
    apply (at_most_bind _ 0 0); [reads_step | intros m]. reads_step.
Qed.

Lemma single_fetchAllPhotos_reads :
  emits_at_most 2 reads (SingleTable.fetchAllPhotos env w).
Proof.
  unfold SingleTable.fetchAllPhotos, send.
  apply (at_most_bind _ 0 2); [reads_step | intros t].
  apply (at_most_bind _ 1 1); [reads_step | intros scanned].
  apply (at_most_bind _ 0 1); [reads_step | intros photos].
  apply (at_most_more _ 0); [lia | reads_step].
Qed.

Lemma single_fetchAllLogos_reads :
  emits_at_most 2 reads (SingleTable.fetchAllLogos env w).
Proof.
  unfold SingleTable.fetchAllLogos, send.
  apply (at_most_bind _ 0 2); [reads_step | intros t].
  apply (at_most_bind _ 1 1); [reads_step | intros scanned].
  apply (at_most_bind _ 0 1); [reads_step | intros logos].
  apply (at_most_more _ 0); [lia | reads_step].
Qed.

Lemma single_fetchPhotosByLogo_reads q :
  emits_at_most 2 reads (SingleTable.fetchPhotosByLogo env w q).
Proof.
  unfold SingleTable.fetchPhotosByLogo, send.
  apply (at_most_bind _ 0 2); [reads_step | intros t].
  apply (at_most_bind _ 1 1); [reads_step | intros queried].
  destruct (default [] (Items queried)) as [| item items];
    [apply (at_most_more _ 0); [lia | reads_step] |].
  unfold SingleTable.collect. rewrite single_collect_tracked.
  pose proof (tracked_ids_NoDup SingleTable.mapping_photoId (item :: items))
    as Hnd.
  destruct (track_all _ _) as [[| photoId ids] confs];
    [apply (at_most_more _ 0); [lia | reads_step] |].
  simpl in Hnd.
  apply (at_most_bind _ 0 1); [reads_step | intros t'].
  apply (at_most_bind _ 1 0).
  - apply at_most_request. split; [discriminate |].
    apply keys_NoDup; [now intros a b [= ->] | exact Hnd].
  - intros batchResponse.
    apply (at_most_bind _ 0 0); [reads_step | intros entries]. reads_step.
Qed.

(** X22: The repositories only read, and little: whatever a repository
    function does and however it ends, it sends at most two commands, and
    each is a scan, a query, or a batch get that asks for at least one key
    and for no key twice. *)
Theorem repositories_read_at_most_twice q :
  emits_at_most 2 reads (Decoupled.fetchAllPhotos env w) /\
  emits_at_most 2 reads (Decoupled.fetchAllLogos env w) /\
  emits_at_most 2 reads (Decoupled.fetchPhotosByLogo env w q) /\
  emits_at_most 2 reads (SingleTable.fetchAllPhotos env w) /\
  emits_at_most 2 reads (SingleTable.fetchAllLogos env w) /\
  emits_at_most 2 reads (SingleTable.fetchPhotosByLogo env w q).
Proof.
  repeat split;
    [ apply decoupled_fetchAllPhotos_reads | apply decoupled_fetchAllLogos_reads
    | apply decoupled_fetchPhotosByLogo_reads | apply single_fetchAllPhotos_reads
    | apply single_fetchAllLogos_reads | apply single_fetchPhotosByLogo_reads ].
Qed.

(** X23: The single-table [mapPhotoItem] keeps the detections of an item that
    have a name, under [name] or [displayName], and gives each the slug of
    its name. *)
Theorem single_mapPhotoItem_names_logos item p :
  SingleTable.mapPhotoItem env item = Returns p ->
  Forall named (PhotoRecord.logos p).
Proof.
  unfold SingleTable.mapPhotoItem. intros H.
  apply rbind_returns in H as (ds & Hds & H). injection H as <-. simpl.
  destruct (Val.field item "detections") as [| | | | | | detections |];
    try (injection Hds as <-; constructor).
  apply rbind_returns in Hds as (l & Hl & Hds). injection Hds as <-.
  apply Forall_forall. intros d Hd.
  apply list_elem_of_In, omap_In in Hd as (o & Ho & ->).
  destruct (rmap_In _ _ _ _ Hl Ho) as (logo & _ & Hlogo).
  unfold SingleTable.mapDetection in Hlogo.
  apply rbind_returns in Hlogo as (vname & _ & Hlogo).
  apply rbind_returns in Hlogo as (vdisplay & _ & Hlogo).
  destruct (Str.truthy _) eqn:Et; simpl in Hlogo; [| discriminate].
  repeat (apply rbind_returns in Hlogo as (? & _ & Hlogo)).
  injection Hlogo as <-. split; [| reflexivity]. simpl.
  intros E. rewrite E in Et. discriminate.
Qed.

End RepositoryReads.

(** ** The theorems at work *)

#[local] Existing Instance Sample.runtime.

Lemma sample_contract store b : batch_write_contract (SampleData.world store b).
Proof. intros h table requests out rest r [= <-]. discriminate. Qed.

Lemma flaky_contract : batch_write_contract Examples.flaky_world.
Proof.
  intros h table requests out rest r H Hu Hr. simpl in H.
  destruct (List.existsb _ h); injection H as <-; simpl in Hu; [discriminate |].
  rewrite decide_True in Hu by reflexivity. injection Hu as <-.
  destruct requests; [destruct Hr | now right].
Qed.

Lemma sample_photos_dated item :
  In item (SampleData.store (js "photos")) -> dated (rt:=Sample.runtime) item.
Proof.
  intros [<- | [<- | []]]; eexists _, _; (split; [reflexivity |]);
    (split; [discriminate | vm_compute; reflexivity]).
Qed.

Lemma sample_photos_identified item :
  In item (SampleData.store (js "photos")) ->
  decoupled_id (rt:=Sample.runtime) item <> [].
Proof. intros [<- | [<- | []]]; discriminate. Qed.

Lemma normalizeLogoName_idempotent_witness :
  RuntimeLaws Sample.runtime /\
  Dynamo.normalizeLogoName (rt:=Sample.runtime)
    (Dynamo.normalizeLogoName (js "  Coca-Cola & Co. "))
  = Dynamo.normalizeLogoName (js "  Coca-Cola & Co. ").
Proof.
  split; [exact sample_laws |].
  exact (normalizeLogoName_idempotent sample_laws (js "  Coca-Cola & Co. ")).
Defined.

Lemma fetchPhotosByLogo_only_mapped_photos_witness :
  serves SampleData.quiet SampleData.store /\
  exists photos h',
    Decoupled.fetchPhotosByLogo (rt:=Sample.runtime) Sample.env
      SampleData.quiet (js " Nike ") []
    = (Done photos, h') /\
    length photos = 2%nat /\
    forall p, In p photos ->
      exists item,
        In item (SampleData.store (js "photo-logos")) /\
        Val.field item "logoSlug" = VString (js "nike") /\
        decoupled_photoId (rt:=Sample.runtime) item = Some (PhotoRecord.id p).
Proof.
  split; [apply database_serves |].
  destruct (fetchPhotosByLogo_only_mapped_photos (rt:=Sample.runtime)
              Sample.env SampleData.quiet SampleData.store (js " Nike ") []
              (database_serves _ _)) as (Hd & _).
  eexists _, _. split; [vm_compute; reflexivity |].
  split; [reflexivity |].
  destruct (Hd _ _ eq_refl) as (table & Ht & Hall).
  injection Ht as <-. exact Hall.
Defined.

Lemma fetchPhotosByLogo_deduplicated_witness :
  exists photos h' queried,
    SingleTable.fetchPhotosByLogo (rt:=Sample.runtime) Sample.env
      SampleData.quiet (js "NIKE") []
    = (Done photos, h') /\
    List.map PhotoRecord.id photos = [js "beach"; js "street"] /\
    List.map PhotoRecord.matchConfidence photos
    = [Some (Finite (7 # 8)); Some (Finite (1 # 4))] /\
    deduplicated (rt:=Sample.runtime) SingleTable.mapping_photoId
      (default [] (Items queried)) photos.
Proof.
  destruct (fetchPhotosByLogo_deduplicated (rt:=Sample.runtime)
              Sample.env SampleData.quiet (js "NIKE") []) as (_ & Hs).
  destruct (Hs _ _ eq_refl) as (table & queried & _ & _ & Hded).
  eexists _, _, queried. split; [vm_compute; reflexivity |].
  split; [reflexivity |]. split; [reflexivity | exact Hded].
Defined.

Lemma fetchAllPhotos_newest_first_when_dated_witness :
  RuntimeLaws Sample.runtime /\
  serves SampleData.quiet SampleData.store /\
  (forall item, In item (SampleData.store (js "photos")) ->
     dated (rt:=Sample.runtime) item) /\
  exists photos h',
    Decoupled.fetchAllPhotos (rt:=Sample.runtime) Sample.env SampleData.quiet []
    = (Done photos, h') /\
    List.map PhotoRecord.id photos = [js "street"; js "beach"] /\
    newest_first (rt:=Sample.runtime) photos.
Proof.
  split; [exact sample_laws |]. split; [apply database_serves |].
  split; [exact sample_photos_dated |].
  destruct (fetchAllPhotos_newest_first_when_dated (rt:=Sample.runtime)
              Sample.env SampleData.quiet SampleData.store []
              sample_laws (database_serves _ _)) as (Hd & _).
  eexists _, _. split; [vm_compute; reflexivity |].
  split; [reflexivity |].
  exact (Hd (js "photos") _ _ eq_refl sample_photos_dated eq_refl).
Defined.

Lemma identifiers_non_empty_witness :
  RuntimeLaws Sample.runtime /\
  serves SampleData.quiet SampleData.store /\
  Ingest.keyToPhotoId Counterexamples.config (js "photos/summer/beach.jpg")
  = js "summer-beach" /\
  Ingest.keyToPhotoId Counterexamples.config (js "photos/summer/beach.jpg")
  <> [] /\
  exists photos h',
    Decoupled.fetchAllPhotos (rt:=Sample.runtime) Sample.env SampleData.quiet []
    = (Done photos, h') /\
    length photos = 2%nat /\
    forall p, In p photos -> PhotoRecord.id p <> [].
Proof.
  split; [exact sample_laws |]. split; [apply database_serves |].
  destruct (identifiers_non_empty (rt:=Sample.runtime)
              Sample.env SampleData.quiet SampleData.store []
              sample_laws (database_serves _ _)) as (Hkey & _ & _ & Hall & _).
  split; [reflexivity |]. split.
  - intros E. apply Hkey in E. vm_compute in E.
    destruct E as [E | (ext & E & _)]; discriminate.
  - eexists _, _. split; [vm_compute; reflexivity |].
    split; [reflexivity |].
    exact (Hall (js "photos") _ _ eq_refl sample_photos_identified eq_refl).
Defined.

Lemma no_command_deletes_witness :
  batch_write_contract Examples.flaky_world /\
  exists h',
    IngestDecoupled.main (rt:=Sample.runtime) Counterexamples.config
      Examples.flaky_world (js "photos") (js "photo-logos")
      (js "logo-summaries") 30 []
    = (Done tt, h') /\
    Forall harmless h'.
Proof.
  split; [exact flaky_contract |].
  destruct (no_command_deletes (rt:=Sample.runtime) Sample.env
              Counterexamples.config Examples.flaky_world
              (js "photos") (js "photo-logos") (js "logo-summaries")
              (js "index") flaky_contract) as (Hmain & _).
  eexists. split; [vm_compute; reflexivity |].
  destruct (Hmain 30%nat [] _ _ eq_refl) as (new & E & Hnew).
  cbn [app] in E. destruct E. exact Hnew.
Defined.

Lemma writeMappingBatch_retries_unprocessed_witness :
  exists h',
    Ingest.writeMappingBatch Examples.flaky_world 5
      Examples.two_puts (js "photo-logos") []
    = (Done tt, h') /\
    omap
      (fun ev =>
         match ev with
         | Sent (BatchWriteCommand _ requests) => Some (length requests)
         | _ => None
         end) h'
    = [2%nat; 1%nat] /\
    retry_chain Examples.flaky_world (js "photo-logos") [] Examples.two_puts h'.
Proof.
  destruct (writeMappingBatch_retries_unprocessed
              Examples.flaky_world (js "photo-logos")) as (_ & Hchain & _).
  eexists. split; [vm_compute; reflexivity |].
  split; [reflexivity |].
  destruct (Hchain 5%nat Examples.two_puts [] _ ltac:(discriminate) eq_refl)
    as (new & E & Hnew).
  cbn [app] in E. destruct E. exact Hnew.
Defined.

Lemma ingestion_continues_after_failure_witness :
  exists h',
    Task.for_each [js "photos/torn.jpg"; js "photos/shoe.jpg"]
      (Ingest.process (rt:=Sample.runtime) Examples.world
         (IngestSingle.savePhoto Counterexamples.config Examples.world
            (js "index")) 30) []
    = (Done tt, h') /\
    In (Logged LogError (js "Failed to process photos/torn.jpg")
          (Some (ServiceError "S3" (js "stream closed")))) h' /\
    In (Logged LogInfo (js "Stored 1 logos for photos/shoe.jpg") None) h' /\
    (exists item,
       In (Sent (PutCommand (js "index") item)) h' /\
       Val.field item "s3Key" = VString (js "photos/shoe.jpg")) /\
    in_turn
      (turn (rt:=Sample.runtime) Examples.world
         (IngestSingle.savePhoto Counterexamples.config Examples.world
            (js "index") 30)
         (stored_single Counterexamples.config Examples.world (js "index")))
      [] [js "photos/torn.jpg"; js "photos/shoe.jpg"] h' /\
    forall key, In key [js "photos/torn.jpg"; js "photos/shoe.jpg"] ->
      processed key h'.
Proof.
  destruct (ingestion_continues_after_failure (rt:=Sample.runtime)
              Counterexamples.config Examples.world
              (js "photos") (js "photo-logos") (js "logo-summaries")
              (js "index") 30 [js "photos/torn.jpg"; js "photos/shoe.jpg"] [])
    as (_ & _ & Hdone & _).
  eexists. split; [vm_compute; reflexivity |].
  split; [vm_compute; tauto |]. split; [vm_compute; tauto |].
  split.
  { eexists.
    split; [repeat (first [left; reflexivity | right]) | reflexivity]. }
  destruct (Hdone _ eq_refl) as (new & E & Hturns & Hnew).
  cbn [app] in E. destruct E. split; assumption.
Defined.

Lemma sample_obliging store b : obliging (SampleData.world store b).
Proof.
  intros h cmd. destruct cmd; eexists; (split; [reflexivity |]); reflexivity.
Qed.

Lemma flaky_never_grows : never_grows Examples.flaky_world.
Proof.
  intros h table requests out H. simpl in H.
  destruct (List.existsb _ h); injection H as <-; unfold unprocessed_of; simpl;
    [lia |].
  rewrite decide_True by reflexivity. simpl. rewrite length_skipn. lia.
Qed.

Lemma compare_units_antisym a b :
  Sample.compare_units b a = - Sample.compare_units a b.
Proof.
  revert b. induction a as [| x a IH]; intros [| y b]; simpl; try reflexivity.
  rewrite (N.compare_antisym x y).
  destruct (N.compare x y); simpl; [apply IH | reflexivity | reflexivity].
Qed.

Lemma compare_units_trans a b c :
  Sample.compare_units a b <= 0 -> Sample.compare_units b c <= 0 ->
  Sample.compare_units a c <= 0.
Proof.
  revert b c. induction a as [| x a IH]; intros [| y b] [| z c]; simpl;
    try lia.
  destruct (N.compare_spec x y), (N.compare_spec y z), (N.compare_spec x z);
    try lia; subst; try apply IH.
Qed.

Lemma sort_sign_inject z : Num.sort_sign (Finite (inject_Z z)) = Z.sgn z.
Proof.
  simpl. unfold Qcompare. simpl. rewrite Z.mul_1_r. now destruct z.
Qed.

Lemma sample_collation : collation_consistent Sample.runtime.
Proof.
  intros l. split; [| split].
  - discriminate.
  - intros a b _ _. simpl.
    change (Num.sort_sign (Finite (inject_Z (Sample.compare_units a b)))
            = - Num.sort_sign (Finite (inject_Z (Sample.compare_units b a)))).
    rewrite !sort_sign_inject, (compare_units_antisym a b). lia.
  - intros a b c _ _ _.
    change (Num.sort_sign (Finite (inject_Z (Sample.compare_units a b))) <= 0 ->
            Num.sort_sign (Finite (inject_Z (Sample.compare_units b c))) <= 0 ->
            Num.sort_sign (Finite (inject_Z (Sample.compare_units a c))) <= 0).
    rewrite !sort_sign_inject. intros Hab Hbc.
    pose proof (compare_units_trans a b c). lia.
Qed.

Lemma chunk_partitions_witness :
  Ingest.chunk [1%nat; 2%nat; 3%nat; 4%nat; 5%nat] 2
  = [[1%nat; 2%nat]; [3%nat; 4%nat]; [5%nat]] /\
  concat (Ingest.chunk [1%nat; 2%nat; 3%nat; 4%nat; 5%nat] 2)
  = [1%nat; 2%nat; 3%nat; 4%nat; 5%nat].
Proof.
  split; [reflexivity |].
  exact (proj1 (chunk_partitions [1%nat; 2%nat; 3%nat; 4%nat; 5%nat] 2
                  ltac:(lia))).
Defined.

Lemma keyToPhotoId_of_stem_witness :
  Str.is_ext_body (js "jpg") = true /\
  Ingest.keyToPhotoId Cases.config (js "photos/summer/beach day.jpg")
  = js "summer-beach-day".
Proof.
  split; [reflexivity |].
  exact (keyToPhotoId_of_stem Cases.config (js "summer/beach day") (js "jpg")
           eq_refl).
Defined.

Lemma mapping_photoId_from_sort_key_witness :
  Ingest.mapping_sortKey (js "beach") 3 = js "beach#0003" /\
  SingleTable.mapping_photoId (rt:=Sample.runtime)
    [("SK", VString (js "beach#0003"))]
  = Some (js "beach").
Proof.
  split; [reflexivity |].
  exact (mapping_photoId_from_sort_key (rt:=Sample.runtime) Cases.config
           (js "photos/beach.jpg") 3 [("SK", VString (js "beach#0003"))]
           eq_refl eq_refl).
Defined.

Lemma resolvePublicUrl_agrees_with_buildPublicUrl_witness :
  Ingest.buildPublicUrl Cases.config (js "photos/beach.jpg")
  = Some (js "https://cdn.example/photos/beach.jpg") /\
  Dynamo.resolvePublicUrl Sample.env None (Some (js "photos/beach.jpg"))
  = Ingest.buildPublicUrl Cases.config (js "photos/beach.jpg").
Proof.
  split; [reflexivity |].
  exact (proj1 (resolvePublicUrl_agrees_with_buildPublicUrl Sample.env
                  Cases.config (js "photos/beach.jpg") eq_refl
                  ltac:(discriminate) ltac:(discriminate))).
Defined.

Lemma listPhotos_bounded_witness :
  exists h',
    Ingest.listPhotos Cases.config Examples.world 5 []
    = (Done [js "photos/torn.jpg"; js "photos/shoe.jpg"], h') /\
    Forall (fun key =>
              key <> [] /\ Str.ends_with_slash key = false /\
              listed Examples.world key)
      [js "photos/torn.jpg"; js "photos/shoe.jpg"].
Proof.
  eexists. split; [vm_compute; reflexivity |].
  exact (proj2 (listPhotos_bounded Cases.config Examples.world 5 [] _ _
                  eq_refl)).
Defined.

Lemma detectLogosForKey_numbers_detections_witness :
  exists h',
    Ingest.detectLogosForKey (rt:=Sample.runtime) Cases.world
      (js "photos/court.jpg") []
    = (Done Cases.detections, h') /\
    List.map Ingest.LogoDetection.name Cases.detections
    = [js "Nike"; js "Adidas"; js "Nike"] /\
    forall (i : nat) d,
      Cases.detections !! i = Some d ->
      Ingest.LogoDetection.detectionIndex d = i /\
      well_formed (rt:=Sample.runtime) d.
Proof.
  eexists. split; [vm_compute; reflexivity |]. split; [reflexivity |].
  exact (detectLogosForKey_numbers_detections (rt:=Sample.runtime)
           Cases.world (js "photos/court.jpg") [] _ _ eq_refl).
Defined.

Lemma mapping_sort_keys_distinct_witness :
  List.map
    (fun logo =>
       Val.field
         (IngestDecoupled.mapping_item (js "court")
            (js "2024-05-01T10:00:00.000Z") logo)
         "sortKey")
    Cases.detections
  = [VString (js "court#0000"); VString (js "court#0001");
     VString (js "court#0002")] /\
  NoDup (List.map
           (fun logo =>
              Val.field
                (IngestDecoupled.mapping_item (js "court")
                   (js "2024-05-01T10:00:00.000Z") logo)
                "sortKey")
           Cases.detections).
Proof.
  split; [reflexivity |].
  refine (proj1 (mapping_sort_keys_distinct (rt:=Sample.runtime) Cases.world
                   (js "photos/court.jpg") [] Cases.detections _ (js "court")
                   (js "2024-05-01T10:00:00.000Z") None _)).
  vm_compute. reflexivity.
Defined.

Lemma summarize_greatest_witness :
  Ingest.summarize Cases.detections
  = [ (js "nike", (Finite (19 # 20), js "Nike"));
      (js "adidas", (Finite (1 # 2), js "Adidas")) ] /\
  List.map fst (Ingest.summarize Cases.detections)
  = first_occurrences
      (List.map Ingest.LogoDetection.slug Cases.detections).
Proof.
  split; [reflexivity |].
  exact (proj1 (summarize_greatest Cases.detections)).
Defined.

Lemma savePhoto_sends_witness :
  obliging Cases.world /\
  exists h',
    IngestDecoupled.savePhotoDecoupled Cases.config Cases.world
      (js "photos") (js "photo-logos") (js "logo-summaries") 1
      (js "photos/court.jpg") Cases.detections []
    = (Done tt, h') /\
    omap (fun ev => match ev with
                    | Sent (PutCommand _ _) => Some "put"
                    | Sent (BatchWriteCommand _ _) => Some "batch write"
                    | Sent (UpdateCommand _ _ _ _ _) => Some "update"
                    | _ => None
                    end) h'
    = ["put"; "batch write"; "update"; "update"].
Proof.
  split; [apply sample_obliging |].
  destruct (savePhoto_sends Cases.config Cases.world
              (js "photos") (js "photo-logos") (js "logo-summaries")
              (js "index") 1 (js "photos/court.jpg") Cases.detections []
              (sample_obliging _ _) ltac:(lia)) as [E _].
  cbv zeta in E. eexists. split; [exact E | reflexivity].
Defined.

Lemma batch_writes_within_limit_witness :
  never_grows Examples.flaky_world /\
  exists h',
    IngestDecoupled.main (rt:=Sample.runtime) Counterexamples.config
      Examples.flaky_world (js "photos") (js "photo-logos")
      (js "logo-summaries") 30 []
    = (Done tt, h') /\
    Forall (batch_within 25) h'.
Proof.
  split; [exact flaky_never_grows |].
  destruct (batch_writes_within_limit (rt:=Sample.runtime)
              Counterexamples.config Examples.flaky_world
              (js "photos") (js "photo-logos") (js "logo-summaries")
              (js "index") 30 flaky_never_grows) as (Hmain & _).
  eexists. split; [vm_compute; reflexivity |].
  destruct (Hmain [] _ _ eq_refl) as (new & E & Hnew).
  cbn [app] in E. destruct E. exact Hnew.
Defined.

Lemma decoupled_items_read_back_witness :
  finite_detected Cases.framed /\
  Decoupled.mapLogoMapping (rt:=Sample.runtime)
    (IngestDecoupled.mapping_item (js "court") (js "2024-05-01T10:00:00.000Z")
       Cases.framed)
  = Returns (as_read Cases.framed).
Proof.
  assert (H : finite_detected Cases.framed).
  { split; [reflexivity |]. intros poly [= <-]. repeat constructor. }
  split; [exact H |].
  exact (proj2 (decoupled_items_read_back (rt:=Sample.runtime) Sample.env
                  Cases.config (js "photos/court.jpg")
                  (js "2024-05-01T10:00:00.000Z") Cases.framed H)).
Defined.

Lemma single_items_read_back_witness :
  SingleTable.mapPhotoItem (rt:=Sample.runtime) Sample.env
    (single_photo_item Cases.config (js "photos/court.jpg")
       (js "2024-05-01T10:00:00.000Z") Cases.detections)
  = Returns
      {| PhotoRecord.id := js "court";
         PhotoRecord.imageUrl :=
           Some (js "https://cdn.example/photos/court.jpg");
         PhotoRecord.s3Key := Some (js "photos/court.jpg");
         PhotoRecord.logos := [];
         PhotoRecord.createdAt := Some (js "2024-05-01T10:00:00.000Z");
         PhotoRecord.matchConfidence := None |}.
Proof.
  exact (proj1 (single_items_read_back (rt:=Sample.runtime) Sample.env
                  Cases.config (js "photos/court.jpg")
                  (js "2024-05-01T10:00:00.000Z") Cases.detections
                  Cases.framed)).
Defined.

Lemma query_key_is_written_key_witness :
  RuntimeLaws Sample.runtime /\
  exists out h',
    Decoupled.fetchPhotosByLogo (rt:=Sample.runtime) Sample.env
      SampleData.quiet (js "Nike") []
    = (out, h') /\
    Forall (queries_for "logoSlug" (VString (js "nike"))) h'.
Proof.
  split; [exact sample_laws |].
  assert (Hwf : well_formed (rt:=Sample.runtime) Cases.framed).
  { split; [discriminate | reflexivity]. }
  destruct (query_key_is_written_key (rt:=Sample.runtime) Sample.env
              SampleData.quiet sample_laws (js "court")
              (js "2024-05-01T10:00:00.000Z") None Cases.framed (js "Nike")
              Hwf (or_introl eq_refl)) as [Hd _].
  eexists _, _. split; [vm_compute; reflexivity |].
  destruct (Hd [] _ _ eq_refl) as (new & E & Hnew).
  cbn [app] in E. destruct E. exact Hnew.
Defined.

Lemma decoupled_fetchPhotosByLogo_logos_witness :
  serves SampleData.quiet SampleData.store /\
  exists photos h',
    Decoupled.fetchPhotosByLogo (rt:=Sample.runtime) Sample.env
      SampleData.quiet (js "Nike") []
    = (Done photos, h') /\
    List.map (fun p => length (PhotoRecord.logos p)) photos
    = [2%nat; 1%nat] /\
    forall p,
      In p photos ->
      Forall (fun d => LogoDetection.slug d = js "nike") (PhotoRecord.logos p).
Proof.
  split; [apply database_serves |].
  destruct (decoupled_fetchPhotosByLogo_logos (rt:=Sample.runtime) Sample.env
              SampleData.quiet SampleData.store (js "Nike") [] _ _
              (database_serves _ _) eq_refl)
    as (table & queried & _ & _ & Hall).
  eexists _, _. split; [vm_compute; reflexivity |].
  split; [reflexivity |]. intros p Hp. exact (proj2 (Hall p Hp)).
Defined.

Lemma decoupled_fetchAllPhotos_logos_witness :
  RuntimeLaws Sample.runtime /\
  exists photos h',
    Decoupled.fetchAllPhotos (rt:=Sample.runtime) Sample.env SampleData.quiet []
    = (Done photos, h') /\
    List.map (fun p => (PhotoRecord.id p, length (PhotoRecord.logos p))) photos
    = [(js "street", 1%nat); (js "beach", 3%nat)] /\
    forall p,
      In p photos ->
      rmap (Decoupled.mapLogoMapping (rt:=Sample.runtime))
        (mappings_of (rt:=Sample.runtime) (PhotoRecord.id p)
           (SampleData.store (js "photo-logos")))
      = Returns (PhotoRecord.logos p).
Proof.
  split; [exact sample_laws |].
  destruct (decoupled_fetchAllPhotos_logos (rt:=Sample.runtime) Sample.env
              SampleData.quiet sample_laws [] _ _ eq_refl)
    as [E | (t1 & t2 & scanned & scanned' & H1 & H2 & Hs & Hs' & Hall)];
    [discriminate |].
  eexists _, _. split; [vm_compute; reflexivity |].
  split; [reflexivity |].
  injection H1 as <-. injection H2 as <-.
  injection Hs as <-. injection Hs' as <-.
  apply Hall. repeat constructor.
  - intros H. apply elem_of_cons in H as [H | H]; [discriminate |].
    inversion H.
  - intros H. inversion H.
Defined.

Lemma fetchPhotosByLogo_returns_stored_photos_witness :
  serves SampleData.quiet SampleData.store /\
  exists photos h',
    SingleTable.fetchPhotosByLogo (rt:=Sample.runtime) Sample.env
      SampleData.quiet (js "adidas") []
    = (Done photos, h') /\
    List.map PhotoRecord.id photos = [js "beach"] /\
    forall p,
      In p photos ->
      exists item r,
        In item (SampleData.store (js "index")) /\
        Val.field item "PK" = VString (js "PHOTO") /\
        SingleTable.mapPhotoItem (rt:=Sample.runtime) Sample.env item
        = Returns r /\
        same_photo p r.
Proof.
  split; [apply database_serves |].
  destruct (fetchPhotosByLogo_returns_stored_photos (rt:=Sample.runtime)
              Sample.env SampleData.quiet SampleData.store (js "adidas") []
              (database_serves _ _)) as (_ & Hs).
  eexists _, _. split; [vm_compute; reflexivity |].
  split; [reflexivity |]. intros p Hp.
  destruct (Hs _ _ eq_refl p Hp)
    as (table & item & r & Ht & Hin & Hpk & Hr & Hsame & _).
  injection Ht as <-. now exists item, r.
Defined.

Lemma fetchAllPhotos_one_record_per_item_witness :
  RuntimeLaws Sample.runtime /\
  exists photos h',
    Decoupled.fetchAllPhotos (rt:=Sample.runtime) Sample.env
      (SampleData.world Counterexamples.undated_store []) []
    = (Done photos, h') /\
    List.map stamp photos
    = [ (js "a", Some (js "2020-01-01T00:00:00.000Z"));
        (js "b", None);
        (js "c", Some (js "2021-01-01T00:00:00.000Z")) ] /\
    Permutation (List.map stamp photos)
      (List.map (item_stamp (rt:=Sample.runtime) decoupled_id)
         (Counterexamples.undated_store (js "photos"))).
Proof.
  split; [exact sample_laws |].
  destruct (fetchAllPhotos_one_record_per_item (rt:=Sample.runtime)
              Sample.env (SampleData.world Counterexamples.undated_store [])
              sample_laws []) as (Hd & _).
  eexists _, _. split; [vm_compute; reflexivity |].
  split; [reflexivity |].
  destruct (Hd _ _ eq_refl) as (table & scanned & Ht & Hscan & Hperm).
  injection Ht as <-. injection Hscan as <-. exact Hperm.
Defined.

Lemma fetchAllLogos_most_photos_first_witness :
  RuntimeLaws Sample.runtime /\ collation_consistent Sample.runtime /\
  exists logos h',
    Decoupled.fetchAllLogos (rt:=Sample.runtime) Sample.env Cases.library []
    = (Done logos, h') /\
    List.map Decoupled.LogoSummary.name logos
    = [js "Nike"; js "Adidas"; js "Puma"] /\
    StronglySorted
      (ranks_before (rt:=Sample.runtime) Decoupled.LogoSummary.totalPhotos
         Decoupled.LogoSummary.name)
      logos.
Proof.
  split; [exact sample_laws |]. split; [exact sample_collation |].
  destruct (fetchAllLogos_most_photos_first (rt:=Sample.runtime) Sample.env
              Cases.library sample_laws sample_collation []) as (Hd & _).
  eexists _, _. split; [vm_compute; reflexivity |].
  split; [reflexivity |].
  destruct (Hd _ _ eq_refl) as (table & scanned & _ & _ & _ & Hsorted).
  apply Hsorted. repeat constructor.
Defined.

Lemma ingestion_fetches_listed_keys_witness :
  exists h1 h',
    Ingest.listPhotos Cases.config Examples.world 30
      [Logged LogInfo (js "Listing photos from S3...") None]
    = (Done [js "photos/torn.jpg"; js "photos/shoe.jpg"], h1) /\
    IngestSingle.main (rt:=Sample.runtime) Cases.config Examples.world
      (js "index") 30 []
    = (Done tt, h') /\
    fetches h' = [js "photos/torn.jpg"; js "photos/shoe.jpg"] /\
    Forall (listed Examples.world) (fetches h').
Proof.
  destruct (ingestion_fetches_listed_keys (rt:=Sample.runtime) Cases.config
              Examples.world (js "photos") (js "photo-logos")
              (js "logo-summaries") (js "index") 30 []) as (_ & Hs).
  eexists _, _. split; [vm_compute; reflexivity |].
  split; [vm_compute; reflexivity |].
  split; [reflexivity |].
  destruct (Hs _ eq_refl) as (keys & h1 & new & _ & E & Hk & _ & Hl).
  cbn [app] in E. destruct E. destruct Hk. exact Hl.
Defined.

Lemma routes_answer_500_when_unconfigured_witness :
  Routes.GET_photos_by_logo (rt:=Sample.runtime) (L:=Decoupled.LogoSummary.t)
    (Decoupled.fetchPhotosByLogo Cases.bare_env SampleData.quiet)
    (Task.ret (js "Nike")) []
  = (Done (Routes.json (Routes.ErrorBody (js "Unable to load photos for logo"))
             (Some 500%nat)),
     [Logged LogError (js "Failed to load photos by logo")
        (Some (Error (js "DYNAMO_PHOTOS_TABLE not configured")))]).
Proof.
  exact (proj1 (proj2 (proj2
           (routes_answer_500_when_unconfigured (rt:=Sample.runtime)
              Cases.bare_env SampleData.quiet [] (js "Nike")
              eq_refl eq_refl eq_refl eq_refl eq_refl
              ltac:(discriminate))))).
Defined.

Lemma gallery_shows_photos_of_selected_logo_witness :
  exists photos h',
    Decoupled.fetchAllPhotos (rt:=Sample.runtime) Sample.env SampleData.quiet []
    = (Done photos, h') /\
    List.map PhotoRecord.id (Gallery.filteredPhotos photos (Some (js "adidas")))
    = [js "beach"] /\
    Gallery.totalPhotosLabel Decoupled.LogoSummary.slug
      Decoupled.LogoSummary.name photos [] (Some (js "adidas"))
    = js "1 photo with adidas" /\
    sublist (Gallery.filteredPhotos photos (Some (js "adidas"))) photos.
Proof.
  eexists _, _. split; [vm_compute; reflexivity |].
  split; [reflexivity |]. split; [reflexivity |].
  exact (proj1 (gallery_shows_photos_of_selected_logo
                  Decoupled.LogoSummary.slug Decoupled.LogoSummary.name
                  _ [] (Some (js "adidas")))).
Defined.

Lemma gallery_image_sources_not_empty_witness :
  RuntimeLaws Sample.runtime /\
  exists photos h',
    Decoupled.fetchAllPhotos (rt:=Sample.runtime) Sample.env SampleData.quiet []
    = (Done photos, h') /\
    List.map Gallery.imageSrc photos
    = [js "https://cdn.example/photos/street.jpg";
       js "https://cdn.example/photos/beach.jpg"] /\
    Forall (fun photo => Gallery.imageSrc photo <> []) photos.
Proof.
  split; [exact sample_laws |].
  destruct (gallery_image_sources_not_empty (rt:=Sample.runtime) Sample.env
              SampleData.quiet sample_laws []) as (Hd & _).
  eexists _, _. split; [vm_compute; reflexivity |].
  split; [reflexivity |]. exact (Hd _ _ eq_refl).
Defined.

Lemma repositories_read_at_most_twice_witness :
  exists photos h',
    SingleTable.fetchPhotosByLogo (rt:=Sample.runtime) Sample.env
      SampleData.quiet (js "nike") []
    = (Done photos, h') /\
    length h' = 2%nat /\ Forall reads h'.
Proof.
  destruct (repositories_read_at_most_twice (rt:=Sample.runtime) Sample.env
              SampleData.quiet (js "nike")) as (_ & _ & _ & _ & _ & Hs).
  eexists _, _. split; [vm_compute; reflexivity |].
  split; [reflexivity |].
  destruct (Hs [] _ _ eq_refl) as (new & E & Hnew & _).
  cbn [app] in E. destruct E. exact Hnew.
Defined.

Lemma single_mapPhotoItem_names_logos_witness :
  exists p,
    SingleTable.mapPhotoItem (rt:=Sample.runtime) Sample.env Cases.court_item
    = Returns p /\
    List.map LogoDetection.slug (PhotoRecord.logos p)
    = [js "nike"; js "adidas-ag"] /\
    Forall (named (rt:=Sample.runtime)) (PhotoRecord.logos p).
Proof.
  eexists. split; [vm_compute; reflexivity |].
  split; [reflexivity |].
  apply (single_mapPhotoItem_names_logos (rt:=Sample.runtime) Sample.env
           Cases.court_item).
  vm_compute. reflexivity.
Defined.

Lemma normalizeLogoName_is_slug_witness :
  Dynamo.normalizeLogoName (rt:=Sample.runtime) (js "  Coca-Cola & Co. ")
  = js "coca-cola-co" /\
  Forall slug_unit
    (Dynamo.normalizeLogoName (rt:=Sample.runtime) (js "  Coca-Cola & Co. ")).
Proof.
  split; [reflexivity |].
  exact (proj1 (normalizeLogoName_is_slug (rt:=Sample.runtime)
                  (js "  Coca-Cola & Co. "))).
Defined.

Lemma normalizeLogoName_empty_witness :
  Dynamo.normalizeLogoName (rt:=Sample.runtime) (js " ?!* ") = [].
Proof.
  apply (proj2 (normalizeLogoName_empty (rt:=Sample.runtime) (js " ?!* "))).
  repeat constructor.
Defined.
